(** * gxdocgen: signature resolution, type normalisation and annotation parsing

    A shallow embedding of the decision logic of gxdocgen (Go):
    - [internal/xpz/signature.go]: [ExtractProcedureSignature], [parseParmString],
      [cleanType], [buildRawSignature], [EnrichWithVariableMetadata];
    - [internal/parser/parser.go]: [Parse], [extractCommentBlock], [parseTag],
      [parseParameter];
    - [internal/xpz/xpz.go] (the struct-decoding version): [extractParmSignature],
      [parseParmParameters], [enrichParametersWithVariableInfo] and the object
      loop of [parseGXExportFile].

    Modelling conventions.
    - A Go [string] is a [list ascii] (type [gostring]).  The Unicode-aware
      library functions ([strings.TrimSpace], [strings.Fields],
      [strings.ToUpper], [strings.ToLower]) are modelled on the ASCII range:
      a byte above 0x7F is neither white space nor a cased letter.
    - A Go slice whose nil-ness the program inspects ([Signature.Parameters])
      is an [option (list _)], [None] being the nil slice; slices of which only
      the length and the elements are read are plain lists.
    - The regular expressions of the program are values of a small syntax
      [Regexp.re], run by a backtracking matcher with the leftmost-first
      semantics of Go's [regexp] package.  The matcher reads bytes; the
      patterns of the program name ASCII bytes and classes only, so on UTF-8
      text a match by bytes is the match by code points.
    - [xmlquery] is an external library: the code is embedded over an
      interface [XmlQuery]; a concrete element tree implements it for the
      worked examples. *)

From stdpp Require Import base option list strings gmap.
From Stdlib Require Import Ascii Lia.

Set Default Proof Using "Type".

(** ** Go strings *)

Module GoStrings.

Abbreviation gostring := (list ascii).

(** String literals of the source are written [str "..."]. *)
Definition str (s : string) : gostring := String.list_ascii_of_string s.
#[global] Arguments str : simpl never.

Definition byte_of (c : ascii) : nat := nat_of_ascii c.

(** The one-byte string "\n". *)
Definition newline : gostring := ["010"%char].

(** [unicode.IsSpace] on the ASCII range: tab, newline, vertical tab, form
    feed, carriage return and space. *)
Definition isSpace (c : ascii) : bool :=
  let n := byte_of c in
  (n =? 9) || (n =? 10) || (n =? 11) || (n =? 12) || (n =? 13) || (n =? 32).

Definition isUpperLetter (c : ascii) : bool :=
  let n := byte_of c in (65 <=? n) && (n <=? 90).

Definition isLowerLetter (c : ascii) : bool :=
  let n := byte_of c in (97 <=? n) && (n <=? 122).

Definition isDigit (c : ascii) : bool :=
  let n := byte_of c in (48 <=? n) && (n <=? 57).

Definition toUpperChar (c : ascii) : ascii :=
  if isLowerLetter c then ascii_of_nat (byte_of c - 32) else c.

Definition toLowerChar (c : ascii) : ascii :=
  if isUpperLetter c then ascii_of_nat (byte_of c + 32) else c.

(** [strings.ToUpper], [strings.ToLower] *)
Definition ToUpper (s : gostring) : gostring := map toUpperChar s.
Definition ToLower (s : gostring) : gostring := map toLowerChar s.

Fixpoint dropSpaces (s : gostring) : gostring :=
  match s with
  | c :: s' => if isSpace c then dropSpaces s' else s
  | [] => []
  end.

(** [strings.TrimSpace] *)
Definition TrimSpace (s : gostring) : gostring :=
  reverse (dropSpaces (reverse (dropSpaces s))).

(** [strings.HasPrefix] *)
Fixpoint HasPrefix (s p : gostring) {struct p} : bool :=
  match p, s with
  | [], _ => true
  | a :: p', b :: s' => if decide (a = b) then HasPrefix s' p' else false
  | _ :: _, [] => false
  end.

(** [strings.TrimPrefix] *)
Definition TrimPrefix (s p : gostring) : gostring :=
  if HasPrefix s p then drop (length p) s else s.

(** [strings.Cut]: the text before and after the first occurrence of [sep]. *)
Fixpoint Cut (s sep : gostring) : option (gostring * gostring) :=
  if HasPrefix s sep then Some ([], drop (length sep) s)
  else match s with
       | [] => None
       | c :: s' =>
           match Cut s' sep with
           | Some (a, b) => Some (c :: a, b)
           | None => None
           end
       end.

(** [strings.Contains] *)
Definition Contains (s sub : gostring) : bool :=
  match Cut s sub with Some _ => true | None => false end.

(** [strings.Index]; [None] is Go's -1. *)
Definition Index (s sub : gostring) : option nat :=
  match Cut s sub with Some (a, _) => Some (length a) | None => None end.

(** [strings.LastIndex]; [None] is Go's -1. *)
Fixpoint LastIndex (s sub : gostring) : option nat :=
  match s with
  | [] => if HasPrefix [] sub then Some 0 else None
  | c :: s' =>
      match LastIndex s' sub with
      | Some i => Some (S i)
      | None => if HasPrefix s sub then Some 0 else None
      end
  end.

(** [strings.SplitN(s, sep, 2)] *)
Definition SplitN2 (s sep : gostring) : list gostring :=
  match Cut s sep with
  | Some (a, b) => [a; b]
  | None => [s]
  end.

Fixpoint splitFuel (n : nat) (s sep : gostring) : list gostring :=
  match n with
  | 0 => [s]
  | S n' =>
      match Cut s sep with
      | Some (a, b) => a :: splitFuel n' b sep
      | None => [s]
      end
  end.

(** [strings.Split] for a non-empty separator (the program only splits on
    one-character separators); every cut removes at least one byte, so
    [length s] rounds are enough. *)
Definition Split (s sep : gostring) : list gostring :=
  splitFuel (length s) s sep.

(** [strings.Join] *)
Fixpoint Join (l : list gostring) (sep : gostring) : gostring :=
  match l with
  | [] => []
  | [x] => x
  | x :: l' => x ++ sep ++ Join l' sep
  end.

Fixpoint fieldsFrom (cur : gostring) (s : gostring) : list gostring :=
  match s with
  | [] => match cur with [] => [] | _ => [reverse cur] end
  | c :: s' =>
      if isSpace c
      then match cur with [] => fieldsFrom [] s' | _ => reverse cur :: fieldsFrom [] s' end
      else fieldsFrom (c :: cur) s'
  end.

(** [strings.Fields]: the maximal runs of non-space bytes. *)
Definition Fields (s : gostring) : list gostring := fieldsFrom [] s.

(** Slice expression [s[lo:hi]]. *)
Definition slice (s : gostring) (lo hi : nat) : gostring :=
  take (hi - lo) (drop lo s).

End GoStrings.
Export GoStrings.

(** ** Go regular expressions *)

Module Regexp.

(** The syntax covers what the program's patterns use.  Repetition is only
    ever applied to a one-character class ([\s*], [\s+], [.*?], [.+]), so
    [Star] takes a class; [greedy = false] is the lazy [*?]. *)
Inductive re :=
| Eps
| Chr (p : ascii -> bool)
| Seq (a b : re)
| Alt (a b : re)
| Star (greedy : bool) (p : ascii -> bool)
| Group (i : nat) (a : re)
| Bot     (* ^ without the m flag: beginning of text *)
| Eot     (* $ without the m flag: end of text *)
| WordB.  (* \b: ASCII word boundary *)

Declare Scope re_scope.
Delimit Scope re_scope with re.
Bind Scope re_scope with re.
Infix "+>" := Seq (at level 60, right associativity) : re_scope.
Infix "<|>" := Alt (at level 65, right associativity) : re_scope.

(** Character classes. *)
Definition lit (c : ascii) : ascii -> bool := fun x => bool_decide (x = c).
Definition litI (c : ascii) : ascii -> bool :=
  fun x => bool_decide (toLowerChar x = toLowerChar c).
(** [\s] is [[\t\n\f\r ]] in Go's syntax: no vertical tab. *)
Definition reSpace (c : ascii) : bool :=
  let n := byte_of c in
  (n =? 9) || (n =? 10) || (n =? 12) || (n =? 13) || (n =? 32).
(** [.] without the s flag, and with it. *)
Definition dot (c : ascii) : bool := negb (byte_of c =? 10).
Definition dotS (c : ascii) : bool := true.
(** [\w] *)
Definition isWordChar (c : ascii) : bool :=
  isUpperLetter c || isLowerLetter c || isDigit c || (byte_of c =? 95).

Fixpoint lits (s : gostring) : re :=
  match s with
  | [] => Eps
  | [c] => Chr (lit c)
  | c :: s' => Seq (Chr (lit c)) (lits s')
  end.

Fixpoint litsI (s : gostring) : re :=
  match s with
  | [] => Eps
  | [c] => Chr (litI c)
  | c :: s' => Seq (Chr (litI c)) (litsI s')
  end.

(** Capture positions, most recent binding first. *)
Definition caps := list (nat * (nat * nat)).

(** The matcher works on a cursor into the text: [bef] is the text already
    read, most recent byte first, [aft] the text still to read.  A match
    yields its end offset and its captures. *)
Definition outcome := option (nat * caps).

Fixpoint star (g : bool) (p : ascii -> bool)
    (k : gostring -> gostring -> outcome) (bef aft : gostring) : outcome :=
  let more :=
    match aft with
    | x :: t => if p x then star g p k (x :: bef) t else None
    | [] => None
    end in
  if g then match more with Some r => Some r | None => k bef aft end
  else match k bef aft with Some r => Some r | None => more end.

Definition wordAt (s : gostring) : bool :=
  match s with x :: _ => isWordChar x | [] => false end.

(** Backtracking in priority order: the first success is the match Go's
    leftmost-first semantics selects at this start offset. *)
Fixpoint run (r : re) (k : gostring -> gostring -> caps -> outcome)
    (bef aft : gostring) (c : caps) : outcome :=
  match r with
  | Eps => k bef aft c
  | Chr p =>
      match aft with
      | x :: t => if p x then k (x :: bef) t c else None
      | [] => None
      end
  | Seq a b => run a (run b k) bef aft c
  | Alt a b =>
      match run a k bef aft c with
      | Some res => Some res
      | None => run b k bef aft c
      end
  | Star g p => star g p (fun bef' aft' => k bef' aft' c) bef aft
  | Group i a =>
      run a (fun bef' aft' c' => k bef' aft' ((i, (length bef, length bef')) :: c'))
          bef aft c
  | Bot => match bef with [] => k bef aft c | _ :: _ => None end
  | Eot => match aft with [] => k bef aft c | _ :: _ => None end
  | WordB => if xorb (wordAt bef) (wordAt aft) then k bef aft c else None
  end.

Definition matchAt (r : re) (bef aft : gostring) : outcome :=
  run r (fun bef' _ c => Some (length bef', c)) bef aft [].

(** Leftmost match at or after the cursor: start offset, end offset,
    captures. *)
Fixpoint findFrom (r : re) (bef aft : gostring) : option (nat * nat * caps) :=
  match matchAt r bef aft with
  | Some (e, c) => Some (length bef, e, c)
  | None =>
      match aft with
      | x :: t => findFrom r (x :: bef) t
      | [] => None
      end
  end.

Fixpoint capLookup (c : caps) (i : nat) : option (nat * nat) :=
  match c with
  | [] => None
  | (j, span) :: c' => if decide (i = j) then Some span else capLookup c' i
  end.

(** Text of group [i]; a group that took no part in the match is empty. *)
Definition submatch (s : gostring) (c : caps) (i : nat) : gostring :=
  match capLookup c i with
  | Some (b, e) => slice s b e
  | None => []
  end.

Fixpoint numSubexp (r : re) : nat :=
  match r with
  | Seq a b | Alt a b => numSubexp a `max` numSubexp b
  | Group i a => i `max` numSubexp a
  | _ => 0
  end.

(** [Regexp.FindStringSubmatch]; [None] is the nil slice. *)
Definition FindStringSubmatch (r : re) (s : gostring) : option (list gostring) :=
  match findFrom r [] s with
  | Some (b, e, c) => Some (slice s b e :: map (submatch s c) (seq 1 (numSubexp r)))
  | None => None
  end.

(** [Regexp.FindString] *)
Definition FindString (r : re) (s : gostring) : gostring :=
  match findFrom r [] s with
  | Some (b, e, _) => slice s b e
  | None => []
  end.

(** The loop of [Regexp.replaceAll]: [skip] bytes of the current match
    are still to be passed over; [justMatched] records that a match ended at
    the cursor, where an empty match is not replaced again. *)
Fixpoint replaceFrom (r : re) (repl : nat -> nat -> caps -> gostring)
    (skip : nat) (justMatched : bool) (bef aft : gostring) : gostring :=
  match skip with
  | S n =>
      match aft with
      | x :: t => replaceFrom r repl n justMatched (x :: bef) t
      | [] => []
      end
  | 0 =>
      match matchAt r bef aft with
      | Some (e, c) =>
          let b := length bef in
          if b <? e then
            repl b e c ++
            match aft with
            | x :: t => replaceFrom r repl (e - b - 1) true (x :: bef) t
            | [] => []
            end
          else
            (if justMatched then [] else repl b e c) ++
            match aft with
            | x :: t => x :: replaceFrom r repl 0 false (x :: bef) t
            | [] => []
            end
      | None =>
          match aft with
          | x :: t => x :: replaceFrom r repl 0 false (x :: bef) t
          | [] => []
          end
      end
  end.

(** Template names of [Regexp.expand]: letters, digits and underscore. *)
Fixpoint takeName (s : gostring) : gostring * gostring :=
  match s with
  | x :: t => if isWordChar x then let '(n, r) := takeName t in (x :: n, r) else ([], s)
  | [] => ([], [])
  end.

(** [extract]: the name after a [$] and the rest of the template. *)
Definition extract (t : gostring) : option (gostring * gostring) :=
  match t with
  | [] => None
  | x :: t' =>
      if decide (x = "{"%char) then
        match takeName t' with
        | ([], _) => None
        | (n, y :: rest) => if decide (y = "}"%char) then Some (n, rest) else None
        | (_, []) => None
        end
      else
        match takeName t with
        | ([], _) => None
        | (n, rest) => Some (n, rest)
        end
  end.

Fixpoint decimal (acc : nat) (s : gostring) : nat :=
  match s with
  | [] => acc
  | x :: t => decimal (10 * acc + (byte_of x - 48)) t
  end.

(** What [$name] expands to.  The patterns have no named groups, so only a
    decimal without leading zero selects text: 0 the match, [i] group [i];
    anything else, a group out of range included, expands to nothing. *)
Definition expandName (name s : gostring) (b e : nat) (c : caps) : gostring :=
  if forallb isDigit name
     && negb (bool_decide (head name = Some "0"%char) && (1 <? length name))
  then match decimal 0 name with
       | 0 => slice s b e
       | i => submatch s c i
       end
  else [].

Fixpoint expandFuel (n : nat) (template s : gostring) (b e : nat) (c : caps)
    : gostring :=
  match n with
  | 0 => template
  | S n' =>
      match Cut template (str "$") with
      | None => template
      | Some (before, after) =>
          before ++
          match after with
          | x :: t =>
              if decide (x = "$"%char) then x :: expandFuel n' t s b e c
              else match extract after with
                   | None => "$"%char :: expandFuel n' after s b e c
                   | Some (name, rest) =>
                       expandName name s b e c ++ expandFuel n' rest s b e c
                   end
          | [] => ["$"%char]
          end
      end
  end.

(** [Regexp.expand]; each round consumes a [$], so [length template]
    rounds are enough. *)
Definition expand (template s : gostring) (b e : nat) (c : caps) : gostring :=
  expandFuel (length template) template s b e c.

(** [Regexp.ReplaceAllString] *)
Definition ReplaceAllString (r : re) (src repl : gostring) : gostring :=
  replaceFrom r (fun b e c => expand repl src b e c) 0 false [] src.

(** [Regexp.ReplaceAllStringFunc] *)
Definition ReplaceAllStringFunc (r : re) (src : gostring)
    (f : gostring -> gostring) : gostring :=
  replaceFrom r (fun b e _ => f (slice src b e)) 0 false [] src.

End Regexp.
Export Regexp.

(** ** internal/model *)

Module ParameterDoc.
(** Modelled from the spec: the declaration of [model.ParameterDoc] is not
    among the sources; the fields are those the code reads and writes and
    the data model lists.  [Type_] is the field [Type]. *)
Record t := mk {
  Name : gostring;
  Direction : gostring;
  Type_ : gostring;
  Description : gostring;
}.
Definition set_Type (v : gostring) (p : t) : t :=
  mk (Name p) (Direction p) v (Description p).
Definition set_Description (v : gostring) (p : t) : t :=
  mk (Name p) (Direction p) (Type_ p) v.
End ParameterDoc.

Module DocComment.
(** Modelled from the spec: the declaration of [model.DocComment] is not
    among the sources; the fields are those the code reads and writes and
    the data model lists. *)
Record t := mk {
  Package : gostring;
  Summary : gostring;
  Description : gostring;
  Author : gostring;
  Created : gostring;
  Return : gostring;
  Tags : list gostring;
  Deprecated : bool;
  DeprecationNote : gostring;
  Parameters : list ParameterDoc.t;
  IsAutoGenerated : bool;
}.
(** The zero value of the struct. *)
Definition zero : t := mk [] [] [] [] [] [] [] false [] [] false.
Definition set_Package v d :=
  mk v (Summary d) (Description d) (Author d) (Created d) (Return d) (Tags d)
     (Deprecated d) (DeprecationNote d) (Parameters d) (IsAutoGenerated d).
Definition set_Summary v d :=
  mk (Package d) v (Description d) (Author d) (Created d) (Return d) (Tags d)
     (Deprecated d) (DeprecationNote d) (Parameters d) (IsAutoGenerated d).
Definition set_Description v d :=
  mk (Package d) (Summary d) v (Author d) (Created d) (Return d) (Tags d)
     (Deprecated d) (DeprecationNote d) (Parameters d) (IsAutoGenerated d).
Definition set_Author v d :=
  mk (Package d) (Summary d) (Description d) v (Created d) (Return d) (Tags d)
     (Deprecated d) (DeprecationNote d) (Parameters d) (IsAutoGenerated d).
Definition set_Created v d :=
  mk (Package d) (Summary d) (Description d) (Author d) v (Return d) (Tags d)
     (Deprecated d) (DeprecationNote d) (Parameters d) (IsAutoGenerated d).
Definition set_Return v d :=
  mk (Package d) (Summary d) (Description d) (Author d) (Created d) v (Tags d)
     (Deprecated d) (DeprecationNote d) (Parameters d) (IsAutoGenerated d).
Definition set_Tags v d :=
  mk (Package d) (Summary d) (Description d) (Author d) (Created d) (Return d) v
     (Deprecated d) (DeprecationNote d) (Parameters d) (IsAutoGenerated d).
Definition set_Deprecated v d :=
  mk (Package d) (Summary d) (Description d) (Author d) (Created d) (Return d) (Tags d)
     v (DeprecationNote d) (Parameters d) (IsAutoGenerated d).
Definition set_DeprecationNote v d :=
  mk (Package d) (Summary d) (Description d) (Author d) (Created d) (Return d) (Tags d)
     (Deprecated d) v (Parameters d) (IsAutoGenerated d).
Definition set_Parameters v d :=
  mk (Package d) (Summary d) (Description d) (Author d) (Created d) (Return d) (Tags d)
     (Deprecated d) (DeprecationNote d) v (IsAutoGenerated d).
End DocComment.

Module GXObject.
(** Modelled from the spec: the declaration of [model.GXObject] is not among
    the sources; the fields are those [parseGXExportFile] fills.  [Type_] is
    the field [Type]; a nil [Documentation] is [None]. *)
Record t := mk {
  Name : gostring;
  Type_ : gostring;
  Path : gostring;
  SourceCode : gostring;
  ParmSignature : gostring;
  XMLDescription : gostring;
  Documentation : option DocComment.t;
}.
End GXObject.

(** ** internal/parser/parser.go *)

Module Parser.

(** [(?s)/\*\*\s*(.*?)\s*\*/] *)
Definition commentRegex : re :=
  (lits (str "/**") +> Star true reSpace +> Group 1 (Star false dotS)
   +> Star true reSpace +> lits (str "*/"))%re.

(** [extractCommentBlock] finds and extracts the /** ... */ comment block. *)
Definition extractCommentBlock (source : gostring) : gostring :=
  match FindStringSubmatch commentRegex source with
  | Some (_ :: block :: _) =>
      (* Remove leading * from each line *)
      let lines := Split block newline in
      let cleaned :=
        map (fun line => TrimSpace (TrimPrefix (TrimSpace line) (str "*"))) lines in
      Join cleaned newline
  | _ => []
  end.

(** [parseParameter] parses a @param line; [None] is the nil pointer. *)
Definition parseParameter (value : gostring) : option ParameterDoc.t :=
  (* Split by " - " to separate description *)
  let parts := SplitN2 value (str " - ") in
  let paramPart := TrimSpace (hd [] parts) in
  let description :=
    match parts with
    | _ :: d :: _ => TrimSpace d
    | _ => []
    end in
  (* Parse "name direction type" *)
  match Fields paramPart with
  | tok0 :: tok1 :: rest =>
      let direction := ToUpper tok1 in
      if bool_decide (direction = str "IN") || bool_decide (direction = str "OUT")
         || bool_decide (direction = str "INOUT")
      then Some (ParameterDoc.mk tok0 direction (hd [] rest) description)
      else Some (ParameterDoc.mk tok0 (str "IN") tok1 description)
  | _ => None
  end.

(** [parseTag] processes a single @tag line, updating the record. *)
Definition parseTag (line : gostring) (doc : DocComment.t) : DocComment.t :=
  let parts := SplitN2 line (str " ") in
  let tag := hd [] parts in
  let value :=
    match parts with
    | _ :: v :: _ => TrimSpace v
    | _ => []
    end in
  if bool_decide (tag = str "@package") then DocComment.set_Package value doc
  else if bool_decide (tag = str "@summary") then DocComment.set_Summary value doc
  else if bool_decide (tag = str "@description") then DocComment.set_Description value doc
  else if bool_decide (tag = str "@author") then DocComment.set_Author value doc
  else if bool_decide (tag = str "@created") then DocComment.set_Created value doc
  else if bool_decide (tag = str "@param") then
    match parseParameter value with
    | Some param =>
        DocComment.set_Parameters (DocComment.Parameters doc ++ [param]) doc
    | None => doc
    end
  else if bool_decide (tag = str "@return") then DocComment.set_Return value doc
  else if bool_decide (tag = str "@tag") then
    DocComment.set_Tags (DocComment.Tags doc ++ [value]) doc
  else if bool_decide (tag = str "@deprecated") then
    DocComment.set_DeprecationNote value (DocComment.set_Deprecated true doc)
  else doc.

Definition error := gostring.

(** One round of the loop of [Parse]. *)
Definition parseLine (doc : DocComment.t) (line : gostring) : DocComment.t :=
  let line := TrimSpace line in
  if bool_decide (line = []) then doc
  else if HasPrefix line (str "@") then parseTag line doc
  else doc.

(** [Parse] extracts and parses documentation comments from GeneXus source
    code.  The result is the pair Go returns: the document pointer and the
    error, [None] being nil. *)
Definition Parse (sourceCode : gostring) : option DocComment.t * option error :=
  let commentBlock := extractCommentBlock sourceCode in
  if bool_decide (commentBlock = []) then (None, None)
  else
    let lines := Split commentBlock newline in
    (Some (fold_left parseLine lines DocComment.zero), None).

End Parser.

(** ** internal/xpz *)

Module Xpz.

(** *** The xmlquery library, as the code uses it *)

(** [Find] is [xmlquery.Find], [InnerText] the method of a node, [Attr] the
    attribute list of a node as pairs of [Name.Local] and [Value]. *)
Class XmlQuery (Node : Type) := {
  Find : Node -> gostring -> list Node;
  InnerText : Node -> gostring;
  Attr : Node -> list (gostring * gostring);
}.

Definition GXTypeProcedure : gostring := str "84a12160-f59b-4ad7-a683-ea4481ac23e9".
Definition GXPartSourceCode : gostring := str "528d1c06-a9c2-420d-bd35-21dca83f12ff".
Definition GXPartRules : gostring := str "9b0a32a3-de6d-4be1-a4dd-1b85d3741534".
Definition GXPartVariables : gostring := str "e4c4ade7-53f0-4a56-bdfd-843735b66f47".

(** [Signature] represents a procedure's parameter signature. *)
Module Signature.
Record t := mk {
  Parameters : option (list ParameterDoc.t);
  RawSignature : gostring;
  ExtractionMode : gostring;  (* "ParmRule", "IsParm", "None" *)
}.
(** [Signature{}] *)
Definition zero : t := mk None [] [].
Definition set_ExtractionMode (v : gostring) (s : t) : t :=
  mk (Parameters s) (RawSignature s) v.
End Signature.

(** The pre-compiled regular expressions. *)

Definition direction : re :=
  (litsI (str "in") <|> litsI (str "out") <|> litsI (str "inout"))%re.

(** [(?i)parm\s*\((.*?)\)] *)
Definition parmRegex : re :=
  (litsI (str "parm") +> Star true reSpace +> Chr (lit "(")
   +> Group 1 (Star false dot) +> Chr (lit ")"))%re.

(** [(?i)^(in|out|inout)\s*:\s*&(.+)$] *)
Definition paramRegex : re :=
  (Bot +> Group 1 direction +> Star true reSpace +> Chr (lit ":")
   +> Star true reSpace +> Chr (lit "&") +> Group 2 (Chr dot +> Star true dot)
   +> Eot)%re.

(** [(?i)\b(in|out|inout)\s*:] *)
Definition directionRegex : re :=
  (WordB +> Group 1 direction +> Star true reSpace +> Chr (lit ":"))%re.

(** [(?i)\b(in|out|inout)] *)
Definition directionMatch : re := (WordB +> Group 1 direction)%re.

(** [:\s+&] *)
Definition colonSpaceRegex : re :=
  (Chr (lit ":") +> Chr reSpace +> Star true reSpace +> Chr (lit "&"))%re.

(** [,\s*] *)
Definition commaSpaceRegex : re := (Chr (lit ",") +> Star true reSpace)%re.

(** [:] *)
Definition typeColonRegex : re := Chr (lit ":").

(** [append] on a slice that may be nil. *)
Definition append {A} (s : option (list A)) (x : A) : option (list A) :=
  Some (default [] s ++ [x]).

(** [len] of a slice that may be nil. *)
Definition len {A} (s : option (list A)) : nat := length (default [] s).

(** [cleanType] strips GeneXus type prefixes (bas:, bc:, sdt:). *)
Definition cleanType (rawType : gostring) : gostring :=
  let rawType := TrimSpace rawType in
  (* Strip prefixes: bas:, bc:, sdt: *)
  if Contains rawType (str ":") && negb (HasPrefix rawType (str "Attribute:")) then
    match SplitN2 rawType (str ":") with
    | [_; rhs] =>
        (* If type contains package, keep only type *)
        match Index rhs (str ",") with
        | Some commaIdx => TrimSpace (slice rhs 0 commaIdx)
        | None => rhs
        end
    | _ => rawType
    end
  else rawType.

(** [buildRawSignature] constructs a normalized signature string from
    parameters. *)
Definition buildRawSignature (procedureName : gostring)
    (params : option (list ParameterDoc.t)) : gostring :=
  if len params =? 0 then procedureName ++ str "();"
  else
    let parts :=
      map (fun p => ToLower (ParameterDoc.Direction p) ++ str ":&" ++ ParameterDoc.Name p)
          (default [] params) in
    procedureName ++ str "(" ++ Join parts (str ", ") ++ str ");".

(** The filter at the head of [parseParmString]: commented lines (starting
    with //) are left out. *)
Definition activeLines (source : gostring) : list gostring :=
  filter (fun line => HasPrefix (TrimSpace line) (str "//") = false)
         (Split source newline).

(** One round of the loop over the comma-separated parts. *)
Definition parmPart (params : option (list ParameterDoc.t)) (part : gostring)
    : option (list ParameterDoc.t) :=
  let part := TrimSpace part in
  if bool_decide (part = []) then params
  else
    match FindStringSubmatch paramRegex part with
    | Some [_; m1; m2] =>
        append params (ParameterDoc.mk (TrimSpace m2) (ToUpper m1) [] [])
    | _ => params
    end.

(** [parseParmString] parses a Parm(...) declaration from source text. *)
Definition parseParmString (source procedureName : gostring) : Signature.t :=
  (* Filter out commented lines (starting with //) *)
  let source := Join (activeLines source) newline in
  match FindStringSubmatch parmRegex source with
  | Some (_ :: paramsStr :: _) =>
      if bool_decide (TrimSpace paramsStr = []) then
        Signature.mk (Some []) (procedureName ++ str "();") []
      else
        let parts := Split paramsStr (str ",") in
        let params := fold_left parmPart parts None in
        (* Replace "parm"/"Parm" (case-insensitive) with actual procedure name *)
        let rawSig :=
          ReplaceAllString parmRegex source
            (procedureName ++ str "(" ++ paramsStr ++ str ")") in
        (* Normalize directions to lowercase *)
        let rawSig :=
          ReplaceAllStringFunc directionRegex rawSig
            (fun m => ToLower (FindString directionMatch m) ++ str ":") in
        (* Remove spaces after colons *)
        let rawSig := ReplaceAllString colonSpaceRegex rawSig (str ":&") in
        (* Ensure single space after commas *)
        let rawSig := ReplaceAllString commaSpaceRegex rawSig (str ", ") in
        let rawSig := TrimSpace rawSig in
        Signature.mk params rawSig []
  | _ => Signature.zero
  end.

Section WithXml.
Context {Node : Type} `{XmlQuery Node}.

(** [xmlquery.FindOne]: the first node [Find] returns. *)
Definition FindOne (top : Node) (expr : gostring) : option Node :=
  head (Find top expr).

(** [GetText] returns the text content of the first node matching the
    XPath. *)
Definition GetText (node : Node) (xpath : gostring) : gostring :=
  match FindOne node xpath with
  | None => []
  | Some found => TrimSpace (InnerText found)
  end.

Fixpoint attrLookup (attrs : list (gostring * gostring)) (attr : gostring)
    : gostring :=
  match attrs with
  | [] => []
  | (n, v) :: rest =>
      if bool_decide (n = attr) then TrimSpace v else attrLookup rest attr
  end.

(** [GetAttrDirect] returns an attribute directly from the provided node. *)
Definition GetAttrDirect (node : Node) (attr : gostring) : gostring :=
  attrLookup (Attr node) attr.

(** [extractFromParmRule] extracts parameters from ParmRule part. *)
Definition extractFromParmRule (objNode : Node) (procedureName : gostring)
    : Signature.t :=
  let source :=
    GetText objNode (str "//Part[@type='" ++ GXPartRules ++ str "']/Source") in
  if bool_decide (source = []) then Signature.zero
  else parseParmString source procedureName.

(** The locals of the loop over the variables in
    [extractFromIsParmVariables]. *)
Record varScan := mkScan {
  isParm : bool;
  name : gostring;
  varType : gostring;
  description : gostring;
}.

(** The [switch propName] of [extractFromIsParmVariables]. *)
Definition scanProperty (st : varScan) (prop : Node) : varScan :=
  let propName := GetText prop (str "Name") in
  let propValue := GetText prop (str "Value") in
  if bool_decide (propName = str "IsParm") then
    mkScan (bool_decide (propValue = str "True") || bool_decide (propValue = str "true"))
           (name st) (varType st) (description st)
  else if bool_decide (propName = str "Name") then
    mkScan (isParm st) propValue (varType st) (description st)
  else if bool_decide (propName = str "Description") then
    mkScan (isParm st) (name st) (varType st) propValue
  else if bool_decide (propName = str "ATTCUSTOMTYPE") then
    mkScan (isParm st) (name st) (cleanType propValue) (description st)
  else if bool_decide (propName = str "idBasedOn") then
    if bool_decide (varType st = []) && HasPrefix propValue (str "Attribute:")
    then mkScan (isParm st) (name st) (str "-") (description st)
    else st
  else st.

Definition scanVariable (varNode : Node) : varScan :=
  fold_left scanProperty (Find varNode (str "Properties/Property"))
            (mkScan false [] [] []).

(** One round of the loop over the variables. *)
Definition isParmVariable (params : option (list ParameterDoc.t)) (varNode : Node)
    : option (list ParameterDoc.t) :=
  let st := scanVariable varNode in
  if isParm st && negb (bool_decide (name st = [])) then
    append params (ParameterDoc.mk (name st) (str "IN") (varType st) (description st))
  else params.

(** [extractFromIsParmVariables] extracts parameters from Variables with
    IsParm attribute. *)
Definition extractFromIsParmVariables (objNode : Node) (procedureName : gostring)
    : Signature.t :=
  match FindOne objNode (str "//Part[@type='" ++ GXPartVariables ++ str "']") with
  | None => Signature.zero
  | Some variablesPart =>
      let variables := Find variablesPart (str "//Variable") in
      let params := fold_left isParmVariable variables None in
      if len params =? 0 then Signature.zero
      else
        let rawSig := buildRawSignature procedureName params in
        Signature.mk params rawSig []
  end.

(** [ExtractProcedureSignature] extracts procedure signature with multi-layer
    fallback.  Priority: ParmRule, then Variables[@IsParm], then empty. *)
Definition ExtractProcedureSignature (objNode : Node) (procedureName : gostring)
    : Signature.t :=
  let sig := extractFromParmRule objNode procedureName in
  if is_Some_dec (Signature.Parameters sig) then
    Signature.set_ExtractionMode (str "ParmRule") sig
  else
    let sig := extractFromIsParmVariables objNode procedureName in
    if is_Some_dec (Signature.Parameters sig) then
      Signature.set_ExtractionMode (str "IsParm") sig
    else
      Signature.mk (Some []) (procedureName ++ str "();") (str "None").

(** The value type of [varMap]. *)
Record varMeta := mkMeta { metaType : gostring; metaDescription : gostring }.

(** The [switch propName] of [EnrichWithVariableMetadata]. *)
Definition metaProperty (st : varMeta) (prop : Node) : varMeta :=
  let propName := GetText prop (str "Name") in
  let propValue := GetText prop (str "Value") in
  if bool_decide (propName = str "Description") then
    mkMeta (metaType st) propValue
  else if bool_decide (propName = str "ATTCUSTOMTYPE") then
    mkMeta (cleanType propValue) (metaDescription st)
  else if bool_decide (propName = str "idBasedOn") then
    if bool_decide (metaType st = []) && HasPrefix propValue (str "Attribute:")
    then mkMeta (str "-") (metaDescription st)
    else st
  else st.

(** One round of the loop that builds [varMap]. *)
Definition addVariable (varMap : gmap gostring varMeta) (varNode : Node)
    : gmap gostring varMeta :=
  let name := GetAttrDirect varNode (str "Name") in
  if bool_decide (name = []) then varMap
  else
    <[name := fold_left metaProperty (Find varNode (str "Properties/Property"))
                        (mkMeta [] [])]> varMap.

(** One round of the loop that enriches the parameters. *)
Definition enrichParam (varMap : gmap gostring varMeta) (p : ParameterDoc.t)
    : ParameterDoc.t :=
  match varMap !! ParameterDoc.Name p with
  | Some meta =>
      let p :=
        if bool_decide (ParameterDoc.Type_ p = [])
        then ParameterDoc.set_Type (metaType meta) p else p in
      if bool_decide (ParameterDoc.Description p = [])
      then ParameterDoc.set_Description (metaDescription meta) p else p
  | None => p
  end.

(** [EnrichWithVariableMetadata] adds type and description metadata from
    Variables part. *)
Definition EnrichWithVariableMetadata (params : list ParameterDoc.t) (objNode : Node)
    : list ParameterDoc.t :=
  match FindOne objNode (str "//Part[@type='" ++ GXPartVariables ++ str "']") with
  | None => params
  | Some variablesPart =>
      let varMap :=
        fold_left addVariable (Find variablesPart (str "//Variable")) ∅ in
      map (enrichParam varMap) params
  end.

End WithXml.

End Xpz.
Export Xpz.

(** ** internal/xpz/xpz.go, the version that decodes the export into structs *)

(** [GXProperty2] represents a property of a variable. *)
Module GXProperty2.
Record t := mk { Name : gostring; Value : gostring }.
End GXProperty2.

(** [GXVariable] represents a variable declaration in a Part. *)
Module GXVariable.
Record t := mk { Name : gostring; Properties : list GXProperty2.t }.
End GXVariable.

(** [GXPart] represents a part of a GeneXus object in the XML structure. *)
Module GXPart.
Record t := mk { Type_ : gostring; Source : gostring; Variables : list GXVariable.t }.
End GXPart.

(** The local struct [GXObjectXML] of [parseGXExportFile]. *)
Module GXObjectXML.
Record t := mk {
  Name : gostring;
  Type_ : gostring;
  Description : gostring;
  Parent : gostring;
  ParentType : gostring;
  Parts : list GXPart.t;
}.
End GXObjectXML.

(** The local struct [ExportFile], with [Source.Version.Name] flattened. *)
Module ExportFile.
Record t := mk { VersionName : gostring; Objects : list GXObjectXML.t }.
End ExportFile.

Module XpzExport.

(** [extractProcedureSource] extracts source code from Procedure Parts. *)
Fixpoint extractProcedureSource (parts : list GXPart.t) : gostring :=
  match parts with
  | [] => []
  | part :: rest =>
      if bool_decide (GXPart.Type_ part = GXPartSourceCode)
      then TrimSpace (GXPart.Source part)
      else extractProcedureSource rest
  end.

(** [extractParmSignature] extracts the Parm() signature from a Part and
    replaces Parm with the procedure name. *)
Fixpoint extractParmSignature (parts : list GXPart.t) (procedureName : gostring)
    : gostring :=
  match parts with
  | [] => []
  | part :: rest =>
      (* Rules part contains the Parm() declaration *)
      if bool_decide (GXPart.Type_ part = GXPartRules) then
        let signature := TrimSpace (GXPart.Source part) in
        if HasPrefix signature (str "Parm(")
        then procedureName ++ str "(" ++ TrimPrefix signature (str "Parm(")
        else signature
      else extractParmSignature rest procedureName
  end.

(** One round of the loop over the comma-separated parts. *)
Definition parmParameter (params : list ParameterDoc.t) (part : gostring)
    : list ParameterDoc.t :=
  let part := TrimSpace part in
  if bool_decide (part = []) then params
  else
    match Index part (str ":") with
    | Some colonIdx =>
        let direction := ToUpper (TrimSpace (slice part 0 colonIdx)) in
        let name := TrimSpace (drop (colonIdx + 1) part) in
        (* Remove & prefix if present *)
        let name := TrimPrefix name (str "&") in
        params ++ [ParameterDoc.mk name direction [] []]
    | None => params
    end.

(** [parseParmParameters] extracts parameter information from Parm()
    signature.  The nil slice and the empty slice are both [[]]: the callers
    read the length and the elements only. *)
Definition parseParmParameters (parmSignature : gostring) : list ParameterDoc.t :=
  if bool_decide (parmSignature = []) then []
  else
    match Index parmSignature (str "("), LastIndex parmSignature (str ")") with
    | Some start, Some end_ =>
        if end_ <=? start then []
        else
          let paramsStr := slice parmSignature (start + 1) end_ in
          if bool_decide (TrimSpace paramsStr = []) then []
          else fold_left parmParameter (Split paramsStr (str ",")) []
    | _, _ => []
    end.

(** The value type of [varMap]. *)
Record varInfo := mkInfo { infoDescription : gostring; infoType : gostring }.

(** The [switch prop.Name] of [enrichParametersWithVariableInfo]. *)
Definition infoProperty (st : varInfo) (prop : GXProperty2.t) : varInfo :=
  let value := GXProperty2.Value prop in
  if bool_decide (GXProperty2.Name prop = str "Description") then
    mkInfo value (infoType st)
  else if bool_decide (GXProperty2.Name prop = str "ATTCUSTOMTYPE") then
    match Index value (str ":") with
    | Some colonIdx =>
        let typ := TrimSpace (drop (colonIdx + 1) value) in
        match Index typ (str ",") with
        | Some commaIdx => mkInfo (infoDescription st) (TrimSpace (slice typ 0 commaIdx))
        | None => mkInfo (infoDescription st) typ
        end
    | None => mkInfo (infoDescription st) value
    end
  else st.

Definition addVariableInfo (varMap : gmap gostring varInfo) (v : GXVariable.t)
    : gmap gostring varInfo :=
  <[GXVariable.Name v := fold_left infoProperty (GXVariable.Properties v) (mkInfo [] [])]>
    varMap.

(** The variables of the first Variables part. *)
Fixpoint findVariables (parts : list GXPart.t) : list GXVariable.t :=
  match parts with
  | [] => []
  | part :: rest =>
      if bool_decide (GXPart.Type_ part = str "e4c4ade7-53f0-4a56-bdfd-843735b66f47")
      then GXPart.Variables part
      else findVariables rest
  end.

Definition enrichWithInfo (varMap : gmap gostring varInfo) (p : ParameterDoc.t)
    : ParameterDoc.t :=
  match varMap !! ParameterDoc.Name p with
  | Some info =>
      let p :=
        if bool_decide (ParameterDoc.Description p = [])
        then ParameterDoc.set_Description (infoDescription info) p else p in
      if bool_decide (ParameterDoc.Type_ p = [])
      then ParameterDoc.set_Type (infoType info) p else p
  | None => p
  end.

(** [enrichParametersWithVariableInfo] adds type and description from
    Variable elements. *)
Definition enrichParametersWithVariableInfo (params : list ParameterDoc.t)
    (parts : list GXPart.t) : list ParameterDoc.t :=
  if length params =? 0 then params
  else
    let variables := findVariables parts in
    if length variables =? 0 then params
    else
      let varMap := fold_left addVariableInfo variables ∅ in
      map (enrichWithInfo varMap) params.

(** GeneXus object type GUIDs to human-readable names. *)
Definition gxTypeMap : gmap gostring gostring :=
  {[ GXTypeProcedure := str "Procedure" ]}.

(** The documentation of a Procedure object: the body of
    [if typeName == "Procedure"] in [parseGXExportFile], returning
    [sourceCode], [parmSignature] and [documentation]. *)
Definition procedureParts (obj : GXObjectXML.t)
    : gostring * gostring * option DocComment.t :=
  let sourceCode := extractProcedureSource (GXObjectXML.Parts obj) in
  let parmSignature :=
    extractParmSignature (GXObjectXML.Parts obj) (GXObjectXML.Name obj) in
  (* Parse documentation from source code *)
  let documentation :=
    if bool_decide (sourceCode = []) then None
    else match Parser.Parse sourceCode with
         | (_, Some err) => None      (* a warning is printed *)
         | (doc, None) => doc
         end in
  (* If no documentation or no parameters in documentation, parse from Parm
     signature *)
  let documentation :=
    match documentation with
    | None =>
        if bool_decide (parmSignature = []) then None
        else
          let params := parseParmParameters parmSignature in
          let params := enrichParametersWithVariableInfo params (GXObjectXML.Parts obj) in
          Some (DocComment.mk [] [] [] [] [] [] [] false [] params true)
    | Some doc =>
        if (length (DocComment.Parameters doc) =? 0)
           && negb (bool_decide (parmSignature = []))
        then
          let params := parseParmParameters parmSignature in
          let params := enrichParametersWithVariableInfo params (GXObjectXML.Parts obj) in
          Some (DocComment.set_Parameters params doc)
        else Some doc
    end in
  (sourceCode, parmSignature, documentation).

(** One round of the loop over [exportFile.Objects]: the objects collected so
    far and the keys seen. *)
Definition addObject (st : list GXObject.t * gmap gostring bool)
    (obj : GXObjectXML.t) : list GXObject.t * gmap gostring bool :=
  let '(objects, seenObjects) := st in
  let typeName := default [] (gxTypeMap !! GXObjectXML.Type_ obj) in
  let typeName := if bool_decide (typeName = []) then str "Unknown" else typeName in
  if bool_decide (typeName = str "Folder") then st
  else if bool_decide (typeName = str "Unknown") then st
  else
    let objKey := GXObjectXML.Name obj ++ str "|" ++ GXObjectXML.Type_ obj in
    if default false (seenObjects !! objKey) then st
    else
      let seenObjects := <[objKey := true]> seenObjects in
      let displayName :=
        if bool_decide (GXObjectXML.Description obj = [])
        then GXObjectXML.Name obj else GXObjectXML.Description obj in
      let '(sourceCode, parmSignature, documentation) :=
        if bool_decide (typeName = str "Procedure") then procedureParts obj
        else ([], [], None) in
      (objects ++
         [GXObject.mk displayName typeName (GXObjectXML.Name obj) sourceCode
                      parmSignature (GXObjectXML.Description obj) documentation],
       seenObjects).

(** [parseGXExportFile] after the file is decoded: the objects and the
    knowledge-base name. *)
Definition parseGXExportFile (exportFile : ExportFile.t) : list GXObject.t * gostring :=
  (fst (fold_left addObject (ExportFile.Objects exportFile) ([], ∅)),
   ExportFile.VersionName exportFile).

End XpzExport.

(** ** A concrete element tree for [xmlquery] *)

Module XmlTree.

#[local] Set Warnings "-register-all".

Inductive node :=
| Element (name : gostring) (attrs : list (gostring * gostring)) (children : list node)
| Text (data : gostring).

Definition children (n : node) : list node :=
  match n with Element _ _ cs => cs | Text _ => [] end.

(** Proper descendants in document order. *)
Fixpoint descendants (n : node) : list node :=
  match n with
  | Element _ _ cs =>
      (fix go (l : list node) : list node :=
         match l with
         | [] => []
         | c :: l' => c :: descendants c ++ go l'
         end) cs
  | Text _ => []
  end.

Fixpoint innerText (n : node) : gostring :=
  match n with
  | Element _ _ cs =>
      (fix go (l : list node) : gostring :=
         match l with
         | [] => []
         | c :: l' => innerText c ++ go l'
         end) cs
  | Text d => d
  end.

Definition attrsOf (n : node) : list (gostring * gostring) :=
  match n with Element _ a _ => a | Text _ => [] end.

(** A location step [name] or [name[@attr='value']]. *)
Definition step := (gostring * option (gostring * gostring))%type.

Definition parseStep (s : gostring) : step :=
  match Cut s (str "[@") with
  | None => (s, None)
  | Some (n, r) =>
      match Cut r (str "='") with
      | None => (s, None)
      | Some (a, r') =>
          match Cut r' (str "']") with
          | None => (s, None)
          | Some (v, _) => (n, Some (a, v))
          end
      end
  end.

Fixpoint rawAttr (attrs : list (gostring * gostring)) (a : gostring) : option gostring :=
  match attrs with
  | [] => None
  | (n, v) :: rest => if bool_decide (n = a) then Some v else rawAttr rest a
  end.

Definition stepMatches (st : step) (n : node) : bool :=
  match n with
  | Element nm attrs _ =>
      bool_decide (nm = fst st) &&
      match snd st with
      | None => true
      | Some (a, v) => bool_decide (rawAttr attrs a = Some v)
      end
  | Text _ => false
  end.

Definition childStep (st : step) (ns : list node) : list node :=
  flat_map (fun n => List.filter (stepMatches st) (children n)) ns.

(** The path expressions the program uses: steps separated by [/], with an
    optional leading [//], which [xmlquery] resolves below the node it is
    given. *)
Definition find (top : node) (expr : gostring) : list node :=
  if HasPrefix expr (str "//") then
    match map parseStep (Split (drop 2 expr) (str "/")) with
    | [] => []
    | st :: rest =>
        fold_left (fun ns s => childStep s ns) rest
                  (List.filter (stepMatches st) (descendants top))
    end
  else
    fold_left (fun ns s => childStep s ns)
              (map parseStep (Split expr (str "/"))) [top].

#[export] Instance xmlTree : XmlQuery node :=
  {| Find := find; InnerText := innerText; Attr := attrsOf |}.

(** Builders for the documents of the examples. *)
Definition elem (name : string) (cs : list node) : node := Element (str name) [] cs.
Definition leaf (name value : string) : node := elem name [Text (str value)].
Definition part (ty : gostring) (cs : list node) : node :=
  Element (str "Part") [(str "type", ty)] cs.
Definition property (name value : string) : node :=
  elem "Property" [leaf "Name" name; leaf "Value" value].
Definition variable (name : string) (props : list node) : node :=
  Element (str "Variable") [(str "Name", str name)] [elem "Properties" props].

End XmlTree.

#[global] Existing Instance XmlTree.xmlTree.

(** ** Worked documents *)

Module Examples.
Import XmlTree.

(** An object whose rules part holds a comment line only. *)
Definition commentOnly : node :=
  elem "Object" [part GXPartRules [leaf "Source" "// Parm(in:&X);"]].



Definition userIdVariable : node :=
  variable "UserID"
    [property "IsParm" "True"; property "Name" "UserID";
     property "ATTCUSTOMTYPE" "bas:Numeric";
     property "Description" "User identifier"].

(** The same rules part, and a variable flagged IsParm. *)
Definition commentWithVariable : node :=
  elem "Object"
    [part GXPartRules [leaf "Source" "// Parm(in:&X);"];
     part GXPartVariables [userIdVariable]].

(** Decoded Procedure objects: one without an annotation comment, one with an
    annotation comment that declares no parameter. *)
Definition plainProcedure : GXObjectXML.t :=
  GXObjectXML.mk (str "GetUser") GXTypeProcedure [] [] []
    [GXPart.mk GXPartSourceCode (str "&User.Load(&UserID)") [];
     GXPart.mk GXPartRules (str "Parm(in:&UserID);") [];
     GXPart.mk GXPartVariables []
       [GXVariable.mk (str "UserID")
          [GXProperty2.mk (str "ATTCUSTOMTYPE") (str "bas:Numeric")]]].

Definition annotatedProcedure : GXObjectXML.t :=
  GXObjectXML.mk (str "GetUser") GXTypeProcedure [] [] []
    [GXPart.mk GXPartSourceCode (str "/** @summary Get User */ &User.Load(&UserID)") [];
     GXPart.mk GXPartRules (str "Parm(in:&UserID);") [];
     GXPart.mk GXPartVariables []
       [GXVariable.mk (str "UserID")
          [GXProperty2.mk (str "ATTCUSTOMTYPE") (str "bas:Numeric")]]].

End Examples.

(** * Specification vocabulary *)

(** A string carries no outer white space when neither its first nor its
    last byte is a space. *)
Definition NoOuterSpace (s : gostring) : Prop :=
  (forall c, head s = Some c -> isSpace c = false) /\
  (forall c, last s = Some c -> isSpace c = false).

(** What enrichment may do to a parameter [p], giving [q]: the name and the
    direction stay, and a field that is not empty stays. *)
Definition Enriched (p q : ParameterDoc.t) : Prop :=
  ParameterDoc.Name q = ParameterDoc.Name p /\
  ParameterDoc.Direction q = ParameterDoc.Direction p /\
  (ParameterDoc.Type_ p <> [] -> ParameterDoc.Type_ q = ParameterDoc.Type_ p) /\
  (ParameterDoc.Description p <> [] ->
   ParameterDoc.Description q = ParameterDoc.Description p).

(** [s] is [a], then the first occurrence of [sep], then [b]. *)
Definition FirstSplit (sep s a b : gostring) : Prop :=
  s = a ++ sep ++ b /\
  forall a' b', s = a' ++ sep ++ b' -> length a <= length a'.

(** [sep] does not occur in [s]. *)
Definition NoOccurrence (sep s : gostring) : Prop :=
  forall a b, s <> a ++ sep ++ b.

(** The words a pattern accepts, with the captures it records: [Sem r bef w
    aft c c'] says that [r] accepts [w] when [bef] (most recent byte first)
    precedes it and [aft] follows it, turning the captures [c] into [c']. *)
Inductive Sem : re -> gostring -> gostring -> gostring -> caps -> caps -> Prop :=
| Sem_Eps bef aft c : Sem Eps bef [] aft c c
| Sem_Chr p x bef aft c : p x = true -> Sem (Chr p) bef [x] aft c c
| Sem_Seq a b bef w1 w2 aft c c1 c2 :
    Sem a bef w1 (w2 ++ aft) c c1 ->
    Sem b (reverse w1 ++ bef) w2 aft c1 c2 ->
    Sem (Seq a b) bef (w1 ++ w2) aft c c2
| Sem_AltL a b bef w aft c c' : Sem a bef w aft c c' -> Sem (Alt a b) bef w aft c c'
| Sem_AltR a b bef w aft c c' : Sem b bef w aft c c' -> Sem (Alt a b) bef w aft c c'
| Sem_Star g p bef w aft c : forallb p w = true -> Sem (Star g p) bef w aft c c
| Sem_Group i a bef w aft c c' :
    Sem a bef w aft c c' ->
    Sem (Group i a) bef w aft c ((i, (length bef, length (reverse w ++ bef))) :: c')
| Sem_Bot aft c : Sem Bot [] [] aft c c
| Sem_Eot bef c : Sem Eot bef [] [] c c
| Sem_WordB bef aft c :
    xorb (wordAt bef) (wordAt aft) = true -> Sem WordB bef [] aft c c.

(** The source holds an annotation block: "/**", then "*/" later on. *)
Definition HasAnnotationBlock (source : gostring) : Prop :=
  exists pre body post, source = pre ++ str "/**" ++ body ++ str "*/" ++ post.

(** A line of a rules source is a comment line when, trimmed, it starts
    with the marker "//". *)
Definition IsCommentLine (line : gostring) : Prop :=
  str "//" `prefix_of` TrimSpace line.

(** [text] holds a parm call right after [pre]: the word parm in any case,
    optional white space, and the argument text [args] in parentheses,
    [args] running up to the first closing parenthesis on the same line. *)
Definition ParmCallAt (text pre args : gostring) : Prop :=
  exists kw ws post,
    text = pre ++ kw ++ ws ++ str "(" ++ args ++ str ")" ++ post /\
    ToLower kw = str "parm" /\
    forallb reSpace ws = true /\
    forallb dot args = true /\
    ")"%char ∉ args.

Definition HasParmCall (text : gostring) : Prop :=
  exists pre args, ParmCallAt text pre args.

(** The rules source after the comment lines are filtered out. *)
Definition stripComments (source : gostring) : gostring :=
  Join (activeLines source) newline.

Section ObjectVocabulary.
Context {Node : Type} `{XmlQuery Node}.

(** The text of the rules part of an object; empty when there is none. *)
Definition RulesSource (objNode : Node) : gostring :=
  GetText objNode (str "//Part[@type='" ++ GXPartRules ++ str "']/Source").

(** The variable entries of the variables part of an object. *)
Definition VariableNodes (objNode : Node) : list Node :=
  match FindOne objNode (str "//Part[@type='" ++ GXPartVariables ++ str "']") with
  | Some variablesPart => Find variablesPart (str "//Variable")
  | None => []
  end.

(** A variable entry qualifies as a parameter when its IsParm property is
    true and its Name property is not empty. *)
Definition Qualifies (varNode : Node) : Prop :=
  isParm (scanVariable varNode) = true /\ name (scanVariable varNode) <> [].

End ObjectVocabulary.

(** A direction keyword: in, out or inout, in any case. *)
Definition IsDirection (d : gostring) : Prop :=
  In (ToLower d) [str "in"; str "out"; str "inout"].

(** The pattern [direction:&name] of one argument segment: a direction
    keyword, optional white space around the colon, the sigil, and the text
    [nm] after the sigil, which is not empty. *)
Definition SegmentPattern (seg d nm : gostring) : Prop :=
  exists w1 w2,
    seg = d ++ w1 ++ str ":" ++ w2 ++ str "&" ++ nm /\
    IsDirection d /\
    forallb reSpace w1 = true /\
    forallb reSpace w2 = true /\
    nm <> [] /\
    forallb dot nm = true.

(** The parameters a list of argument segments stands for: one per segment
    whose trimmed text has the pattern, in order; the other segments are
    passed over. *)
Inductive ParamsOf : list gostring -> list ParameterDoc.t -> Prop :=
| ParamsOf_nil : ParamsOf [] []
| ParamsOf_match seg segs d nm ps :
    SegmentPattern (TrimSpace seg) d nm ->
    ParamsOf segs ps ->
    ParamsOf (seg :: segs) (ParameterDoc.mk (TrimSpace nm) (ToUpper d) [] [] :: ps)
| ParamsOf_drop seg segs ps :
    (forall d nm, ~ SegmentPattern (TrimSpace seg) d nm) ->
    ParamsOf segs ps ->
    ParamsOf (seg :: segs) ps.

(** [args] is the argument text of the first parm call of [text]. *)
Definition FirstParmCall (text args : gostring) : Prop :=
  exists pre,
    ParmCallAt text pre args /\
    forall pre' args', ParmCallAt text pre' args' -> length pre <= length pre'.

(** The bytes a direction keyword can be made of: neither white space nor a
    colon. *)
Definition keywordByte (x : ascii) : bool :=
  negb (reSpace x) && negb (bool_decide (x = ":"%char)).

(** The captures [paramRegex] records on a segment of the pattern. *)
Definition segmentCaps (d w1 w2 nm : gostring) : caps :=
  [(2, (length (d ++ w1 ++ str ":" ++ w2 ++ str "&"),
        length (d ++ w1 ++ str ":" ++ w2 ++ str "&" ++ nm)));
   (1, (0, length d))].




(** * Further code and vocabulary *)


(** The value a block line gives to the tag [tag]: the line, trimmed, is the
    tag alone (the value is empty) or the tag, a space and the value. *)
Definition tagValue (tag line : gostring) : option gostring :=
  let line := TrimSpace line in
  if bool_decide (line = tag) then Some []
  else if HasPrefix line (tag ++ str " ")
       then Some (TrimSpace (drop (S (length tag)) line))
       else None.

(** The values the lines of a block give to a tag, in order. *)
Definition tagValues (tag : gostring) (lines : list gostring) : list gostring :=
  omap (tagValue tag) lines.

(** The last value, the empty string when there is none. *)
Definition lastValue (values : list gostring) : gostring := default [] (last values).

(** A token: not empty and free of white space. *)
Definition IsToken (t : gostring) : Prop :=
  t <> [] /\ forallb (fun c => negb (isSpace c)) t = true.

(** A parameter record as an annotation gives it. *)
Definition AnnotatedParameter (p : ParameterDoc.t) : Prop :=
  IsToken (ParameterDoc.Name p) /\
  In (ParameterDoc.Direction p) [str "IN"; str "OUT"; str "INOUT"] /\
  (ParameterDoc.Type_ p = [] \/ IsToken (ParameterDoc.Type_ p)) /\
  NoOuterSpace (ParameterDoc.Description p).

(** The text of an annotation block, and a source that holds it as its first
    block, with a second block after it. *)
Definition annotatedCore : gostring :=
  str "* @package  Sales/Orders " ++ newline ++
  str " * @summary Draft" ++ newline ++
  str " * @summary Places an order" ++ newline ++
  str " * free text" ++ newline ++
  str " * @param OrderId IN Numeric - The order" ++ newline ++
  str " * @param Data sdtOrder" ++ newline ++
  str " * @tag billing" ++ newline ++
  str " * @deprecated".

Definition annotatedSource : gostring :=
  (str "// header" ++ newline) ++ str "/**" ++
  ((newline ++ str " ") ++ annotatedCore ++ (newline ++ str " ")) ++ str "*/" ++
  (newline ++ str "&x = 1 /** @summary other */").

(** An entry of the export file is a Procedure entry when its type is the
    Procedure GUID. *)
Definition IsProcedureEntry (obj : GXObjectXML.t) : Prop :=
  GXObjectXML.Type_ obj = GXTypeProcedure.

(** The object a Procedure entry stands for. *)
Definition procedureObject (obj : GXObjectXML.t) : GXObject.t :=
  GXObject.mk
    (if bool_decide (GXObjectXML.Description obj = [])
     then GXObjectXML.Name obj else GXObjectXML.Description obj)
    (str "Procedure")
    (GXObjectXML.Name obj)
    (XpzExport.procedureParts obj).1.1
    (XpzExport.procedureParts obj).1.2
    (GXObjectXML.Description obj)
    (XpzExport.procedureParts obj).2.

(** The first Procedure entry of each name: [entries = before ++ obj :: _]
    and no Procedure entry of [before] has the name of [obj]. *)
Definition FirstOfItsName (entries : list GXObjectXML.t) (obj : GXObjectXML.t) : Prop :=
  IsProcedureEntry obj /\
  exists before after,
    entries = before ++ obj :: after /\
    forall obj', obj' ∈ before -> IsProcedureEntry obj' ->
                 GXObjectXML.Name obj' <> GXObjectXML.Name obj.

(** The Procedure entries kept when the names in [seen] are taken. *)
Fixpoint keptEntries (seen : gset gostring) (entries : list GXObjectXML.t)
    : list GXObjectXML.t :=
  match entries with
  | [] => []
  | obj :: rest =>
      if decide (GXObjectXML.Type_ obj = GXTypeProcedure) then
        if decide (GXObjectXML.Name obj ∈ seen) then keptEntries seen rest
        else obj :: keptEntries ({[GXObjectXML.Name obj]} ∪ seen) rest
      else keptEntries seen rest
  end.

(** The keys of the map of seen objects are the names taken. *)
Definition Tracks (seen : gmap gostring bool) (names : gset gostring) : Prop :=
  forall name,
    default false (seen !! (name ++ str "|" ++ GXTypeProcedure)) = true <-> name ∈ names.


Section VariableVocabulary.
Context {Node : Type} `{XmlQuery Node}.

(** The parameter a qualifying variable entry stands for. *)
Definition variableParameter (varNode : Node) : ParameterDoc.t :=
  let st := scanVariable varNode in
  ParameterDoc.mk (name st) (str "IN") (varType st) (description st).

(** [Qualifies], as a test. *)
Definition qualifies (varNode : Node) : bool :=
  isParm (scanVariable varNode) && negb (bool_decide (name (scanVariable varNode) = [])).

(** The metadata of a variable entry. *)
Definition variableMeta (varNode : Node) : varMeta :=
  fold_left metaProperty (Find varNode (str "Properties/Property")) (mkMeta [] []).

End VariableVocabulary.

(** The information the struct-decoding version reads from a variable. *)
Definition variableInfo (v : GXVariable.t) : XpzExport.varInfo :=
  fold_left XpzExport.infoProperty (GXVariable.Properties v) (XpzExport.mkInfo [] []).

Module Samples.
Import XmlTree.

(** Two variables of one name: the later one shadows the earlier one. *)
Definition numericId : node := variable "Id" [property "ATTCUSTOMTYPE" "bas:Numeric"].
Definition characterId : node :=
  variable "Id" [property "ATTCUSTOMTYPE" "bas:Character"; property "Description" "Key"].
Definition shadowedVariable : node :=
  elem "Object" [part GXPartVariables [numericId; characterId]].

End Samples.

(** An identifier: letters, digits and underscores, not empty. *)
Definition IsIdentifier (s : gostring) : Prop :=
  s <> [] /\ forallb isWordChar s = true.

(** One declared parameter of a parm call: the direction keyword, the white
    space before and after the colon, and the name. *)
Record declaration := mkDecl {
  declDirection : gostring;
  declBeforeColon : gostring;
  declAfterColon : gostring;
  declName : gostring;
}.

Definition declText (p : declaration) : gostring :=
  declDirection p ++ declBeforeColon p ++ str ":" ++ declAfterColon p
  ++ str "&" ++ declName p.

Definition WellFormedDecl (p : declaration) : Prop :=
  IsDirection (declDirection p) /\
  forallb reSpace (declBeforeColon p) = true /\
  forallb reSpace (declAfterColon p) = true /\
  IsIdentifier (declName p).

(** The argument text of a call: the first declaration, then each further
    declaration after a comma and white space. *)
Definition moreArguments (rest : list (gostring * declaration)) : gostring :=
  flat_map (fun wp => str "," ++ fst wp ++ declText (snd wp)) rest.

Definition argumentText (first : declaration) (rest : list (gostring * declaration))
    : gostring :=
  declText first ++ moreArguments rest.

(** The direction the normalising pass writes for a keyword: "in" for in and
    for inout, "out" for out. *)
Definition writtenDirection (d : gostring) : gostring :=
  if HasPrefix (ToLower d) (str "in") then str "in" else str "out".

Definition writtenDecl (p : declaration) : gostring :=
  writtenDirection (declDirection p) ++ str ":&" ++ declName p.

Definition declParameter (p : declaration) : ParameterDoc.t :=
  ParameterDoc.mk (declName p) (ToUpper (declDirection p)) [] [].

(** Letters and white space: the bytes a match of [directionRegex] is made
    of before its colon. *)
Definition letterOrSpace (x : ascii) : bool :=
  isLowerLetter (toLowerChar x) || reSpace x.

(** The text of a declaration from its colon on, and the forms the passes
    turn a declaration into: after the direction pass, and after the colon
    pass. *)
Definition afterColon (p : declaration) : gostring :=
  declAfterColon p ++ str "&" ++ declName p.

Definition declDirected (p : declaration) : gostring :=
  writtenDirection (declDirection p) ++ str ":" ++ afterColon p.

Definition moreDirected (rest : list (gostring * declaration)) : gostring :=
  flat_map (fun wp => str "," ++ fst wp ++ declDirected (snd wp)) rest.

Definition moreWritten (rest : list (gostring * declaration)) : gostring :=
  flat_map (fun wp => str "," ++ fst wp ++ writtenDecl (snd wp)) rest.

Definition moreCanonical (rest : list (gostring * declaration)) : gostring :=
  flat_map (fun wp => str ", " ++ writtenDecl (snd wp)) rest.

(** The replacement of the direction pass for the match at [b..e] of
    [src]. *)
Definition directionRepl (src : gostring) : nat -> nat -> caps -> gostring :=
  fun b e _ => ToLower (FindString directionMatch (slice src b e)) ++ str ":".

Definition WellFormedMore (rest : list (gostring * declaration)) : Prop :=
  Forall (fun wp => forallb reSpace (fst wp) = true /\ WellFormedDecl (snd wp)) rest.

(** ** More of Go's [strings] *)

Module GoText.

Fixpoint replaceAllFuel (n : nat) (s old new : gostring) : gostring :=
  match n with
  | 0 => s
  | S n' =>
      match Cut s old with
      | Some (a, b) => a ++ new ++ replaceAllFuel n' b old new
      | None => s
      end
  end.

(** [strings.ReplaceAll] for a non-empty [old] (the program only replaces
    one-byte strings); every cut removes at least one byte, so [length s]
    rounds are enough. *)
Definition ReplaceAll (s old new : gostring) : gostring :=
  replaceAllFuel (length s) s old new.

End GoText.
Export GoText.

(** ** internal/generator/generator.go *)

Module Generator.

(** The bytes that [sanitizePackageName] replaces: slash, backslash, colon,
    star, question mark, double quote, angle brackets and bar. *)
Definition backslash : gostring := ["092"%char].
Definition doubleQuote : gostring := ["034"%char].

(** [sanitizePackageName] ensures package names are safe for use as
    filenames. *)
Definition sanitizePackageName (pkg : gostring) : gostring :=
  if bool_decide (pkg = []) then str "root"
  else
    (* Replace characters that are unsafe for filenames *)
    let pkg := ReplaceAll pkg (str "/") (str "-") in
    let pkg := ReplaceAll pkg backslash (str "-") in
    let pkg := ReplaceAll pkg (str ":") (str "-") in
    let pkg := ReplaceAll pkg (str "*") (str "-") in
    let pkg := ReplaceAll pkg (str "?") (str "-") in
    let pkg := ReplaceAll pkg doubleQuote (str "-") in
    let pkg := ReplaceAll pkg (str "<") (str "-") in
    let pkg := ReplaceAll pkg (str ">") (str "-") in
    let pkg := ReplaceAll pkg (str "|") (str "-") in
    TrimSpace pkg.

(** The first loop of [generatePackageIndexes]: procedures grouped by
    package; [packageMap[pkg] = append(packageMap[pkg], proc)]. *)
Definition indexPackage (proc : GXObject.t) : gostring :=
  match GXObject.Documentation proc with
  | Some doc =>
      if bool_decide (DocComment.Package doc = []) then str "root"
      else sanitizePackageName (DocComment.Package doc)
  | None => str "root"
  end.

Definition addToPackage (packageMap : gmap gostring (list GXObject.t))
    (proc : GXObject.t) : gmap gostring (list GXObject.t) :=
  let pkg := indexPackage proc in
  <[pkg := default [] (packageMap !! pkg) ++ [proc]]> packageMap.

Definition groupByPackage (procedures : list GXObject.t)
    : gmap gostring (list GXObject.t) :=
  fold_left addToPackage procedures ∅.

(** The loop of [generateReadme] that counts the objects by type;
    [typeCount[objType]++]. *)
Definition countType (typeCount : gmap gostring nat) (obj : GXObject.t)
    : gmap gostring nat :=
  let objType :=
    if bool_decide (GXObject.Type_ obj = []) then str "Unknown" else GXObject.Type_ obj in
  <[objType := S (default 0 (typeCount !! objType))]> typeCount.

Definition typeCounts (objects : list GXObject.t) : gmap gostring nat :=
  fold_left countType objects ∅.

(** The loop of [generateReadme] that counts the documented procedures by
    package; [packageMap[pkg]++]. *)
Definition countPackage (packageMap : gmap gostring nat) (proc : GXObject.t)
    : gmap gostring nat :=
  match GXObject.Documentation proc with
  | Some doc =>
      let pkg := sanitizePackageName (DocComment.Package doc) in
      <[pkg := S (default 0 (packageMap !! pkg))]> packageMap
  | None => packageMap
  end.

Definition packageCounts (procedures : list GXObject.t) : gmap gostring nat :=
  fold_left countPackage procedures ∅.

(** The first loop of [GenerateDocs]: Procedures apart from other objects,
    and the number of procedures without documentation. *)
Definition partitionObjects (objects : list GXObject.t)
    : list GXObject.t * list GXObject.t * nat :=
  fold_left
    (fun '(procedures, otherObjects, undocumentedCount) obj =>
       if bool_decide (GXObject.Type_ obj = str "Procedure") then
         (procedures ++ [obj], otherObjects,
          match GXObject.Documentation obj with
          | Some _ => undocumentedCount
          | None => S undocumentedCount
          end)
       else (procedures, otherObjects ++ [obj], undocumentedCount))
    objects ([], [], 0).

End Generator.

(** The bytes [sanitizePackageName] takes out of a package name. *)
Definition unsafeBytes : list ascii :=
  ["/"%char; "092"%char; ":"%char; "*"%char; "?"%char; "034"%char; "<"%char; ">"%char;
   "|"%char].

(** A package name with each unsafe byte replaced by a dash. *)
Definition dashed (pkg : gostring) : gostring :=
  map (fun x => if bool_decide (x ∈ unsafeBytes) then "-"%char else x) pkg.

(** The type an object is listed under in the statistics of the README. *)
Definition shownType (obj : GXObject.t) : gostring :=
  if bool_decide (GXObject.Type_ obj = []) then str "Unknown" else GXObject.Type_ obj.

Definition IsProcedure (obj : GXObject.t) : Prop := GXObject.Type_ obj = str "Procedure".

Definition Documented (obj : GXObject.t) : Prop := is_Some (GXObject.Documentation obj).

(** The sum of the counts of a table. *)
Definition total (m : gmap gostring nat) : nat := map_fold (fun _ n acc => n + acc) 0 m.

(** The number of entries of a list with a property, as a table entry: a key
    is only there once it has been counted. *)
Definition counted {A} (P : A -> Prop) `{forall x, Decision (P x)} (l : list A) : option nat :=
  match length (filter P l) with 0 => None | n => Some n end.

(** The entries of a list with a property, as a group of a table. *)
Definition grouped {A} (P : A -> Prop) `{forall x, Decision (P x)} (l : list A)
    : option (list A) :=
  match filter P l with [] => None | g => Some g end.

(** * Properties *)

(** ** Facts about the string library *)

Section StringFacts.
Implicit Types s t p sep : gostring.

Lemma HasPrefix_spec s p : HasPrefix s p = true <-> p `prefix_of` s.
Proof.
  revert s; induction p as [|a p IH]; intros s; simpl.
  - split; [intros _; apply prefix_nil | done].
  - destruct s as [|b s]; [split; [done | intros [k Hk]; discriminate] |].
    destruct (decide (a = b)) as [->|Hne].
    + rewrite IH. split; [apply prefix_cons | apply prefix_cons_inv_2].
    + split; [done | intros Hp%prefix_cons_inv_1; congruence].
Qed.

Lemma HasPrefix_app p s : HasPrefix (p ++ s) p = true.
Proof. apply HasPrefix_spec. by exists s. Qed.

Lemma HasPrefix_nil_r s : HasPrefix s [] = true.
Proof. by destruct s. Qed.


Lemma dropSpaces_head s c : head (dropSpaces s) = Some c -> isSpace c = false.
Proof.
  induction s as [|a s IH]; simpl; [done|].
  destruct (isSpace a) eqn:E; [done|]. simpl. by intros [= <-].
Qed.

Lemma dropSpaces_id s :
  (forall c, head s = Some c -> isSpace c = false) -> dropSpaces s = s.
Proof. destruct s as [|a s]; simpl; [done|]. intros Hh. by rewrite (Hh a). Qed.

Lemma dropSpaces_suffix s : dropSpaces s `suffix_of` s.
Proof.
  induction s as [|a s IH]; simpl; [done|].
  destruct (isSpace a); [by apply suffix_cons_r | done].
Qed.



Lemma dropSpaces_nil_inv s : dropSpaces s = [] -> forallb isSpace s = true.
Proof.
  induction s as [|a s IH]; simpl; [done|].
  destruct (isSpace a); [auto | done].
Qed.



Lemma TrimSpace_id s : NoOuterSpace s -> TrimSpace s = s.
Proof.
  intros [Hh Hl]. unfold TrimSpace. rewrite (dropSpaces_id s) by done.
  rewrite dropSpaces_id; [apply reverse_involutive|].
  intros c. rewrite head_reverse. apply Hl.
Qed.

Lemma TrimSpace_NoOuterSpace s : NoOuterSpace (TrimSpace s).
Proof.
  split; intros c.
  - unfold TrimSpace. intros Hc.
    destruct (dropSpaces_suffix (reverse (dropSpaces s))) as [k Hk].
    remember (dropSpaces (reverse (dropSpaces s))) as u eqn:Hu.
    destruct (decide (u = [])) as [->|Hne]; [done|].
    assert (Hd : dropSpaces s = reverse u ++ reverse k).
    { rewrite <- reverse_app, <- Hk. by rewrite reverse_involutive. }
    assert (Hc' : head (dropSpaces s) = Some c).
    { rewrite Hd. destruct (reverse u) eqn:E; [|done].
      apply (f_equal reverse) in E. rewrite reverse_involutive in E. done. }
    by apply dropSpaces_head in Hc'.
  - unfold TrimSpace. rewrite last_reverse. apply dropSpaces_head.
Qed.


Lemma TrimSpace_idemp s : TrimSpace (TrimSpace s) = TrimSpace s.
Proof. apply TrimSpace_id, TrimSpace_NoOuterSpace. Qed.

Lemma TrimSpace_nil : TrimSpace [] = [].
Proof. done. Qed.

Lemma Cut_Some s sep a b : Cut s sep = Some (a, b) -> s = a ++ sep ++ b.
Proof.
  revert a b; induction s as [|c s IH]; intros a b; simpl.
  - destruct (HasPrefix [] sep) eqn:E; [|done].
    intros [= <- <-]. apply HasPrefix_spec in E as [k Hk].
    destruct sep; [done | discriminate].
  - destruct (HasPrefix (c :: s) sep) eqn:E.
    + intros [= <- <-]. apply HasPrefix_spec in E as [k Hk].
      rewrite Hk at 1. simpl. f_equal. by rewrite Hk, drop_app_length.
    + destruct (Cut s sep) as [[a' b']|] eqn:Ec; [|done].
      intros [= <- <-]. simpl. f_equal. by apply IH.
Qed.

Lemma Cut_None s sep a b : Cut s sep = None -> s <> a ++ sep ++ b.
Proof.
  revert a; induction s as [|c s IH]; intros a; simpl.
  - destruct (HasPrefix [] sep) eqn:E; [done|]. intros _ Heq.
    destruct a; [|done]. destruct sep; [done | discriminate].
  - destruct (HasPrefix (c :: s) sep) eqn:E; [done|].
    destruct (Cut s sep) as [[a' b']|] eqn:Ec; [done|]. intros _ Heq.
    destruct a as [|x a]; simpl in Heq.
    + rewrite Heq, HasPrefix_app in E. done.
    + injection Heq as -> Heq. by eapply IH.
Qed.

(** [Cut] stops at the first occurrence: no occurrence starts earlier. *)
Lemma Cut_first s sep a b a' b' :
  Cut s sep = Some (a, b) -> s = a' ++ sep ++ b' -> length a <= length a'.
Proof.
  revert a a'; induction s as [|c s IH]; intros a a'; simpl.
  - destruct (HasPrefix [] sep); [|done]. intros [= <- <-] _. simpl. lia.
  - destruct (HasPrefix (c :: s) sep) eqn:E.
    + intros [= <- <-] _. simpl. lia.
    + destruct (Cut s sep) as [[a1 b1]|] eqn:Ec; [|done].
      intros [= <- <-] Heq. destruct a' as [|x a']; simpl in Heq.
      * rewrite Heq, HasPrefix_app in E. done.
      * injection Heq as -> Heq. simpl. specialize (IH a1 a' eq_refl Heq). lia.
Qed.

Lemma Cut_char_Some s c a b :
  Cut s [c] = Some (a, b) -> s = a ++ c :: b /\ c ∉ a.
Proof.
  revert a; induction s as [|x s IH]; intros a; simpl; [done|].
  destruct (decide (c = x)) as [->|Hne].
  - intros [= <- <-]. split; [done | apply not_elem_of_nil].
  - destruct (Cut s [c]) as [[a' b']|] eqn:Ec; [|done].
    intros [= <- <-]. destruct (IH a' eq_refl) as [-> Hn].
    split; [done|]. rewrite not_elem_of_cons. done.
Qed.

Lemma Cut_char_None s c : Cut s [c] = None <-> c ∉ s.
Proof.
  induction s as [|x s IH]; simpl.
  - split; [intros _; apply not_elem_of_nil | done].
  - destruct (decide (c = x)) as [->|Hne].
    + split; [done | intros Hn; exfalso; apply Hn; left].
    + destruct (Cut s [c]) as [[a' b']|] eqn:Ec.
      * split; [done|]. intros Hn. apply not_elem_of_cons in Hn as [_ Hn].
        apply IH in Hn. done.
      * split; [|done]. intros _. rewrite not_elem_of_cons. split; [done|].
        by apply IH.
Qed.

Lemma Cut_char_app s c t : c ∉ s -> Cut (s ++ c :: t) [c] = Some (s, t).
Proof.
  induction s as [|x s IH]; simpl; intros Hn.
  - destruct (decide (c = c)); [|done]. done.
  - apply not_elem_of_cons in Hn as [Hne Hn].
    destruct (decide (c = x)); [done|]. by rewrite IH.
Qed.


Lemma splitFuel_enough n m s c :
  length s <= n -> length s <= m -> splitFuel n s [c] = splitFuel m s [c].
Proof.
  revert m s; induction n as [|n IH]; intros m s Hn Hm.
  - destruct s; [|simpl in Hn; lia]. by destruct m.
  - destruct m as [|m].
    + destruct s; [done | simpl in Hm; lia].
    + cbn [splitFuel]. destruct (Cut s [c]) as [[a b]|] eqn:E; [|done].
      apply Cut_char_Some in E as [E _].
      apply (f_equal length) in E. rewrite length_app in E. simpl in E.
      f_equal. apply IH; lia.
Qed.

(** The recursion equation of [Split] on a one-byte separator. *)
Lemma Split_unfold s c :
  Split s [c] =
  match Cut s [c] with
  | Some (a, b) => a :: Split b [c]
  | None => [s]
  end.
Proof.
  unfold Split. destruct s as [|x s]; [done|].
  cbn [length splitFuel].
  destruct (Cut (x :: s) [c]) as [[a b]|] eqn:E; [|done].
  apply Cut_char_Some in E as [E _]. f_equal.
  apply (f_equal length) in E. rewrite length_app in E. simpl in E.
  apply splitFuel_enough; lia.
Qed.

Lemma Split_no_sep s c : c ∉ s -> Split s [c] = [s].
Proof. intros Hn. rewrite Split_unfold. apply Cut_char_None in Hn. by rewrite Hn. Qed.

Lemma Split_app s c t : c ∉ s -> Split (s ++ c :: t) [c] = s :: Split t [c].
Proof. intros Hn. by rewrite Split_unfold, Cut_char_app. Qed.

Lemma slice_0 s n : slice s 0 n = take n s.
Proof. unfold slice. by rewrite Nat.sub_0_r. Qed.

End StringFacts.

(** ** The type normaliser *)




(** ** The resolver's result *)

Section Resolver.
Context {Node : Type} `{XmlQuery Node}.

Lemma extractFromIsParmVariables_nonempty (objNode : Node) procedureName ps :
  Signature.Parameters (extractFromIsParmVariables objNode procedureName) = Some ps ->
  ps <> [] /\
  Signature.RawSignature (extractFromIsParmVariables objNode procedureName)
  = buildRawSignature procedureName (Some ps).
Proof.
  unfold extractFromIsParmVariables.
  destruct (FindOne objNode _) as [variablesPart|]; [|done].
  destruct (len _ =? 0) eqn:E; [done|]. simpl. intros Hps. rewrite Hps in *.
  apply Nat.eqb_neq in E. split; [|done]. intros ->. by apply E.
Qed.

(** C9. [ExtractProcedureSignature] always returns a non-nil parameter
    sequence and one of the three modes; mode "None" comes with no parameter
    and the raw signature [<Name>();], mode "IsParm" with at least one
    parameter. *)
Theorem ExtractProcedureSignature_invariants (objNode : Node) (procedureName : gostring) :
  let sig := ExtractProcedureSignature objNode procedureName in
  (exists ps, Signature.Parameters sig = Some ps) /\
  (Signature.ExtractionMode sig = str "ParmRule" \/
   Signature.ExtractionMode sig = str "IsParm" \/
   Signature.ExtractionMode sig = str "None") /\
  (Signature.ExtractionMode sig = str "None" ->
   Signature.Parameters sig = Some [] /\
   Signature.RawSignature sig = procedureName ++ str "();") /\
  (Signature.ExtractionMode sig = str "IsParm" ->
   exists p ps, Signature.Parameters sig = Some (p :: ps)).
Proof.
  unfold ExtractProcedureSignature.
  destruct (is_Some_dec (Signature.Parameters (extractFromParmRule objNode procedureName)))
    as [[ps Hps]|Hnone]; simpl.
  { split; [by exists ps|]. split; [by left|]. split; intros Hm; discriminate Hm. }
  destruct (is_Some_dec (Signature.Parameters
                           (extractFromIsParmVariables objNode procedureName)))
    as [[ps Hps]|Hnone2]; simpl.
  - split; [by exists ps|]. split; [right; by left|].
    split; [intros Hm; discriminate Hm|]. intros _.
    destruct (extractFromIsParmVariables_nonempty _ _ _ Hps) as [Hne _].
    destruct ps as [|p ps]; [done|]. by exists p, ps.
  - split; [by exists []|]. split; [right; by right|].
    split; [done|]. intros Hm; discriminate Hm.
Qed.

End Resolver.

(** ** Enrichment *)

Section Enrichment.
Context {Node : Type} `{XmlQuery Node}.

Lemma enrichParam_frame varMap p :
  Enriched p (enrichParam varMap p) /\
  (varMap !! ParameterDoc.Name p = None -> enrichParam varMap p = p).
Proof.
  unfold enrichParam, Enriched. destruct p as [n d t de]; simpl.
  destruct (varMap !! n) as [meta|]; [|done].
  split; [|done].
  destruct t, de; simpl; repeat split; done.
Qed.

Lemma addVariable_fold_none (vars : list Node) (m : gmap gostring varMeta) k :
  m !! k = None ->
  (forall v, v ∈ vars -> GetAttrDirect v (str "Name") <> k) ->
  fold_left addVariable vars m !! k = None.
Proof.
  revert m; induction vars as [|v vars IH]; intros m Hm Hv; simpl; [done|].
  apply IH.
  - unfold addVariable. case_bool_decide; [done|].
    rewrite lookup_insert_ne; [done|]. apply Hv. left.
  - intros v' Hin. apply Hv. by right.
Qed.

Lemma EnrichWithVariableMetadata_frame (params : list ParameterDoc.t) (objNode : Node) :
  Forall2 Enriched params (EnrichWithVariableMetadata params objNode).
Proof.
  unfold EnrichWithVariableMetadata.
  destruct (FindOne objNode _) as [vp|].
  - apply Forall2_fmap_r, Forall_Forall2_diag, Forall_forall.
    intros p _. apply enrichParam_frame.
  - apply Forall_Forall2_diag, Forall_forall. intros [n d t de] _.
    unfold Enriched; simpl. done.
Qed.

End Enrichment.

Lemma enrichWithInfo_frame varMap p :
  Enriched p (XpzExport.enrichWithInfo varMap p) /\
  (varMap !! ParameterDoc.Name p = None -> XpzExport.enrichWithInfo varMap p = p).
Proof.
  unfold XpzExport.enrichWithInfo, Enriched. destruct p as [n d t de]; simpl.
  destruct (varMap !! n) as [info|]; [|done].
  split; [|done].
  destruct t, de; simpl; repeat split; done.
Qed.

Lemma addVariableInfo_fold_none (vars : list GXVariable.t)
    (m : gmap gostring XpzExport.varInfo) k :
  m !! k = None ->
  (forall v, v ∈ vars -> GXVariable.Name v <> k) ->
  fold_left XpzExport.addVariableInfo vars m !! k = None.
Proof.
  revert m; induction vars as [|v vars IH]; intros m Hm Hv; simpl; [done|].
  apply IH.
  - unfold XpzExport.addVariableInfo. rewrite lookup_insert_ne; [done|]. apply Hv. left.
  - intros v' Hin. apply Hv. by right.
Qed.

Lemma Enriched_refl_all (params : list ParameterDoc.t) : Forall2 Enriched params params.
Proof.
  apply Forall_Forall2_diag, Forall_forall. intros [n d t de] _.
  unfold Enriched; simpl. done.
Qed.

Lemma enrichParametersWithVariableInfo_frame params parts :
  Forall2 Enriched params (XpzExport.enrichParametersWithVariableInfo params parts).
Proof.
  unfold XpzExport.enrichParametersWithVariableInfo.
  destruct (length params =? 0); [apply Enriched_refl_all|].
  destruct (length (XpzExport.findVariables parts) =? 0); [apply Enriched_refl_all|].
  apply Forall2_fmap_r, Forall_Forall2_diag, Forall_forall.
  intros p _. apply enrichWithInfo_frame.
Qed.

(** C6. Enrichment never overwrites a non-empty field.  For both enrichers
    ([EnrichWithVariableMetadata] over the document tree and
    [enrichParametersWithVariableInfo] over the decoded parts) the result has
    one parameter per input parameter, in order, with the same name and
    direction; a non-empty type and a non-empty description are kept; and a
    parameter for which the variables part holds no variable of that name is
    returned unchanged.  In particular [enrich [p] m] is one parameter with
    the type of [p] when that type is not empty. *)
Theorem enrichment_never_overwrites :
  (forall (Node : Type) (X : XmlQuery Node) (params : list ParameterDoc.t) (objNode : Node),
     Forall2 Enriched params (EnrichWithVariableMetadata params objNode) /\
     (forall p q, ParameterDoc.Type_ p <> [] ->
        EnrichWithVariableMetadata [p] objNode = [q] ->
        ParameterDoc.Type_ q = ParameterDoc.Type_ p) /\
     (forall i p,
        params !! i = Some p ->
        (forall variablesPart v,
           FindOne objNode (str "//Part[@type='" ++ GXPartVariables ++ str "']")
             = Some variablesPart ->
           v ∈ Find variablesPart (str "//Variable") ->
           GetAttrDirect v (str "Name") <> ParameterDoc.Name p) ->
        EnrichWithVariableMetadata params objNode !! i = Some p)) /\
  (forall (params : list ParameterDoc.t) (parts : list GXPart.t),
     Forall2 Enriched params (XpzExport.enrichParametersWithVariableInfo params parts) /\
     (forall p q, ParameterDoc.Type_ p <> [] ->
        XpzExport.enrichParametersWithVariableInfo [p] parts = [q] ->
        ParameterDoc.Type_ q = ParameterDoc.Type_ p) /\
     (forall i p,
        params !! i = Some p ->
        (forall v, v ∈ XpzExport.findVariables parts ->
                   GXVariable.Name v <> ParameterDoc.Name p) ->
        XpzExport.enrichParametersWithVariableInfo params parts !! i = Some p)).
Proof.
  split.
  - intros Node X params objNode.
    split; [apply EnrichWithVariableMetadata_frame|]. split.
    + intros p q Hp Heq.
      pose proof (EnrichWithVariableMetadata_frame [p] objNode) as HF.
      rewrite Heq in HF. apply Forall2_cons_1 in HF as [(_ & _ & Ht & _) _]. auto.
    + intros i p Hi Hno. unfold EnrichWithVariableMetadata.
      destruct (FindOne objNode _) as [vp|] eqn:E; [|done].
      rewrite list_lookup_fmap, Hi. simpl. f_equal.
      apply enrichParam_frame. apply addVariable_fold_none; [done|].
      intros v Hv. by apply (Hno vp).
  - intros params parts.
    split; [apply enrichParametersWithVariableInfo_frame|]. split.
    + intros p q Hp Heq.
      pose proof (enrichParametersWithVariableInfo_frame [p] parts) as HF.
      rewrite Heq in HF. apply Forall2_cons_1 in HF as [(_ & _ & Ht & _) _]. auto.
    + intros i p Hi Hno. unfold XpzExport.enrichParametersWithVariableInfo.
      destruct (length params =? 0); [done|].
      destruct (length (XpzExport.findVariables parts) =? 0); [done|].
      rewrite list_lookup_fmap, Hi. simpl. f_equal.
      apply enrichWithInfo_frame. by apply addVariableInfo_fold_none.
Qed.

(** ** The @param grammar *)

Section ParamGrammar.
Implicit Types s t ws cur : gostring.

Lemma dropSpaces_decomp s :
  exists ws, forallb isSpace ws = true /\ s = ws ++ dropSpaces s.
Proof.
  induction s as [|c s (ws & Hws & Hs)]; [by exists []|]. simpl.
  destruct (isSpace c) eqn:E; [|by exists []].
  exists (c :: ws). simpl. rewrite E, Hws. split; [done|]. by f_equal.
Qed.

Lemma forallb_reverse (f : ascii -> bool) s :
  forallb f (reverse s) = forallb f s.
Proof.
  induction s as [|c s IH]; [done|]. rewrite reverse_cons, forallb_app, IH. simpl.
  rewrite andb_true_r. apply andb_comm.
Qed.

Lemma TrimSpace_decomp s :
  exists w1 w2, forallb isSpace w1 = true /\ forallb isSpace w2 = true /\
                s = w1 ++ TrimSpace s ++ w2.
Proof.
  destruct (dropSpaces_decomp s) as (w1 & Hw1 & Hs).
  destruct (dropSpaces_decomp (reverse (dropSpaces s))) as (w2 & Hw2 & Hr).
  exists w1, (reverse w2). split; [done|]. split; [by rewrite forallb_reverse|].
  unfold TrimSpace. rewrite <- reverse_app, <- Hr, reverse_involutive. done.
Qed.




(** The tokens [Fields] returns are not empty and hold no white space. *)
Lemma fieldsFrom_tokens s : forall cur,
  forallb (fun c => negb (isSpace c)) cur = true ->
  Forall (fun t => t <> [] /\ forallb (fun c => negb (isSpace c)) t = true)
         (fieldsFrom cur s).
Proof.
  assert (Hcur : forall c cur,
            forallb (fun c => negb (isSpace c)) (c :: cur) = true ->
            reverse (c :: cur) <> [] /\
            forallb (fun c => negb (isSpace c)) (reverse (c :: cur)) = true).
  { intros c cur Hc. split.
    - intros Hr. apply (f_equal length) in Hr. by rewrite length_reverse in Hr.
    - by rewrite forallb_reverse. }
  induction s as [|c s IH]; intros cur Hc; simpl.
  - destruct cur as [|x cur]; [constructor|]. constructor; [by apply Hcur | constructor].
  - destruct (isSpace c) eqn:E.
    + destruct cur as [|x cur]; [by apply IH|].
      constructor; [by apply Hcur | by apply IH].
    + apply IH. simpl. by rewrite E.
Qed.

Lemma Fields_tokens s :
  Forall (fun t => t <> [] /\ forallb (fun c => negb (isSpace c)) t = true) (Fields s).
Proof. by apply fieldsFrom_tokens. Qed.




(** Every text is of one of the two kinds. *)
Lemma FirstSplit_or_NoOccurrence sep s :
  (exists a b, FirstSplit sep s a b) \/ NoOccurrence sep s.
Proof.
  destruct (Cut s sep) as [[a b]|] eqn:E.
  - left. exists a, b. split; [by apply Cut_Some|]. intros a' b' Hs. by eapply Cut_first.
  - right. intros a b. by apply Cut_None.
Qed.


End ParamGrammar.


(** ** The object assembler *)

Lemma gxTypeMap_procedure :
  XpzExport.gxTypeMap !! GXTypeProcedure = Some (str "Procedure").
Proof. unfold XpzExport.gxTypeMap. apply lookup_singleton_eq. Qed.

(** C5. For a Procedure object that the loop of [parseGXExportFile] has not
    seen before, the record appended carries this documentation: when no
    annotation comment was parsed and the Parm signature yields parameters, a
    record with [IsAutoGenerated = true] whose parameters are the enriched
    parameters; when an annotation comment was parsed that declares no
    parameter and the Parm signature yields parameters, the parsed record
    with the enriched parameters as its [Parameters] and every other field
    as parsed. *)
Theorem assembler_documentation
    (objects : list GXObject.t) (seen : gmap gostring bool) (obj : GXObjectXML.t) :
  let parts := GXObjectXML.Parts obj in
  let sourceCode := XpzExport.extractProcedureSource parts in
  let resolved :=
    XpzExport.parseParmParameters
      (XpzExport.extractParmSignature parts (GXObjectXML.Name obj)) in
  let enriched := XpzExport.enrichParametersWithVariableInfo resolved parts in
  let parsed := if bool_decide (sourceCode = []) then None
                else fst (Parser.Parse sourceCode) in
  GXObjectXML.Type_ obj = GXTypeProcedure ->
  seen !! (GXObjectXML.Name obj ++ str "|" ++ GXObjectXML.Type_ obj) = None ->
  exists o,
    fst (XpzExport.addObject (objects, seen) obj) = objects ++ [o] /\
    (parsed = None -> resolved <> [] ->
     exists d, GXObject.Documentation o = Some d /\
               DocComment.IsAutoGenerated d = true /\
               DocComment.Parameters d = enriched) /\
    (forall doc, parsed = Some doc -> DocComment.Parameters doc = [] -> resolved <> [] ->
     exists d, GXObject.Documentation o = Some d /\
               DocComment.Parameters d = enriched /\
               DocComment.Package d = DocComment.Package doc /\
               DocComment.Summary d = DocComment.Summary doc /\
               DocComment.Description d = DocComment.Description doc /\
               DocComment.Author d = DocComment.Author doc /\
               DocComment.Created d = DocComment.Created doc /\
               DocComment.Return d = DocComment.Return doc /\
               DocComment.Tags d = DocComment.Tags doc /\
               DocComment.Deprecated d = DocComment.Deprecated doc /\
               DocComment.DeprecationNote d = DocComment.DeprecationNote doc /\
               DocComment.IsAutoGenerated d = DocComment.IsAutoGenerated doc).
Proof.
  intros parts sourceCode resolved enriched parsed Hty Hseen.
  unfold XpzExport.addObject. rewrite Hty in *. rewrite gxTypeMap_procedure, Hseen.
  cbn [default]. rewrite !bool_decide_eq_false_2 by (vm_compute; discriminate).
  rewrite bool_decide_eq_true_2 by done. cbn [negb].
  assert (Hsig : resolved <> [] ->
    XpzExport.extractParmSignature parts (GXObjectXML.Name obj) <> []).
  { intros Hr Hs. apply Hr. unfold resolved. by rewrite Hs. }
  unfold XpzExport.procedureParts.
  fold parts. fold sourceCode. fold resolved. fold enriched.
  assert (Hdoc :
    (if bool_decide (sourceCode = []) then None
     else match Parser.Parse sourceCode with
          | (_, Some _) => None | (doc, None) => doc end) = parsed).
  { unfold parsed. case_bool_decide; [done|]. unfold Parser.Parse.
    by case_bool_decide. }
  rewrite Hdoc. eexists; split; [reflexivity|]. cbn [GXObject.Documentation]. split.
  - intros -> Hr. rewrite bool_decide_eq_false_2 by auto.
    eexists; split; [reflexivity|]. done.
  - intros doc -> Hps Hr. rewrite Hps. cbn [length Nat.eqb andb].
    rewrite bool_decide_eq_false_2 by auto. cbn [negb].
    eexists; split; [reflexivity|]. by destruct doc.
Qed.

(** ** The matcher and the words a pattern accepts *)

Section Matcher.
Implicit Types (r : re) (bef aft w : gostring) (c : caps).

Lemma star_inv g p (k : gostring -> gostring -> outcome) bef aft res :
  star g p k bef aft = Some res ->
  exists w rest, aft = w ++ rest /\ forallb p w = true /\
                 k (reverse w ++ bef) rest = Some res.
Proof.
  revert bef; induction aft as [|x t IH]; intros bef Hs.
  - exists [], []. simpl in *. by destruct g, (k bef []).
  - assert (Hcases : k bef (x :: t) = Some res \/
                     (p x = true /\ star g p k (x :: bef) t = Some res)).
    { simpl in Hs. destruct g.
      - destruct (p x).
        + destruct (star true p k (x :: bef) t); [right|left]; done.
        + by left.
      - destruct (k bef (x :: t)); [by left|]. destruct (p x); [by right|done]. }
    destruct Hcases as [Hk|[Hp Hrec]].
    + by exists [], (x :: t).
    + destruct (IH _ Hrec) as (w & rest & -> & Hw & Hk).
      exists (x :: w), rest. simpl. rewrite Hp, Hw.
      rewrite reverse_cons, <- app_assoc. done.
Qed.

Lemma star_some g p (k : gostring -> gostring -> outcome) bef w rest :
  forallb p w = true -> is_Some (k (reverse w ++ bef) rest) ->
  is_Some (star g p k bef (w ++ rest)).
Proof.
  revert bef; induction w as [|x w IH]; intros bef Hw Hk.
  - simpl in *. destruct rest as [|y rest]; simpl.
    + destruct g, (k bef []); done.
    + destruct g.
      * destruct (p y); [|done]. by destruct (star true p k (y :: bef) rest).
      * by destruct (k bef (y :: rest)).
  - simpl in Hw. apply andb_true_iff in Hw as [Hx Hw].
    rewrite reverse_cons, <- app_assoc in Hk.
    specialize (IH (x :: bef) Hw Hk). simpl. rewrite Hx.
    destruct g.
    + by destruct (star true p k (x :: bef) (w ++ rest)).
    + by destruct (k bef (x :: w ++ rest)).
Qed.

(** Greedy repetition followed by a byte outside the class: the whole run is
    taken when the continuation accepts there. *)
Lemma star_greedy_run p (k : gostring -> gostring -> outcome) bef w rest res :
  forallb p w = true ->
  match rest with x :: _ => p x = false | [] => True end ->
  k (reverse w ++ bef) rest = Some res ->
  star true p k bef (w ++ rest) = Some res.
Proof.
  revert bef; induction w as [|x w IH]; intros bef Hw Hrest Hk.
  - simpl in *. destruct rest as [|y rest]; simpl; [by rewrite Hk|].
    by rewrite Hrest, Hk.
  - simpl in Hw. apply andb_true_iff in Hw as [Hx Hw].
    rewrite reverse_cons, <- app_assoc in Hk.
    simpl. rewrite Hx. by rewrite (IH (x :: bef) Hw Hrest Hk).
Qed.

(** Lazy repetition: the shortest run after which the continuation accepts. *)
Lemma star_lazy_first p (k : gostring -> gostring -> outcome) bef w rest :
  forallb p w = true ->
  (forall w1 x w2, w = w1 ++ x :: w2 -> k (reverse w1 ++ bef) (x :: w2 ++ rest) = None) ->
  star false p k bef (w ++ rest) = 
  match k (reverse w ++ bef) rest with
  | Some res => Some res
  | None => star false p k (reverse w ++ bef) rest
  end.
Proof.
  revert bef; induction w as [|x w IH]; intros bef Hw Hnone.
  - simpl. destruct rest; simpl; by destruct (k bef _).
  - simpl in Hw. apply andb_true_iff in Hw as [Hx Hw].
    pose proof (Hnone [] x w eq_refl) as H0. simpl in H0. simpl. rewrite H0, Hx.
    rewrite reverse_cons, <- app_assoc. apply IH; [done|].
    intros w1 y w2 ->. specialize (Hnone (x :: w1) y w2 eq_refl).
    by rewrite reverse_cons, <- app_assoc in Hnone.
Qed.

(** Whatever the matcher returns is the continuation's answer after a word
    the pattern accepts. *)
Lemma run_sound r : forall k bef aft c res,
  run r k bef aft c = Some res ->
  exists w rest c', aft = w ++ rest /\ Sem r bef w rest c c' /\
                    k (reverse w ++ bef) rest c' = Some res.
Proof.
  induction r as [|p|a IHa b IHb|a IHa b IHb|g p|i a IHa| | |];
    intros k bef aft c res Hrun; simpl in Hrun.
  - exists [], aft, c. split; [done|]. split; [constructor | done].
  - destruct aft as [|x t]; [done|]. destruct (p x) eqn:Hp; [|done].
    exists [x], t, c. split; [done|]. split; [by constructor | done].
  - apply IHa in Hrun as (w1 & rest1 & c1 & -> & Ha & Hrun).
    apply IHb in Hrun as (w2 & rest & c2 & -> & Hb & Hk).
    exists (w1 ++ w2), rest, c2. split; [by rewrite app_assoc|].
    split; [by econstructor|]. by rewrite reverse_app, <- app_assoc.
  - destruct (run a k bef aft c) eqn:Ea.
    + injection Hrun as ->. apply IHa in Ea as (w & rest & c' & -> & Ha & Hk).
      exists w, rest, c'. split; [done|]. split; [by apply Sem_AltL | done].
    + apply IHb in Hrun as (w & rest & c' & -> & Hb & Hk).
      exists w, rest, c'. split; [done|]. split; [by apply Sem_AltR | done].
  - apply star_inv in Hrun as (w & rest & -> & Hw & Hk).
    exists w, rest, c. split; [done|]. split; [by constructor | done].
  - apply IHa in Hrun as (w & rest & c' & -> & Ha & Hk).
    exists w, rest, ((i, (length bef, length (reverse w ++ bef))) :: c').
    split; [done|]. split; [by constructor | done].
  - destruct bef; [|done]. exists [], aft, c.
    split; [done|]. split; [constructor | done].
  - destruct aft; [|done]. exists [], [], c.
    split; [done|]. split; [constructor | done].
  - destruct (xorb (wordAt bef) (wordAt aft)) eqn:E; [|done].
    exists [], aft, c. split; [done|]. split; [by constructor | done].
Qed.

(** A word the pattern accepts, after which the continuation accepts, makes
    the matcher succeed (with the match of highest priority, which need not
    be this one). *)
Lemma run_some r bef w rest c c' :
  Sem r bef w rest c c' ->
  forall k, is_Some (k (reverse w ++ bef) rest c') ->
            is_Some (run r k bef (w ++ rest) c).
Proof.
  induction 1 as [bef aft c|p x bef aft c Hp|a b bef w1 w2 aft c c1 c2 Ha IHa Hb IHb
                 |a b bef w aft c c' Ha IHa|a b bef w aft c c' Hb IHb
                 |g p bef w aft c Hw|i a bef w aft c c' Ha IHa|aft c|bef c
                 |bef aft c Hx]; intros k Hk; simpl.
  - done.
  - by rewrite Hp.
  - rewrite <- app_assoc. apply IHa. apply IHb.
    by rewrite reverse_app, <- app_assoc in Hk.
  - specialize (IHa k Hk). by destruct (run a k bef (w ++ aft) c).
  - specialize (IHb k Hk). by destruct (run a k bef (w ++ aft) c).
  - by apply star_some.
  - by apply IHa.
  - done.
  - done.
  - by rewrite Hx.
Qed.

Lemma matchAt_sound r bef aft e c :
  matchAt r bef aft = Some (e, c) ->
  exists w rest, aft = w ++ rest /\ Sem r bef w rest [] c /\
                 e = length (reverse w ++ bef).
Proof.
  unfold matchAt. intros Hm. apply run_sound in Hm as (w & rest & c' & -> & HS & Hk).
  injection Hk as <- <-. by exists w, rest.
Qed.

Lemma matchAt_some r bef w rest c :
  Sem r bef w rest [] c -> is_Some (matchAt r bef (w ++ rest)).
Proof. intros HS. unfold matchAt. by eapply run_some. Qed.

Lemma matchAt_none r bef aft :
  (forall w rest c, aft = w ++ rest -> ~ Sem r bef w rest [] c) ->
  matchAt r bef aft = None.
Proof.
  intros Hno. destruct (matchAt r bef aft) as [[e c]|] eqn:E; [|done].
  apply matchAt_sound in E as (w & rest & -> & HS & _). by apply Hno in HS.
Qed.

Lemma findFrom_here r bef aft e c :
  matchAt r bef aft = Some (e, c) -> findFrom r bef aft = Some (length bef, e, c).
Proof. intros Hm. destruct aft; simpl; by rewrite Hm. Qed.

Lemma findFrom_skip r bef pre aft :
  (forall p1 x p2, pre = p1 ++ x :: p2 ->
                   matchAt r (reverse p1 ++ bef) (x :: p2 ++ aft) = None) ->
  findFrom r bef (pre ++ aft) = findFrom r (reverse pre ++ bef) aft.
Proof.
  revert bef; induction pre as [|x pre IH]; intros bef Hno; [done|].
  pose proof (Hno [] x pre eq_refl) as H0. simpl in H0. simpl. rewrite H0.
  rewrite reverse_cons, <- app_assoc. apply IH.
  intros p1 y p2 ->. specialize (Hno (x :: p1) y p2 eq_refl).
  by rewrite reverse_cons, <- app_assoc in Hno.
Qed.

Lemma findFrom_none r bef aft :
  (forall p1 p2, aft = p1 ++ p2 -> matchAt r (reverse p1 ++ bef) p2 = None) ->
  findFrom r bef aft = None.
Proof.
  revert bef; induction aft as [|x t IH]; intros bef Hno.
  - pose proof (Hno [] [] eq_refl) as H0. simpl in H0. simpl. by rewrite H0.
  - pose proof (Hno [] (x :: t) eq_refl) as H0. simpl in H0. simpl. rewrite H0.
    apply IH.
    intros p1 p2 ->. specialize (Hno (x :: p1) p2 eq_refl).
    by rewrite reverse_cons, <- app_assoc in Hno.
Qed.

End Matcher.

(** ** Literals *)

Section Literals.
Implicit Types (bef aft w s : gostring) (c : caps).

Lemma Sem_lits_inv s : forall bef w aft c c',
  Sem (lits s) bef w aft c c' -> w = s /\ c' = c.
Proof.
  induction s as [|x s IH]; intros bef w aft c c' HS.
  - by inversion HS.
  - destruct s as [|y s].
    + inversion HS as [|p x0 ? ? ? Hp| | | | | | | |]; subst.
      apply bool_decide_eq_true in Hp as ->. done.
    + simpl in HS. inversion HS as [| |a b ? w1 w2 ? ? c1 ? H1 H2| | | | | | |]; subst.
      inversion H1 as [|p x0 ? ? ? Hp| | | | | | | |]; subst.
      apply bool_decide_eq_true in Hp as ->.
      apply IH in H2 as [-> ->]. done.
Qed.

Lemma run_lits s : forall k bef aft c,
  run (lits s) k bef (s ++ aft) c = k (reverse s ++ bef) aft c.
Proof.
  induction s as [|x s IH]; intros k bef aft c; [done|].
  destruct s as [|y s].
  - simpl. unfold lit. by rewrite bool_decide_eq_true_2.
  - change (lits (x :: y :: s)) with (Seq (Chr (lit x)) (lits (y :: s))).
    cbn [run app]. unfold lit at 1. rewrite bool_decide_eq_true_2 by done.
    etrans; [apply (IH k (x :: bef) aft c)|].
    by rewrite (reverse_cons (y :: s)), <- app_assoc.
Qed.

Lemma Sem_litsI_inv s : forall bef w aft c c',
  Sem (litsI s) bef w aft c c' -> ToLower w = ToLower s /\ c' = c.
Proof.
  induction s as [|x s IH]; intros bef w aft c c' HS.
  - by inversion HS.
  - destruct s as [|y s].
    + inversion HS as [|p x0 ? ? ? Hp| | | | | | | |]; subst.
      apply bool_decide_eq_true in Hp. simpl. by rewrite Hp.
    + simpl in HS. inversion HS as [| |a b ? w1 w2 ? ? c1 ? H1 H2| | | | | | |]; subst.
      inversion H1 as [|p x0 ? ? ? Hp| | | | | | | |]; subst.
      apply bool_decide_eq_true in Hp.
      apply IH in H2 as [H2 ->]. split; [|done].
      unfold ToLower in *. simpl in *. by rewrite Hp, H2.
Qed.

Lemma run_litsI s : forall w k bef aft c,
  ToLower w = ToLower s ->
  run (litsI s) k bef (w ++ aft) c = k (reverse w ++ bef) aft c.
Proof.
  induction s as [|x s IH]; intros w k bef aft c Hw.
  - by destruct w.
  - destruct w as [|x' w]; [done|]. injection Hw as Hx Hw.
    destruct s as [|y s].
    + destruct w; [|done]. simpl. unfold litI. by rewrite bool_decide_eq_true_2.
    + change (litsI (x :: y :: s)) with (Seq (Chr (litI x)) (litsI (y :: s))).
      cbn [run app]. unfold litI at 1. rewrite bool_decide_eq_true_2 by done.
      etrans; [apply (IH w k (x' :: bef) aft c Hw)|].
      by rewrite (reverse_cons w), <- app_assoc.
Qed.

Lemma Sem_litsI s w bef aft c :
  ToLower w = ToLower s -> Sem (litsI s) bef w aft c c.
Proof.
  revert w bef; induction s as [|x s IH]; intros w bef Hw.
  - destruct w; [constructor | done].
  - destruct w as [|x' w]; [done|]. injection Hw as Hx Hw.
    destruct s as [|y s].
    + destruct w; [|done]. constructor. unfold litI. by apply bool_decide_eq_true_2.
    + change (litsI (x :: y :: s)) with (Seq (Chr (litI x)) (litsI (y :: s))).
      change (x' :: w) with ([x'] ++ w). econstructor.
      * constructor. unfold litI. by apply bool_decide_eq_true_2.
      * by apply IH.
Qed.

Lemma star_lazy_zero p (k : gostring -> gostring -> outcome) bef aft res :
  k bef aft = Some res -> star false p k bef aft = Some res.
Proof. intros Hk. destruct aft; simpl; by rewrite Hk. Qed.

Lemma slice_app_middle (a b d : gostring) :
  slice (a ++ b ++ d) (length a) (length a + length b) = b.
Proof.
  unfold slice. rewrite drop_app_length.
  replace (length a + length b - length a) with (length b) by lia.
  by rewrite take_app_length.
Qed.

Lemma slice_empty (s : gostring) n : slice s n n = [].
Proof. unfold slice. by rewrite Nat.sub_diag. Qed.

End Literals.

(** ** The annotation parser never fails *)

Lemma Sem_commentRegex_inv bef w aft c c' :
  Sem Parser.commentRegex bef w aft c c' ->
  exists body, w = str "/**" ++ body ++ str "*/".
Proof.
  unfold Parser.commentRegex. intros HS.
  inversion HS as [| |? ? ? w1 r1 ? ? ? ? H1 HS1| | | | | | |]; subst; clear HS.
  inversion HS1 as [| |? ? ? w2 r2 ? ? ? ? H2 HS2| | | | | | |]; subst; clear HS1.
  inversion HS2 as [| |? ? ? w3 r3 ? ? ? ? H3 HS3| | | | | | |]; subst; clear HS2.
  inversion HS3 as [| |? ? ? w4 r4 ? ? ? ? H4 H5| | | | | | |]; subst; clear HS3.
  apply (Sem_lits_inv (str "/**")) in H1 as [-> _].
  apply (Sem_lits_inv (str "*/")) in H5 as [-> _].
  exists (w2 ++ w3 ++ w4). by rewrite <- !app_assoc.
Qed.

Lemma extractCommentBlock_no_block (source : gostring) :
  ~ HasAnnotationBlock source -> Parser.extractCommentBlock source = [].
Proof.
  intros Hno. unfold Parser.extractCommentBlock, FindStringSubmatch.
  rewrite findFrom_none; [done|].
  intros p1 p2 ->. apply matchAt_none. intros w rest c -> HS.
  apply Sem_commentRegex_inv in HS as [body ->]. apply Hno.
  exists p1, body, rest. by rewrite <- !app_assoc.
Qed.

Lemma matchAt_commentRegex_blank bef ws post :
  forallb reSpace ws = true ->
  matchAt Parser.commentRegex bef (str "/**" ++ ws ++ str "*/" ++ post)
  = Some (length bef + 3 + length ws + 2,
          [(1, (length bef + 3 + length ws, length bef + 3 + length ws))]).
Proof.
  intros Hws. unfold matchAt, Parser.commentRegex.
  cbn [run]. rewrite run_lits. cbn [run].
  apply star_greedy_run; [done | done |].
  cbn [run]. apply star_lazy_zero.
  apply (star_greedy_run _ _ _ []); [done | done |].
  etrans; [apply (run_lits (str "*/"))|].
  rewrite !length_app, !length_reverse. simpl.
  do 2 f_equal; [lia|]. do 3 f_equal; lia.
Qed.

Lemma extractCommentBlock_blank pre ws post :
  "/"%char ∉ pre -> forallb reSpace ws = true ->
  Parser.extractCommentBlock (pre ++ str "/**" ++ ws ++ str "*/" ++ post) = [].
Proof.
  intros Hpre Hws. unfold Parser.extractCommentBlock, FindStringSubmatch.
  rewrite findFrom_skip.
  - rewrite (findFrom_here _ _ _ _ _ (matchAt_commentRegex_blank _ ws post Hws)).
    change (numSubexp Parser.commentRegex) with 1. cbn [seq map].
    unfold submatch. cbn [capLookup]. rewrite decide_True by done.
    by rewrite slice_empty.
  - intros p1 x p2 ->. apply matchAt_none. intros w rest c Heq HS.
    apply Sem_commentRegex_inv in HS as [body ->].
    injection Heq as -> _. apply Hpre, elem_of_app. right. left.
Qed.

(** C10. [Parse] returns a nil error on every input.  A source without an
    annotation block, and a source whose first block holds nothing but the
    white space of the pattern's [\s] class, give the nil document with the
    nil error; in general the document is nil exactly when
    [extractCommentBlock] returns the empty string. *)
Theorem Parse_never_fails :
  (forall source, snd (Parser.Parse source) = None) /\
  (forall source, fst (Parser.Parse source) = None <->
                  Parser.extractCommentBlock source = []) /\
  (forall source, ~ HasAnnotationBlock source ->
                  Parser.Parse source = (None, None)) /\
  (forall pre ws post,
     "/"%char ∉ pre -> forallb reSpace ws = true ->
     Parser.Parse (pre ++ str "/**" ++ ws ++ str "*/" ++ post) = (None, None)).
Proof.
  split; [|split; [|split]].
  - intros source. unfold Parser.Parse. by case_bool_decide.
  - intros source. unfold Parser.Parse. case_bool_decide; simpl; split; done.
  - intros source Hno. unfold Parser.Parse.
    by rewrite (extractCommentBlock_no_block _ Hno).
  - intros pre ws post Hpre Hws. unfold Parser.Parse.
    by rewrite (extractCommentBlock_blank _ _ _ Hpre Hws).
Qed.

(** ** Comment lines and the fallback to the IsParm strategy *)

Section CommentLines.
Implicit Types (s line : gostring) (ls : list gostring).

Lemma Join_cons2 x y ls (sep : gostring) :
  Join (x :: y :: ls) sep = x ++ sep ++ Join (y :: ls) sep.
Proof. done. Qed.

Lemma Split_Join ls c :
  ls <> [] -> Forall (fun l => c ∉ l) ls -> Split (Join ls [c]) [c] = ls.
Proof.
  induction ls as [|x ls IH]; [done|]. intros _ Hall.
  apply Forall_cons in Hall as [Hx Hall].
  destruct ls as [|y ls].
  - simpl. by apply Split_no_sep.
  - rewrite Join_cons2. simpl app. rewrite Split_app by done.
    f_equal. by apply IH.
Qed.

Lemma activeLines_Join ls :
  ls <> [] -> Forall (fun l => "010"%char ∉ l) ls ->
  activeLines (Join ls newline)
  = filter (fun line => HasPrefix (TrimSpace line) (str "//") = false) ls.
Proof. intros Hne Hall. unfold activeLines, newline. by rewrite Split_Join. Qed.

Lemma stripComments_Join ls :
  Forall (fun l => "010"%char ∉ l) ls ->
  stripComments (Join ls newline)
  = Join (filter (fun line => HasPrefix (TrimSpace line) (str "//") = false) ls) newline.
Proof.
  intros Hall. unfold stripComments. destruct ls as [|x ls]; [done|].
  by rewrite activeLines_Join.
Qed.

Lemma parseParmString_stripComments s s' procedureName :
  stripComments s = stripComments s' ->
  parseParmString s procedureName = parseParmString s' procedureName.
Proof. unfold parseParmString, stripComments. by intros ->. Qed.

Lemma activeLines_all_comments s :
  Forall IsCommentLine (Split s newline) -> activeLines s = [].
Proof.
  unfold activeLines. generalize (Split s newline). intros ls Hall.
  induction Hall as [|l ls Hl _ IH]; [done|].
  rewrite filter_cons_False; [done|].
  apply HasPrefix_spec in Hl. by rewrite Hl.
Qed.

Lemma parseParmString_all_comments s procedureName :
  Forall IsCommentLine (Split s newline) ->
  parseParmString s procedureName = Signature.zero.
Proof.
  intros Hall. unfold parseParmString. by rewrite activeLines_all_comments.
Qed.

End CommentLines.

Section Fallback.
Context {Node : Type} `{XmlQuery Node}.

Lemma isParmVariable_spec (params : option (list ParameterDoc.t)) (v : Node) :
  (Qualifies v ->
   exists p, isParmVariable params v = Some (default [] params ++ [p])) /\
  (~ Qualifies v -> isParmVariable params v = params).
Proof.
  unfold isParmVariable, Qualifies, append.
  destruct (isParm (scanVariable v)); simpl.
  - case_bool_decide as Hn; simpl.
    + split; [by intros [_ ?] | done].
    + split; [by eexists | intros Hq; exfalso; by apply Hq].
  - split; [by intros [? _] | done].
Qed.

Lemma isParmVariable_fold_none (vars : list Node) :
  (forall v, v ∈ vars -> ~ Qualifies v) ->
  fold_left isParmVariable vars None = None.
Proof.
  induction vars as [|v vars IH]; [done|]. intros Hno. simpl.
  rewrite (proj2 (isParmVariable_spec None v)) by (apply Hno; left).
  apply IH. intros v' Hv'. apply Hno. by right.
Qed.

Lemma isParmVariable_fold_some (vars : list Node) (p : ParameterDoc.t) ps :
  exists q qs, fold_left isParmVariable vars (Some (p :: ps)) = Some (q :: qs).
Proof.
  revert p ps; induction vars as [|v vars IH]; intros p ps; [by exists p, ps|].
  simpl. unfold isParmVariable at 2. unfold append.
  destruct (isParm (scanVariable v) && negb (bool_decide (name (scanVariable v) = [])));
    simpl; apply IH.
Qed.

Lemma isParmVariable_fold_qualified (vars : list Node) params :
  (exists v, v ∈ vars /\ Qualifies v) ->
  exists q qs, fold_left isParmVariable vars params = Some (q :: qs).
Proof.
  revert params; induction vars as [|v vars IH]; intros params (v0 & Hin & Hq).
  - by apply elem_of_nil in Hin.
  - simpl. apply elem_of_cons in Hin as [->|Hin].
    + destruct (proj1 (isParmVariable_spec params v) Hq) as [p ->].
      destruct (default [] params) as [|x xs]; simpl; apply isParmVariable_fold_some.
    + apply IH. by exists v0.
Qed.

Lemma extractFromIsParmVariables_none (objNode : Node) procedureName :
  (forall v, v ∈ VariableNodes objNode -> ~ Qualifies v) ->
  extractFromIsParmVariables objNode procedureName = Signature.zero.
Proof.
  unfold VariableNodes, extractFromIsParmVariables.
  destruct (FindOne objNode _) as [vp|]; [|done].
  intros Hno. by rewrite isParmVariable_fold_none.
Qed.

Lemma extractFromIsParmVariables_some (objNode : Node) procedureName :
  (exists v, v ∈ VariableNodes objNode /\ Qualifies v) ->
  is_Some (Signature.Parameters (extractFromIsParmVariables objNode procedureName)).
Proof.
  unfold VariableNodes, extractFromIsParmVariables.
  destruct (FindOne objNode _) as [vp|].
  - intros Hq. destruct (isParmVariable_fold_qualified _ None Hq) as (q & qs & ->).
    by eexists.
  - intros (v & Hin & _). by apply elem_of_nil in Hin.
Qed.

Lemma extractFromParmRule_all_comments (objNode : Node) procedureName :
  Forall IsCommentLine (Split (RulesSource objNode) newline) ->
  extractFromParmRule objNode procedureName = Signature.zero.
Proof.
  intros Hall. unfold extractFromParmRule. fold (RulesSource objNode).
  case_bool_decide; [done|]. by apply parseParmString_all_comments.
Qed.

End Fallback.

Lemma Sem_parmRegex_inv bef w aft c c' :
  Sem parmRegex bef w aft c c' ->
  exists kw ws args,
    w = kw ++ ws ++ str "(" ++ args ++ str ")" /\
    ToLower kw = str "parm" /\ forallb reSpace ws = true /\ forallb dot args = true /\
    c' = (1, (length (reverse (kw ++ ws ++ str "(") ++ bef),
              length (reverse (kw ++ ws ++ str "(" ++ args) ++ bef))) :: c.
Proof.
  unfold parmRegex. intros HS.
  inversion HS as [| |? ? ? w1 r1 ? ? ? ? H1 HS1| | | | | | |]; subst; clear HS.
  inversion HS1 as [| |? ? ? w2 r2 ? ? ? ? H2 HS2| | | | | | |]; subst; clear HS1.
  inversion HS2 as [| |? ? ? w3 r3 ? ? ? ? H3 HS3| | | | | | |]; subst; clear HS2.
  inversion HS3 as [| |? ? ? w4 r4 ? ? ? ? H4 H5| | | | | | |]; subst; clear HS3.
  apply (Sem_litsI_inv (str "parm")) in H1 as [Hkw ->].
  inversion H2 as [| | | | |? ? ? ? ? ? Hws| | | |]; subst; clear H2.
  inversion H3 as [|? x3 ? ? ? Hp3| | | | | | | |]; subst; clear H3.
  apply bool_decide_eq_true in Hp3 as ->.
  inversion H4 as [| | | | | |? ? ? ? ? ? ? HS4| | |]; subst; clear H4.
  inversion HS4 as [| | | | |? ? ? ? ? ? Hargs| | | |]; subst; clear HS4.
  inversion H5 as [|? x5 ? ? ? Hp5| | | | | | | |]; subst; clear H5.
  apply bool_decide_eq_true in Hp5 as ->.
  exists w1, w2, w4. split; [done|]. split; [done|]. split; [done|]. split; [done|].
  do 3 f_equal.
  - by rewrite !reverse_app, <- !app_assoc.
  - by rewrite !reverse_app, <- !app_assoc.
Qed.

Lemma parmRegex_no_call text :
  ~ HasParmCall text -> FindStringSubmatch parmRegex text = None.
Proof.
  intros Hno. unfold FindStringSubmatch.
  rewrite findFrom_none; [done|].
  intros p1 p2 ->. apply matchAt_none. intros w rest c -> HS.
  apply Sem_parmRegex_inv in HS as (kw & ws & args & -> & Hkw & Hws & Hargs & _).
  apply Hno. destruct (decide (")"%char ∈ args)) as [Hin|Hnin].
  - apply list_elem_of_split_l in Hin as (a1 & a2 & -> & Hn1).
    rewrite forallb_app in Hargs. apply andb_true_iff in Hargs as [Ha1 _].
    exists p1, a1, kw, ws, (a2 ++ str ")" ++ rest).
    split; [|done]. by rewrite <- !app_assoc.
  - exists p1, args, kw, ws, rest. split; [|done]. by rewrite <- !app_assoc.
Qed.

(** C8. Comment lines of a rules source contribute nothing: deleting a
    comment line from the source never changes what [parseParmString]
    returns; an object whose rules source consists of comment lines only and
    which has no qualifying IsParm variable resolves to mode "None" with no
    parameter; so does the object whose rules source is the single line
    [// Parm(in:&X);]. *)
Theorem comment_lines_contribute_nothing :
  (forall (before after : list gostring) (line procedureName : gostring),
     IsCommentLine line ->
     Forall (fun l => "010"%char ∉ l) (before ++ line :: after) ->
     parseParmString (Join (before ++ line :: after) newline) procedureName
     = parseParmString (Join (before ++ after) newline) procedureName) /\
  (forall (Node : Type) (X : XmlQuery Node) (objNode : Node) (procedureName : gostring),
     Forall IsCommentLine (Split (RulesSource objNode) newline) ->
     (forall v, v ∈ VariableNodes objNode -> ~ Qualifies v) ->
     ExtractProcedureSignature objNode procedureName
     = Signature.mk (Some []) (procedureName ++ str "();") (str "None")) /\
  Signature.ExtractionMode (ExtractProcedureSignature Examples.commentOnly (str "P"))
  = str "None".
Proof.
  split; [|split].
  - intros before after line procedureName Hline Hall.
    apply parseParmString_stripComments.
    rewrite !stripComments_Join.
    + rewrite !filter_app, filter_cons_False; [done|].
      apply HasPrefix_spec in Hline. by rewrite Hline.
    + apply Forall_app in Hall as [Hb Ha]. apply Forall_cons in Ha as [_ Ha].
      by apply Forall_app.
    + done.
  - intros Node X objNode procedureName Hall Hvars.
    unfold ExtractProcedureSignature.
    rewrite extractFromParmRule_all_comments by done.
    rewrite extractFromIsParmVariables_none by done. done.
  - vm_compute. reflexivity.
Qed.

(** C2, as stated, fails: the rules source of this object is present and
    holds no parm call once its comment line is filtered out, yet the
    resolver goes on to the IsParm strategy and answers from it. *)
Lemma IsParm_reached_without_parm_match :
  RulesSource Examples.commentWithVariable = str "// Parm(in:&X);" /\
  FindStringSubmatch parmRegex (stripComments (RulesSource Examples.commentWithVariable))
  = None /\
  ExtractProcedureSignature Examples.commentWithVariable (str "GetUser")
  = Signature.mk
      (Some [ParameterDoc.mk (str "UserID") (str "IN") (str "Numeric")
                             (str "User identifier")])
      (str "GetUser(in:&UserID);") (str "IsParm").
Proof. repeat split; vm_compute; reflexivity. Qed.

Section FallbackOrder.
Context {Node : Type} `{XmlQuery Node}.

(** C2 (amended). The IsParm-variable strategy is attempted whenever the
    ParmRule strategy returns no parameter list, and only then.  The
    ParmRule strategy returns none when the rules source is absent or empty
    and when, comment lines filtered out, it holds no parm call; the
    resolver then answers in mode "IsParm" if a variable qualifies and in
    mode "None" otherwise.  When the ParmRule strategy returns a parameter
    list, the answer is that signature in mode "ParmRule" whatever the
    variables are. *)
Theorem IsParm_attempted_when_ParmRule_yields_nothing
    (objNode : Node) (procedureName : gostring) :
  (RulesSource objNode = [] \/ ~ HasParmCall (stripComments (RulesSource objNode)) ->
   Signature.Parameters (extractFromParmRule objNode procedureName) = None) /\
  (Signature.Parameters (extractFromParmRule objNode procedureName) = None ->
   ((exists v, v ∈ VariableNodes objNode /\ Qualifies v) ->
    ExtractProcedureSignature objNode procedureName
    = Signature.set_ExtractionMode (str "IsParm")
        (extractFromIsParmVariables objNode procedureName)) /\
   ((forall v, v ∈ VariableNodes objNode -> ~ Qualifies v) ->
    ExtractProcedureSignature objNode procedureName
    = Signature.mk (Some []) (procedureName ++ str "();") (str "None"))) /\
  (forall ps,
     Signature.Parameters (extractFromParmRule objNode procedureName) = Some ps ->
     ExtractProcedureSignature objNode procedureName
     = Signature.set_ExtractionMode (str "ParmRule")
         (extractFromParmRule objNode procedureName)).
Proof.
  split; [|split].
  - unfold extractFromParmRule. fold (RulesSource objNode).
    intros [->|Hno]; [done|]. case_bool_decide; [done|].
    unfold parseParmString. fold (stripComments (RulesSource objNode)).
    by rewrite parmRegex_no_call.
  - intros Hnone. unfold ExtractProcedureSignature. rewrite Hnone.
    destruct (is_Some_dec None) as [[? ?]|_]; [done|]. split.
    + intros Hq. destruct (extractFromIsParmVariables_some objNode procedureName Hq)
        as [ps Hps].
      rewrite Hps. by destruct (is_Some_dec (Some ps)) as [_|[]].
    + intros Hno. by rewrite extractFromIsParmVariables_none.
  - intros ps Hps. unfold ExtractProcedureSignature. rewrite Hps.
    by destruct (is_Some_dec (Some ps)) as [_|[]].
Qed.

End FallbackOrder.

(** ** The theorems at concrete inputs *)



Lemma ExtractProcedureSignature_invariants_witness :
  (exists p ps,
     Signature.Parameters
       (ExtractProcedureSignature Examples.commentWithVariable (str "GetUser"))
     = Some (p :: ps)) /\
  (Signature.Parameters (ExtractProcedureSignature Examples.commentOnly (str "P"))
   = Some [] /\
   Signature.RawSignature (ExtractProcedureSignature Examples.commentOnly (str "P"))
   = str "P" ++ str "();").
Proof.
  split.
  - destruct (ExtractProcedureSignature_invariants
                Examples.commentWithVariable (str "GetUser")) as (_ & _ & _ & Hisparm).
    apply Hisparm. vm_compute. reflexivity.
  - destruct (ExtractProcedureSignature_invariants
                Examples.commentOnly (str "P")) as (_ & _ & Hnone & _).
    apply Hnone. vm_compute. reflexivity.
Defined.

Lemma enrichment_never_overwrites_witness :
  EnrichWithVariableMetadata
    [ParameterDoc.mk (str "UserID") (str "IN") (str "Custom") []]
    Examples.commentWithVariable
  = [ParameterDoc.mk (str "UserID") (str "IN") (str "Custom") (str "User identifier")] /\
  ParameterDoc.Type_
    (ParameterDoc.mk (str "UserID") (str "IN") (str "Custom") (str "User identifier"))
  = ParameterDoc.Type_ (ParameterDoc.mk (str "UserID") (str "IN") (str "Custom") []).
Proof.
  assert (E : EnrichWithVariableMetadata
                [ParameterDoc.mk (str "UserID") (str "IN") (str "Custom") []]
                Examples.commentWithVariable
              = [ParameterDoc.mk (str "UserID") (str "IN") (str "Custom")
                                 (str "User identifier")])
    by (vm_compute; reflexivity).
  split; [exact E|].
  apply (proj1 (proj2 (proj1 enrichment_never_overwrites _ _
                         [ParameterDoc.mk (str "UserID") (str "IN") (str "Custom") []]
                         Examples.commentWithVariable))).
  - vm_compute. discriminate.
  - exact E.
Defined.


Lemma assembler_documentation_witness :
  (exists o d,
     fst (XpzExport.addObject ([], ∅) Examples.plainProcedure) = [] ++ [o] /\
     GXObject.Documentation o = Some d /\
     DocComment.IsAutoGenerated d = true /\
     DocComment.Parameters d
     = [ParameterDoc.mk (str "UserID") (str "IN") (str "Numeric") []]) /\
  (exists o d,
     fst (XpzExport.addObject ([], ∅) Examples.annotatedProcedure) = [] ++ [o] /\
     GXObject.Documentation o = Some d /\
     DocComment.Summary d = str "Get User" /\
     DocComment.Parameters d
     = [ParameterDoc.mk (str "UserID") (str "IN") (str "Numeric") []]).
Proof.
  split.
  - destruct (assembler_documentation [] ∅ Examples.plainProcedure eq_refl
                (lookup_empty _)) as (o & Ho & Hauto & _).
    destruct Hauto as (d & Hd & Ha & Hp).
    + vm_compute. reflexivity.
    + vm_compute. discriminate.
    + exists o, d. split; [exact Ho|]. split; [exact Hd|]. split; [exact Ha|].
      rewrite Hp. vm_compute. reflexivity.
  - destruct (assembler_documentation [] ∅ Examples.annotatedProcedure eq_refl
                (lookup_empty _)) as (o & Ho & _ & Hgraft).
    destruct (Hgraft (DocComment.set_Summary (str "Get User") DocComment.zero))
      as (d & Hd & Hp & _ & Hs & _).
    + vm_compute. reflexivity.
    + reflexivity.
    + vm_compute. discriminate.
    + exists o, d. split; [exact Ho|]. split; [exact Hd|]. split; [exact Hs|].
      rewrite Hp. vm_compute. reflexivity.
Defined.

Lemma Parse_never_fails_witness :
  Parser.Parse ([] ++ str "/**" ++ [" "%char; "010"%char; " "%char] ++ str "*/"
                ++ str " msg(&x)")
  = (None, None).
Proof.
  apply (proj2 (proj2 (proj2 Parse_never_fails))).
  - apply not_elem_of_nil.
  - reflexivity.
Defined.

Lemma comment_lines_contribute_nothing_witness :
  parseParmString
    (Join ([str "Parm(in:&A);"] ++ str "  // was: Parm(in:&B);" :: []) newline) (str "P")
  = parseParmString (Join ([str "Parm(in:&A);"] ++ []) newline) (str "P") /\
  ExtractProcedureSignature Examples.commentOnly (str "P")
  = Signature.mk (Some []) (str "P" ++ str "();") (str "None").
Proof.
  split.
  - apply (proj1 comment_lines_contribute_nothing).
    + apply HasPrefix_spec. vm_compute. reflexivity.
    + repeat constructor; apply (bool_decide_unpack _); vm_compute; exact I.
  - apply (proj1 (proj2 comment_lines_contribute_nothing)).
    + assert (E : Split (RulesSource Examples.commentOnly) newline
                  = [str "// Parm(in:&X);"]) by (vm_compute; reflexivity).
      rewrite E. constructor; [|constructor].
      apply HasPrefix_spec. vm_compute. reflexivity.
    + assert (E : VariableNodes Examples.commentOnly = [])
        by (vm_compute; reflexivity).
      rewrite E. intros v Hv. by apply elem_of_nil in Hv.
Defined.

Lemma IsParm_attempted_when_ParmRule_yields_nothing_witness :
  ExtractProcedureSignature Examples.commentWithVariable (str "GetUser")
  = Signature.set_ExtractionMode (str "IsParm")
      (extractFromIsParmVariables Examples.commentWithVariable (str "GetUser")).
Proof.
  destruct (IsParm_attempted_when_ParmRule_yields_nothing
              Examples.commentWithVariable (str "GetUser")) as (Hsrc & Hnone & _).
  apply Hnone.
  - apply Hsrc. right.
    assert (E : stripComments (RulesSource Examples.commentWithVariable) = [])
      by (vm_compute; reflexivity).
    rewrite E. intros (pre & args & kw & ws & post & Heq & _).
    destruct pre, kw, ws; discriminate Heq.
  - exists Examples.userIdVariable. split.
    + assert (E : VariableNodes Examples.commentWithVariable = [Examples.userIdVariable])
        by (vm_compute; reflexivity).
      rewrite E. left.
    + split; [vm_compute; reflexivity | vm_compute; discriminate].
Defined.

(** ** The pattern of an argument segment *)

Section SegmentPatternFacts.
Implicit Types (seg d nm w s : gostring).

(** A byte that folds to a lower-case letter is neither white space, nor a
    colon, nor the sigil. *)
Lemma letter_not_separator (x : ascii) :
  isLowerLetter (toLowerChar x) = true ->
  reSpace x = false /\ x <> ":"%char /\ x <> "&"%char.
Proof.
  destruct x as [[] [] [] [] [] [] [] []]; vm_compute; intros Hl;
    try discriminate Hl; repeat split; discriminate.
Qed.

Lemma keyword_bytes d s :
  ToLower d = s -> forallb isLowerLetter s = true -> forallb keywordByte d = true.
Proof.
  revert s; induction d as [|x d IH]; intros s Hd Hs; [done|].
  destruct s as [|y s]; [done|]. injection Hd as Hx Hd.
  simpl in Hs. apply andb_true_iff in Hs as [Hy Hs]. rewrite <- Hx in Hy.
  destruct (letter_not_separator x Hy) as (Hsp & Hc & _).
  simpl. rewrite (IH s Hd Hs), andb_true_r. unfold keywordByte.
  rewrite Hsp. simpl. by rewrite bool_decide_eq_false_2.
Qed.

Lemma IsDirection_bytes d : IsDirection d -> forallb keywordByte d = true.
Proof.
  intros [Hd|[Hd|[Hd|[]]]]; eapply keyword_bytes; try (symmetry; exact Hd); done.
Qed.

(** A run of bytes of one class followed by a byte outside the class is
    determined by the text. *)
Lemma span_unique (f : ascii -> bool) (l1 r1 l2 r2 : gostring) :
  l1 ++ r1 = l2 ++ r2 ->
  forallb f l1 = true -> forallb f l2 = true ->
  match r1 with x :: _ => f x = false | [] => True end ->
  match r2 with x :: _ => f x = false | [] => True end ->
  l1 = l2 /\ r1 = r2.
Proof.
  revert l2; induction l1 as [|x l1 IH]; intros [|y l2] Heq H1 H2 Hr1 Hr2; simpl in *.
  - done.
  - subst r1. apply andb_true_iff in H2 as [Hy _]. congruence.
  - subst r2. apply andb_true_iff in H1 as [Hx _]. congruence.
  - injection Heq as -> Heq.
    apply andb_true_iff in H1 as [_ H1]. apply andb_true_iff in H2 as [_ H2].
    destruct (IH l2 Heq H1 H2 Hr1 Hr2) as [-> ->]. done.
Qed.

Lemma SegmentPattern_unique seg d nm d' nm' :
  SegmentPattern seg d nm -> SegmentPattern seg d' nm' -> d = d' /\ nm = nm'.
Proof.
  intros (w1 & w2 & Hs & Hd & Hw1 & Hw2 & _ & _)
         (w1' & w2' & Hs' & Hd' & Hw1' & Hw2' & _ & _).
  rewrite Hs in Hs'.
  assert (Hhead : forall (w rest : gostring), forallb reSpace w = true ->
            match w ++ str ":" ++ rest with
            | y :: _ => keywordByte y = false | [] => True end).
  { intros [|y w] rest Hw; [done|]. simpl in *.
    apply andb_true_iff in Hw as [Hy _]. unfold keywordByte. by rewrite Hy. }
  apply (span_unique keywordByte) in Hs' as [<- Hs'];
    [|by apply IsDirection_bytes|by apply IsDirection_bytes
     |by apply Hhead|by apply Hhead].
  split; [done|].
  apply (span_unique reSpace) in Hs' as [<- Hs']; [|done..].
  injection Hs' as Hs'.
  apply (span_unique reSpace) in Hs' as [<- Hs']; [|done..].
  by injection Hs'.
Qed.

End SegmentPatternFacts.

(** Lengths of concatenations, and capture lists compared position by
    position. *)
Ltac list_len :=
  repeat (rewrite ?length_app, ?length_reverse; simpl length); simpl; lia.

Ltac caps_eq :=
  repeat match goal with
         | |- _ :: _ = _ :: _ => f_equal
         | |- (_, _) = (_, _) => f_equal
         | |- Some _ = Some _ => f_equal
         end;
  try reflexivity; list_len.

Section ParamRegex.
Implicit Types (seg d nm w bef aft : gostring) (c : caps).

Lemma Sem_direction_inv bef w aft c c' :
  Sem direction bef w aft c c' -> IsDirection w /\ c' = c.
Proof.
  unfold direction, IsDirection. intros HS.
  inversion HS as [| | |? ? ? ? ? ? ? H1|? ? ? ? ? ? ? H1| | | | |]; subst; clear HS.
  - apply (Sem_litsI_inv (str "in")) in H1 as [-> ->]. split; [by left | done].
  - inversion H1 as [| | |? ? ? ? ? ? ? H2|? ? ? ? ? ? ? H2| | | | |]; subst; clear H1.
    + apply (Sem_litsI_inv (str "out")) in H2 as [-> ->].
      split; [right; by left | done].
    + apply (Sem_litsI_inv (str "inout")) in H2 as [-> ->].
      split; [right; right; by left | done].
Qed.

Lemma Sem_direction d bef aft c : IsDirection d -> Sem direction bef d aft c c.
Proof.
  unfold direction. intros [Hd|[Hd|[Hd|[]]]].
  - apply Sem_AltL. by apply Sem_litsI.
  - apply Sem_AltR, Sem_AltL. by apply Sem_litsI.
  - apply Sem_AltR, Sem_AltR. by apply Sem_litsI.
Qed.

Lemma Sem_paramRegex_inv bef w aft c' :
  Sem paramRegex bef w aft [] c' ->
  bef = [] /\ aft = [] /\
  exists d w1 w2 nm,
    w = d ++ w1 ++ str ":" ++ w2 ++ str "&" ++ nm /\
    IsDirection d /\ forallb reSpace w1 = true /\ forallb reSpace w2 = true /\
    nm <> [] /\ forallb dot nm = true /\
    c' = segmentCaps d w1 w2 nm.
Proof.
  unfold paramRegex. intros HS.
  inversion HS as [| |? ? ? w0 r0 ? ? ? ? H0 HS0| | | | | | |]; subst; clear HS.
  inversion H0; subst; clear H0.
  inversion HS0 as [| |? ? ? w1 r1 ? ? ? ? H1 HS1| | | | | | |]; subst; clear HS0.
  inversion HS1 as [| |? ? ? w2 r2 ? ? ? ? H2 HS2| | | | | | |]; subst; clear HS1.
  inversion HS2 as [| |? ? ? w3 r3 ? ? ? ? H3 HS3| | | | | | |]; subst; clear HS2.
  inversion HS3 as [| |? ? ? w4 r4 ? ? ? ? H4 HS4| | | | | | |]; subst; clear HS3.
  inversion HS4 as [| |? ? ? w5 r5 ? ? ? ? H5 HS5| | | | | | |]; subst; clear HS4.
  inversion HS5 as [| |? ? ? w6 r6 ? ? ? ? H6 H7| | | | | | |]; subst; clear HS5.
  inversion H1 as [| | | | | |? ? ? ? ? ? ? Hd| | |]; subst; clear H1.
  apply Sem_direction_inv in Hd as [Hd ->].
  inversion H2 as [| | | | |? ? ? ? ? ? Hw1| | | |]; subst; clear H2.
  inversion H3 as [|? x3 ? ? ? Hp3| | | | | | | |]; subst; clear H3.
  apply bool_decide_eq_true in Hp3 as ->.
  inversion H4 as [| | | | |? ? ? ? ? ? Hw2| | | |]; subst; clear H4.
  inversion H5 as [|? x5 ? ? ? Hp5| | | | | | | |]; subst; clear H5.
  apply bool_decide_eq_true in Hp5 as ->.
  inversion H6 as [| | | | | |? ? ? ? ? ? ? Hnm| | |]; subst; clear H6.
  inversion Hnm as [| |? ? ? n1 n2 ? ? ? ? Hn1 Hn2| | | | | | |]; subst; clear Hnm.
  inversion Hn1 as [|? x6 ? ? ? Hp6| | | | | | | |]; subst; clear Hn1.
  inversion Hn2 as [| | | | |? ? ? ? ? ? Hrest| | | |]; subst; clear Hn2.
  inversion H7; subst; clear H7.
  split; [done|]. split; [done|].
  exists w1, w2, w4, ([x6] ++ n2).
  split; [by rewrite !app_nil_r, <- ?app_assoc|]. split; [done|]. split; [done|].
  split; [done|]. split; [done|]. split; [simpl; by rewrite Hp6|].
  unfold segmentCaps. rewrite !app_nil_r. caps_eq.
Qed.

Lemma Sem_paramRegex seg d w1 w2 nm :
  seg = d ++ w1 ++ str ":" ++ w2 ++ str "&" ++ nm ->
  IsDirection d -> forallb reSpace w1 = true -> forallb reSpace w2 = true ->
  nm <> [] -> forallb dot nm = true ->
  exists c, Sem paramRegex [] seg [] [] c.
Proof.
  intros -> Hd Hw1 Hw2 Hnm Hdot. destruct nm as [|x nm]; [done|].
  simpl in Hdot. apply andb_true_iff in Hdot as [Hx Hdot].
  eexists. unfold paramRegex. rewrite <- (app_nil_r (x :: nm)).
  eapply (Sem_Seq _ _ _ [] (d ++ _)); [apply Sem_Bot|].
  eapply (Sem_Seq _ _ _ d (w1 ++ _)); [apply Sem_Group; by apply Sem_direction|].
  eapply (Sem_Seq _ _ _ w1 (str ":" ++ _)); [by apply Sem_Star|].
  eapply (Sem_Seq _ _ _ (str ":") (w2 ++ _));
    [by apply Sem_Chr, bool_decide_eq_true_2|].
  eapply (Sem_Seq _ _ _ w2 (str "&" ++ _)); [by apply Sem_Star|].
  eapply (Sem_Seq _ _ _ (str "&") ((x :: nm) ++ []));
    [by apply Sem_Chr, bool_decide_eq_true_2|].
  eapply (Sem_Seq _ _ _ (x :: nm) []); [|apply Sem_Eot].
  apply Sem_Group. eapply (Sem_Seq _ _ _ [x] nm); [by apply Sem_Chr | by apply Sem_Star].
Qed.

End ParamRegex.

Section ParamRegexFind.
Implicit Types (seg d nm w bef aft : gostring) (c : caps).

Lemma slice_prefix (a b : gostring) : slice (a ++ b) 0 (length a) = a.
Proof. rewrite slice_0. by rewrite take_app_length. Qed.

Lemma slice_suffix (a b : gostring) : slice (a ++ b) (length a) (length (a ++ b)) = b.
Proof.
  unfold slice. rewrite drop_app_length, length_app.
  replace (length a + length b - length a) with (length b) by lia.
  by rewrite firstn_all.
Qed.

Lemma slice_whole (a : gostring) : slice a 0 (length a) = a.
Proof. rewrite slice_0. by rewrite firstn_all. Qed.

Lemma paramRegex_later_none (x : ascii) (t : gostring) :
  findFrom paramRegex [x] t = None.
Proof.
  apply findFrom_none. intros p1 p2 _. apply matchAt_none.
  intros w rest c _ HS. apply Sem_paramRegex_inv in HS as [Hbef _].
  destruct (reverse p1); discriminate Hbef.
Qed.

(** What [paramRegex] finds in a segment: the whole segment, the direction
    keyword and the text after the sigil when the segment has the pattern,
    and nothing otherwise. *)
Lemma paramRegex_spec seg :
  (forall d nm, SegmentPattern seg d nm ->
                FindStringSubmatch paramRegex seg = Some [seg; d; nm]) /\
  ((forall d nm, ~ SegmentPattern seg d nm) ->
   FindStringSubmatch paramRegex seg = None) /\
  (forall l, FindStringSubmatch paramRegex seg = Some l ->
             exists d nm, SegmentPattern seg d nm).
Proof.
  unfold FindStringSubmatch.
  destruct (matchAt paramRegex [] seg) as [[e c]|] eqn:Em.
  - rewrite (findFrom_here _ _ _ _ _ Em).
    apply matchAt_sound in Em as (w & rest & -> & HS & ->).
    apply Sem_paramRegex_inv in HS
      as (_ & -> & d0 & w1 & w2 & nm0 & -> & Hd & Hw1 & Hw2 & Hnm & Hdot & ->).
    rewrite !app_nil_r.
    assert (HP : SegmentPattern (d0 ++ w1 ++ str ":" ++ w2 ++ str "&" ++ nm0) d0 nm0).
    { exists w1, w2. done. }
    assert (Hres :
      Some (slice (d0 ++ w1 ++ str ":" ++ w2 ++ str "&" ++ nm0) (length (@nil ascii))
              (length (reverse (d0 ++ w1 ++ str ":" ++ w2 ++ str "&" ++ nm0)))
            :: map (submatch (d0 ++ w1 ++ str ":" ++ w2 ++ str "&" ++ nm0)
                      (segmentCaps d0 w1 w2 nm0))
                   (seq 1 (numSubexp paramRegex)))
      = Some [d0 ++ w1 ++ str ":" ++ w2 ++ str "&" ++ nm0; d0; nm0]).
    { rewrite length_reverse. cbn [length]. rewrite slice_whole.
      change (numSubexp paramRegex) with 2. cbn [seq map].
      unfold submatch, segmentCaps. cbn [capLookup].
      rewrite decide_False by lia. rewrite !decide_True by done.
      rewrite slice_prefix. do 3 f_equal.
      replace (d0 ++ w1 ++ str ":" ++ w2 ++ str "&" ++ nm0)
        with ((d0 ++ w1 ++ str ":" ++ w2 ++ str "&") ++ nm0)
        by (by rewrite <- !app_assoc).
      by rewrite slice_suffix. }
    rewrite Hres. split; [|split].
    + intros d nm HP'. by destruct (SegmentPattern_unique _ _ _ _ _ HP HP') as [-> ->].
    + intros Hno. exfalso. by apply (Hno d0 nm0).
    + intros l _. by exists d0, nm0.
  - split; [|split].
    + intros d nm (w1 & w2 & Hs & Hd & Hw1 & Hw2 & Hnm & Hdot).
      destruct (Sem_paramRegex _ _ _ _ _ Hs Hd Hw1 Hw2 Hnm Hdot) as [c HS].
      apply matchAt_some in HS as [res Hres].
      rewrite app_nil_r in Hres. congruence.
    + intros _. destruct seg as [|x t]; cbn [findFrom]; rewrite Em; [done|].
      by rewrite paramRegex_later_none.
    + intros l. destruct seg as [|x t]; cbn [findFrom]; rewrite Em; [done|].
      by rewrite paramRegex_later_none.
Qed.


Lemma SegmentPattern_nonempty seg d nm : SegmentPattern seg d nm -> seg <> [].
Proof.
  intros (w1 & w2 & -> & Hd & _). destruct d; [|done].
  by destruct Hd as [?|[?|[?|[]]]].
Qed.

(** One round of the loop: a segment of the pattern adds its parameter, any
    other segment adds nothing. *)
Lemma parmPart_spec (acc : option (list ParameterDoc.t)) seg :
  (forall d nm, SegmentPattern (TrimSpace seg) d nm ->
     parmPart acc seg
     = append acc (ParameterDoc.mk (TrimSpace nm) (ToUpper d) [] [])) /\
  ((forall d nm, ~ SegmentPattern (TrimSpace seg) d nm) -> parmPart acc seg = acc).
Proof.
  unfold parmPart. split.
  - intros d nm HP. rewrite (proj1 (paramRegex_spec _) d nm HP).
    rewrite bool_decide_eq_false_2; [done|]. by eapply SegmentPattern_nonempty.
  - intros Hno. rewrite (proj1 (proj2 (paramRegex_spec _)) Hno).
    by case_bool_decide.
Qed.


End ParamRegexFind.

(** ** The parm call of a rules source *)

Section ParmCall.
Implicit Types (text pre args kw ws post bef : gostring).

Lemma slice_middle (text a m d : gostring) b e :
  text = a ++ m ++ d -> b = length a -> e = length a + length m ->
  slice text b e = m.
Proof. intros -> -> ->. apply slice_app_middle. Qed.

Lemma matchAt_parmRegex_call bef kw ws args post :
  ToLower kw = str "parm" -> forallb reSpace ws = true ->
  forallb dot args = true -> ")"%char ∉ args ->
  matchAt parmRegex bef (kw ++ ws ++ str "(" ++ args ++ str ")" ++ post)
  = Some (length bef + length (kw ++ ws ++ str "(" ++ args ++ str ")"),
          [(1, (length bef + length (kw ++ ws ++ str "("),
                length bef + length (kw ++ ws ++ str "(") + length args))]).
Proof.
  intros Hkw Hws Hargs Hclose. unfold matchAt, parmRegex. cbn [run].
  rewrite (run_litsI (str "parm") kw) by done. cbn [run].
  apply star_greedy_run; [done | done |].
  change (str "(" ++ args ++ str ")" ++ post) with ("("%char :: args ++ ")"%char :: post).
  cbn [run]. unfold lit at 1. rewrite bool_decide_eq_true_2 by done.
  rewrite star_lazy_first.
  - cbn [run]. unfold lit at 1.
    rewrite bool_decide_eq_true_2 by done. caps_eq.
  - done.
  - intros w1 x w2 ->. cbn [run]. unfold lit at 1.
    rewrite bool_decide_eq_false_2; [done|]. intros ->.
    apply Hclose, elem_of_app. right. left.
Qed.

Lemma Sem_parmRegex_call text p1 w rest bef c c' :
  text = p1 ++ w ++ rest -> Sem parmRegex bef w rest c c' ->
  exists args, ParmCallAt text p1 args.
Proof.
  intros -> HS.
  apply Sem_parmRegex_inv in HS as (kw & ws & args & -> & Hkw & Hws & Hargs & _).
  destruct (decide (")"%char ∈ args)) as [Hin|Hnin].
  - apply list_elem_of_split_l in Hin as (a1 & a2 & -> & Hn1).
    rewrite forallb_app in Hargs. apply andb_true_iff in Hargs as [Ha1 _].
    exists a1, kw, ws, (a2 ++ str ")" ++ rest).
    split; [|done]. by rewrite <- !app_assoc.
  - exists args, kw, ws, rest. split; [|done]. by rewrite <- !app_assoc.
Qed.

(** [parmRegex] finds the first parm call and captures its argument text. *)
Lemma parmRegex_first_call text args :
  FirstParmCall text args ->
  exists whole, FindStringSubmatch parmRegex text = Some [whole; args].
Proof.
  intros (pre & (kw & ws & post & -> & Hkw & Hws & Hargs & Hclose) & Hmin).
  unfold FindStringSubmatch. rewrite findFrom_skip.
  - rewrite (findFrom_here _ _ _ _ _
               (matchAt_parmRegex_call _ kw ws args post Hkw Hws Hargs Hclose)).
    change (numSubexp parmRegex) with 1. cbn [seq map].
    unfold submatch. cbn [capLookup]. rewrite decide_True by done.
    eexists. do 3 f_equal.
    apply (slice_middle _ (pre ++ kw ++ ws ++ str "(") args (str ")" ++ post)).
    + by rewrite <- !app_assoc.
    + list_len.
    + list_len.
  - intros p1 x p2 Hpre. apply matchAt_none. intros w rest c Heq HS.
    destruct (Sem_parmRegex_call
                (pre ++ kw ++ ws ++ str "(" ++ args ++ str ")" ++ post)
                p1 w rest _ _ _ ltac:(rewrite Hpre, <- Heq, <- app_assoc; done) HS)
      as [args' Hcall].
    apply Hmin in Hcall. rewrite Hpre, length_app in Hcall. simpl in Hcall. lia.
Qed.

Lemma TrimSpace_nil_inv (s : gostring) : TrimSpace s = [] -> forallb isSpace s = true.
Proof.
  intros Ht. destruct (TrimSpace_decomp s) as (w1 & w2 & H1 & H2 & Hs).
  rewrite Hs, Ht, !forallb_app, H1, H2. done.
Qed.


End ParmCall.


(** The segments determine the parameters. *)
Lemma ParamsOf_functional segs ps ps' :
  ParamsOf segs ps -> ParamsOf segs ps' -> ps = ps'.
Proof.
  intros H1; revert ps'; induction H1 as [|seg segs d nm ps HP _ IH|seg segs ps Hno _ IH];
    intros ps' H2; inversion H2 as [|? ? d' nm' ps2 HP' H2'|? ? ? Hno' H2']; subst.
  - done.
  - destruct (SegmentPattern_unique _ _ _ _ _ HP HP') as [-> ->]. f_equal. by apply IH.
  - by apply Hno' in HP.
  - by apply Hno in HP'.
  - by apply IH.
Qed.


(** ** Replacement: what stays in place *)

Section Replace.
Implicit Types (r : re) (bef aft pre w : gostring).

Lemma replaceFrom_nil r repl jm bef :
  matchAt r bef [] = None -> replaceFrom r repl 0 jm bef [] = [].
Proof. intros Hm. simpl. by rewrite Hm. Qed.


Lemma replaceFrom_copy r repl jm bef x t :
  matchAt r bef (x :: t) = None ->
  replaceFrom r repl 0 jm bef (x :: t) = x :: replaceFrom r repl 0 false (x :: bef) t.
Proof. intros Hm. simpl. by rewrite Hm. Qed.

Lemma replaceFrom_match r repl jm bef x t e c :
  matchAt r bef (x :: t) = Some (e, c) -> length bef < e ->
  replaceFrom r repl 0 jm bef (x :: t)
  = repl (length bef) e c ++ replaceFrom r repl (e - length bef - 1) true (x :: bef) t.
Proof.
  intros Hm He. simpl. rewrite Hm.
  destruct (length bef <? e) eqn:E; [done|]. apply Nat.ltb_ge in E. lia.
Qed.

(** A stretch of text in which no match starts is copied. *)
Lemma replaceFrom_skip_prefix r repl pre : forall jm bef aft,
  (forall p1 x p2, pre = p1 ++ x :: p2 ->
                   matchAt r (reverse p1 ++ bef) (x :: p2 ++ aft) = None) ->
  replaceFrom r repl 0 jm bef (pre ++ aft)
  = pre ++ replaceFrom r repl 0 (match pre with [] => jm | _ => false end)
                       (reverse pre ++ bef) aft.
Proof.
  induction pre as [|x pre IH]; intros jm bef aft Hno; [done|].
  pose proof (Hno [] x pre eq_refl) as H0. simpl in H0.
  cbn [app]. rewrite replaceFrom_copy by done. f_equal.
  rewrite IH.
  - rewrite reverse_cons, <- app_assoc. by destruct pre.
  - intros p1 y p2 ->. specialize (Hno (x :: p1) y p2 eq_refl).
    by rewrite reverse_cons, <- app_assoc in Hno.
Qed.

Lemma app_eq_app_prefix (a b c d : gostring) :
  a ++ b = c ++ d -> (exists k, c = a ++ k) \/ (exists k y, a = c ++ y :: k).
Proof.
  revert c; induction a as [|x a IH]; intros c Heq.
  - left. by exists c.
  - destruct c as [|y c].
    + right. by exists a, x.
    + injection Heq as -> Heq. destruct (IH c Heq) as [[k ->]|(k & z & ->)].
      * left. by exists k.
      * right. by exists k, z.
Qed.



End Replace.

(** ** Template expansion *)

Section Expand.
Implicit Types (t s P T : gostring).







End Expand.

(** ** White space at the ends *)



(** ** The normalising passes of [parseParmString] *)

Section Passes.
Implicit Types (bef w rest text name args : gostring) (c : caps).

Lemma Sem_directionRegex_inv bef w rest c c' :
  Sem directionRegex bef w rest c c' ->
  exists d ws, w = d ++ ws ++ str ":" /\ IsDirection d /\ forallb reSpace ws = true.
Proof.
  unfold directionRegex. intros HS.
  inversion HS as [| |? ? ? w0 r0 ? ? ? ? H0 HS0| | | | | | |]; subst; clear HS.
  inversion H0; subst; clear H0.
  inversion HS0 as [| |? ? ? w1 r1 ? ? ? ? H1 HS1| | | | | | |]; subst; clear HS0.
  inversion HS1 as [| |? ? ? w2 r2 ? ? ? ? H2 H3| | | | | | |]; subst; clear HS1.
  inversion H1 as [| | | | | |? ? ? ? ? ? ? Hd| | |]; subst; clear H1.
  apply Sem_direction_inv in Hd as [Hd _].
  inversion H2 as [| | | | |? ? ? ? ? ? Hws| | | |]; subst; clear H2.
  inversion H3 as [|? x3 ? ? ? Hp3| | | | | | | |]; subst; clear H3.
  apply bool_decide_eq_true in Hp3 as ->. by exists w1, w2.
Qed.



Lemma IsDirection_letters d x :
  IsDirection d -> x ∈ d -> isLowerLetter (toLowerChar x) = true.
Proof.
  intros Hd Hx.
  assert (Hall : forallb isLowerLetter (ToLower d) = true).
  { by destruct Hd as [<-|[<-|[<-|[]]]]. }
  unfold ToLower in Hall. rewrite forallb_forall in Hall.
  apply Hall, in_map. by apply list_elem_of_In.
Qed.








End Passes.

(** ** The raw signature *)

Section RawSignature.
Implicit Types (text source name args whole : gostring).



Lemma ParmCallAt_first text args : ParmCallAt text [] args -> FirstParmCall text args.
Proof. intros Hc. exists []. split; [done|]. intros. simpl. lia. Qed.







End RawSignature.



Section RawSignatureShape.
Context {Node : Type} `{XmlQuery Node}.


End RawSignatureShape.


(** * Further properties *)





(** ** The tags of an annotation block *)

Section Tags.
Implicit Types (line tag : gostring) (doc : DocComment.t).

Lemma tagValue_SplitN2 tag line :
  " "%char ∉ tag ->
  tagValue tag line =
  let parts := SplitN2 (TrimSpace line) (str " ") in
  if bool_decide (hd [] parts = tag)
  then Some (match parts with _ :: v :: _ => TrimSpace v | _ => [] end)
  else None.
Proof.
  intros Htag. unfold tagValue, SplitN2. set (l := TrimSpace line).
  change (str " ") with [" "%char].
  destruct (Cut l [" "%char]) as [[a b]|] eqn:E; cbn [hd].
  - apply Cut_char_Some in E as [Hl Ha].
    case_bool_decide as H1.
    + exfalso. apply Htag. rewrite <- H1, Hl. apply elem_of_app. right. left.
    + case_bool_decide as H2.
      * subst a. rewrite Hl.
        change (tag ++ " "%char :: b) with (tag ++ [" "%char] ++ b).
        rewrite app_assoc, HasPrefix_app. do 2 f_equal.
        rewrite <- app_assoc. 
        replace (S (length tag)) with (length (tag ++ [" "%char])) by (rewrite length_app; simpl; lia).
        by rewrite app_assoc, drop_app_length.
      * destruct (HasPrefix l (tag ++ [" "%char])) eqn:E3; [|done].
        exfalso. apply HasPrefix_spec in E3 as [k Hk]. rewrite <- app_assoc in Hk.
        pose proof (Cut_char_app tag " "%char k Htag) as Hc.
        simpl in Hk. rewrite <- Hk in Hc.
        assert (Hc' : Cut l [" "%char] = Some (a, b)).
        { rewrite Hl. by apply Cut_char_app. }
        rewrite Hc in Hc'. by injection Hc' as -> _.
  - apply Cut_char_None in E. case_bool_decide as H1; [done|].
    destruct (HasPrefix l (tag ++ [" "%char])) eqn:E3; [|done].
    exfalso. apply HasPrefix_spec in E3 as [k Hk]. apply E. rewrite Hk.
    apply elem_of_app. left. apply elem_of_app. right. left.
Qed.

Lemma tagValue_blank tag line :
  TrimSpace line = [] -> tag <> [] -> tagValue tag line = None.
Proof.
  intros Hl Htag. unfold tagValue. rewrite Hl.
  rewrite bool_decide_eq_false_2 by done. by destruct tag.
Qed.

Lemma tagValue_no_at tag line :
  HasPrefix (TrimSpace line) (str "@") = false -> HasPrefix tag (str "@") = true ->
  tagValue tag line = None.
Proof.
  intros Hl Htag. unfold tagValue.
  case_bool_decide as H1; [congruence|].
  destruct (HasPrefix _ (tag ++ _)) eqn:E; [|done]. exfalso.
  apply HasPrefix_spec in E as [k Hk]. apply HasPrefix_spec in Htag as [k' Hk'].
  rewrite Hk, Hk', <- !app_assoc in Hl. by rewrite HasPrefix_app in Hl.
Qed.

End Tags.

Ltac no_space_in_tag :=
  apply Cut_char_None; vm_compute; reflexivity.

Ltac decide_tags :=
  repeat first
    [ rewrite bool_decide_eq_true_2 by reflexivity
    | rewrite bool_decide_eq_false_2
        by (let H := fresh in intros H; vm_compute in H; discriminate H) ].

Lemma parseLine_fields (doc : DocComment.t) (line : gostring) :
  let d := Parser.parseLine doc line in
  DocComment.Package d = default (DocComment.Package doc) (tagValue (str "@package") line) /\
  DocComment.Summary d = default (DocComment.Summary doc) (tagValue (str "@summary") line) /\
  DocComment.Description d
  = default (DocComment.Description doc) (tagValue (str "@description") line) /\
  DocComment.Author d = default (DocComment.Author doc) (tagValue (str "@author") line) /\
  DocComment.Created d = default (DocComment.Created doc) (tagValue (str "@created") line) /\
  DocComment.Return d = default (DocComment.Return doc) (tagValue (str "@return") line) /\
  DocComment.Tags d = DocComment.Tags doc ++ option_list (tagValue (str "@tag") line) /\
  DocComment.Parameters d
  = DocComment.Parameters doc
    ++ option_list (tagValue (str "@param") line ≫= Parser.parseParameter) /\
  DocComment.Deprecated d
  = DocComment.Deprecated doc || bool_decide (is_Some (tagValue (str "@deprecated") line)) /\
  DocComment.DeprecationNote d
  = default (DocComment.DeprecationNote doc) (tagValue (str "@deprecated") line) /\
  DocComment.IsAutoGenerated d = DocComment.IsAutoGenerated doc.
Proof.
  unfold Parser.parseLine. case_bool_decide as Hblank.
  { rewrite !(tagValue_blank _ line Hblank) by (vm_compute; discriminate).
    cbn. rewrite !app_nil_r, orb_false_r. done. }
  destruct (HasPrefix (TrimSpace line) (str "@")) eqn:Hat.
  2:{ rewrite !(tagValue_no_at _ line Hat) by reflexivity.
      cbn. rewrite !app_nil_r, orb_false_r. done. }
  rewrite !tagValue_SplitN2 by no_space_in_tag. cbv zeta.
  unfold Parser.parseTag.
  set (parts := SplitN2 (TrimSpace line) (str " ")).
  set (value := match parts with _ :: v :: _ => TrimSpace v | _ => [] end).
  generalize (hd [] parts) as tag. intros tag.
  destruct (decide (tag = str "@package")) as [->|N1];
    [decide_tags; cbn; by rewrite !app_nil_r, orb_false_r|].
  destruct (decide (tag = str "@summary")) as [->|N2];
    [decide_tags; cbn; by rewrite !app_nil_r, orb_false_r|].
  destruct (decide (tag = str "@description")) as [->|N3];
    [decide_tags; cbn; by rewrite !app_nil_r, orb_false_r|].
  destruct (decide (tag = str "@author")) as [->|N4];
    [decide_tags; cbn; by rewrite !app_nil_r, orb_false_r|].
  destruct (decide (tag = str "@created")) as [->|N5];
    [decide_tags; cbn; by rewrite !app_nil_r, orb_false_r|].
  destruct (decide (tag = str "@param")) as [->|N6].
  { decide_tags. cbn. destruct (Parser.parseParameter value); cbn;
      by rewrite !app_nil_r, orb_false_r. }
  destruct (decide (tag = str "@return")) as [->|N7];
    [decide_tags; cbn; by rewrite !app_nil_r, orb_false_r|].
  destruct (decide (tag = str "@tag")) as [->|N8];
    [decide_tags; cbn; by rewrite !app_nil_r, orb_false_r|].
  destruct (decide (tag = str "@deprecated")) as [->|N9].
  { decide_tags. cbn. rewrite !app_nil_r, orb_true_r. done. }
  rewrite !bool_decide_eq_false_2 by done.
  cbn. by rewrite !app_nil_r, orb_false_r.
Qed.

Lemma last_omap_cons {A B} (f : A -> option B) (x : A) (l : list A) (d : B) :
  default (default d (f x)) (last (omap f l)) = default d (last (omap f (x :: l))).
Proof.
  simpl. change (list_omap A B f l) with (omap f l).
  destruct (f x) as [y|]; simpl; [|done].
  destruct (omap f l) as [|z zs] eqn:E; [done|].
  rewrite last_cons_cons. destruct (last (z :: zs)) eqn:E2; [done|].
  by apply last_None in E2.
Qed.

Lemma parseLines_fields (lines : list gostring) : forall doc : DocComment.t,
  let d := fold_left Parser.parseLine lines doc in
  DocComment.Package d
  = default (DocComment.Package doc) (last (tagValues (str "@package") lines)) /\
  DocComment.Summary d
  = default (DocComment.Summary doc) (last (tagValues (str "@summary") lines)) /\
  DocComment.Description d
  = default (DocComment.Description doc) (last (tagValues (str "@description") lines)) /\
  DocComment.Author d
  = default (DocComment.Author doc) (last (tagValues (str "@author") lines)) /\
  DocComment.Created d
  = default (DocComment.Created doc) (last (tagValues (str "@created") lines)) /\
  DocComment.Return d
  = default (DocComment.Return doc) (last (tagValues (str "@return") lines)) /\
  DocComment.Tags d = DocComment.Tags doc ++ tagValues (str "@tag") lines /\
  DocComment.Parameters d
  = DocComment.Parameters doc
    ++ omap Parser.parseParameter (tagValues (str "@param") lines) /\
  DocComment.Deprecated d
  = DocComment.Deprecated doc
    || bool_decide (tagValues (str "@deprecated") lines <> []) /\
  DocComment.DeprecationNote d
  = default (DocComment.DeprecationNote doc)
            (last (tagValues (str "@deprecated") lines)) /\
  DocComment.IsAutoGenerated d = DocComment.IsAutoGenerated doc.
Proof.
  induction lines as [|line lines IH]; intros doc.
  { cbn. rewrite !app_nil_r, orb_false_r. done. }
  cbn [fold_left]. cbv zeta.
  destruct (IH (Parser.parseLine doc line))
    as (-> & -> & -> & -> & -> & -> & -> & -> & -> & -> & ->).
  destruct (parseLine_fields doc line)
    as (-> & -> & -> & -> & -> & -> & -> & -> & -> & -> & ->).
  unfold tagValues. rewrite !last_omap_cons.
  do 6 (split; [done|]).
  split. { rewrite <- app_assoc. f_equal. simpl omap. by destruct (tagValue _ line). }
  split. { rewrite <- app_assoc. f_equal. simpl omap.
           destruct (tagValue _ line) as [v|]; [|done]. cbn.
           by destruct (Parser.parseParameter v). }
  split; [|done].
  rewrite <- orb_assoc. f_equal. simpl omap.
  by destruct (tagValue _ line) as [v|]; cbn.
Qed.

Lemma NoOuterSpace_nil : NoOuterSpace [].
Proof. split; intros c Hc; discriminate Hc. Qed.

Lemma tagValue_NoOuterSpace tag line v :
  tagValue tag line = Some v -> NoOuterSpace v.
Proof.
  unfold tagValue. case_bool_decide; [intros [= <-]; apply NoOuterSpace_nil|].
  destruct (HasPrefix _ _); [|done]. intros [= <-]. apply TrimSpace_NoOuterSpace.
Qed.

Lemma tagValues_NoOuterSpace tag lines : Forall NoOuterSpace (tagValues tag lines).
Proof.
  apply Forall_forall. intros v Hv. apply list_elem_of_omap in Hv as (line & _ & Hv).
  by eapply tagValue_NoOuterSpace.
Qed.

Lemma lastValue_NoOuterSpace values :
  Forall NoOuterSpace values -> NoOuterSpace (lastValue values).
Proof.
  intros HF. unfold lastValue. destruct (last values) as [v|] eqn:E; simpl.
  - apply last_Some_elem_of in E. by eapply Forall_forall in HF.
  - apply NoOuterSpace_nil.
Qed.

Lemma parseParameter_annotated value p :
  Parser.parseParameter value = Some p -> AnnotatedParameter p.
Proof.
  unfold Parser.parseParameter.
  set (descr := match SplitN2 value (str " - ") with _ :: d :: _ => TrimSpace d | _ => [] end).
  assert (Hd : NoOuterSpace descr).
  { unfold descr. destruct (SplitN2 _ _) as [|? [|d ?]];
      auto using NoOuterSpace_nil, TrimSpace_NoOuterSpace. }
  pose proof (Fields_tokens (TrimSpace (hd [] (SplitN2 value (str " - "))))) as HF.
  destruct (Fields _) as [|tok0 [|tok1 rest]]; [done|done|].
  apply Forall_cons in HF as [H0 HF]. apply Forall_cons in HF as [H1 HF].
  destruct (_ || _) eqn:E; intros [= <-]; unfold AnnotatedParameter; simpl.
  - split; [done|]. split.
    + apply orb_true_iff in E as [E|E]; [apply orb_true_iff in E as [E|E]|];
        apply bool_decide_eq_true in E; rewrite E; auto.
    + split; [|done]. destruct rest as [|tok2 rest]; [by left|].
      right. by apply Forall_cons in HF as [H2 _].
  - split; [done|]. split; [auto|]. split; [by right | done].
Qed.




(** X2. Every record [Parse] returns is clean: no text field and no tag
    starts or ends with white space; every parameter has a name that is a
    non-empty token, one of the directions IN, OUT and INOUT, a type that is
    empty or a token, and a trimmed description; and a deprecation note is
    never present without the deprecated flag. *)
Theorem Parse_output_is_clean (source : gostring) (doc : DocComment.t) :
  fst (Parser.Parse source) = Some doc ->
  NoOuterSpace (DocComment.Package doc) /\
  NoOuterSpace (DocComment.Summary doc) /\
  NoOuterSpace (DocComment.Description doc) /\
  NoOuterSpace (DocComment.Author doc) /\
  NoOuterSpace (DocComment.Created doc) /\
  NoOuterSpace (DocComment.Return doc) /\
  NoOuterSpace (DocComment.DeprecationNote doc) /\
  Forall NoOuterSpace (DocComment.Tags doc) /\
  Forall AnnotatedParameter (DocComment.Parameters doc) /\
  (DocComment.Deprecated doc = false -> DocComment.DeprecationNote doc = []).
Proof.
  unfold Parser.Parse. case_bool_decide; [done|]. cbn [fst]. intros [= <-].
  destruct (parseLines_fields (Split (Parser.extractCommentBlock source) newline)
                              DocComment.zero)
    as (-> & -> & -> & -> & -> & -> & -> & -> & -> & -> & _).
  cbn [DocComment.zero DocComment.Package DocComment.Summary DocComment.Description
       DocComment.Author DocComment.Created DocComment.Return DocComment.Tags
       DocComment.Parameters DocComment.Deprecated DocComment.DeprecationNote
       app orb].
  repeat (split; [apply lastValue_NoOuterSpace, tagValues_NoOuterSpace|]).
  split; [apply tagValues_NoOuterSpace|]. split.
  - apply Forall_forall. intros p Hp. apply list_elem_of_omap in Hp as (v & _ & Hp).
    by eapply parseParameter_annotated.
  - intros Hd. apply bool_decide_eq_false in Hd.
    destruct (tagValues (str "@deprecated") _); [done|]. exfalso. by apply Hd.
Qed.

Lemma Parse_output_is_clean_witness :
  exists doc,
    fst (Parser.Parse annotatedSource) = Some doc /\
    NoOuterSpace (DocComment.Package doc) /\
    Forall AnnotatedParameter (DocComment.Parameters doc).
Proof.
  eexists. split; [vm_compute; reflexivity|].
  match goal with
  | |- NoOuterSpace (DocComment.Package ?d) /\ _ =>
      destruct (Parse_output_is_clean annotatedSource d)
        as (Hp & _ & _ & _ & _ & _ & _ & _ & Hps & _)
  end.
  - vm_compute. reflexivity.
  - split; [exact Hp | exact Hps].
Defined.




Section ExportObjects.
Implicit Types (obj : GXObjectXML.t) (entries : list GXObjectXML.t)
               (seen : gmap gostring bool) (names : gset gostring).

Lemma addObject_other obj (st : list GXObject.t * gmap gostring bool) :
  ~ IsProcedureEntry obj -> XpzExport.addObject st obj = st.
Proof.
  intros Hn. destruct st as [objects seen]. unfold XpzExport.addObject.
  assert (E : XpzExport.gxTypeMap !! GXObjectXML.Type_ obj = None).
  { unfold XpzExport.gxTypeMap. apply lookup_singleton_ne.
    intros Heq. apply Hn. unfold IsProcedureEntry. congruence. }
  rewrite E. cbn [default]. rewrite (bool_decide_eq_true_2 (@nil ascii = [])) by done.
  rewrite bool_decide_eq_false_2 by (vm_compute; discriminate).
  by rewrite bool_decide_eq_true_2.
Qed.

Lemma addObject_procedure obj objects seen :
  IsProcedureEntry obj ->
  XpzExport.addObject (objects, seen) obj =
  if default false (seen !! (GXObjectXML.Name obj ++ str "|" ++ GXTypeProcedure))
  then (objects, seen)
  else (objects ++ [procedureObject obj],
        <[GXObjectXML.Name obj ++ str "|" ++ GXTypeProcedure := true]> seen).
Proof.
  intros Hp. unfold XpzExport.addObject. rewrite Hp.
  rewrite gxTypeMap_procedure. cbn [default].
  rewrite !bool_decide_eq_false_2 by (vm_compute; discriminate).
  destruct (default false _); [done|].
  rewrite bool_decide_eq_true_2 by done. unfold procedureObject.
  by destruct (XpzExport.procedureParts obj) as [[s p] d].
Qed.

Lemma addObject_fold entries : forall objects seen names,
  Tracks seen names ->
  fst (fold_left XpzExport.addObject entries (objects, seen))
  = objects ++ map procedureObject (keptEntries names entries).
Proof.
  induction entries as [|obj entries IH]; intros objects seen names Htr.
  { simpl. by rewrite app_nil_r. }
  cbn [fold_left keptEntries].
  destruct (decide (GXObjectXML.Type_ obj = GXTypeProcedure)) as [Hp|Hn].
  - rewrite (addObject_procedure _ _ _ Hp).
    destruct (default false _) eqn:E.
    + apply Htr in E. rewrite decide_True by done. by apply IH.
    + rewrite decide_False.
      2:{ intros Hin. apply Htr in Hin. congruence. }
      rewrite (IH _ _ ({[GXObjectXML.Name obj]} ∪ names)).
      * by rewrite <- app_assoc.
      * intros name. destruct (decide (name = GXObjectXML.Name obj)) as [->|Hne].
        -- rewrite lookup_insert_eq. simpl.
           split; [intros _; apply elem_of_union; left; by apply elem_of_singleton | done].
        -- rewrite lookup_insert_ne.
           2:{ intros Heq. apply app_inv_tail in Heq. congruence. }
           rewrite elem_of_union, elem_of_singleton.
           split; [intros Hs; right; by apply Htr | intros [Hs|Hs]; [done | by apply Htr]].
  - rewrite (addObject_other _ _ Hn). by apply IH.
Qed.

Lemma keptEntries_elem entries : forall names obj,
  obj ∈ keptEntries names entries <->
  IsProcedureEntry obj /\ (GXObjectXML.Name obj ∉ names) /\
  exists before after,
    entries = before ++ obj :: after /\
    forall obj', obj' ∈ before -> IsProcedureEntry obj' ->
                 GXObjectXML.Name obj' <> GXObjectXML.Name obj.
Proof.
  induction entries as [|o entries IH]; intros names obj.
  { simpl. split; [by intros ?%elem_of_nil|].
    intros (_ & _ & before & after & Heq & _). by destruct before. }
  cbn [keptEntries].
  assert (Hcons : forall before after,
            o :: entries = before ++ obj :: after ->
            (before = [] /\ o = obj /\ entries = after) \/
            (exists before', before = o :: before' /\ entries = before' ++ obj :: after)).
  { intros [|x before] after Heq; injection Heq as -> ->; [by left|].
    right. by eexists. }
  destruct (decide (GXObjectXML.Type_ o = GXTypeProcedure)) as [Hp|Hn];
    [destruct (decide (GXObjectXML.Name o ∈ names)) as [Hin|Hnin]|].
  - rewrite IH. split.
    + intros (Hobj & Hnot & before & after & -> & Hbefore).
      split; [done|]. split; [done|]. exists (o :: before), after. split; [done|].
      intros obj' [->|Hin']%elem_of_cons Hp'; [congruence | by apply Hbefore].
    + intros (Hobj & Hnot & before & after & Heq & Hbefore).
      split; [done|]. split; [done|].
      destruct (Hcons _ _ Heq) as [(-> & -> & ->)|(before' & -> & ->)]; [done|].
      exists before', after. split; [done|]. intros obj' Hin'. apply Hbefore. by right.
  - rewrite elem_of_cons, IH. split.
    + intros [->|(Hobj & Hnot & before & after & -> & Hbefore)].
      * split; [done|]. split; [done|]. exists [], entries. split; [done|].
        by intros ? ?%elem_of_nil.
      * apply not_elem_of_union in Hnot as [Hne%not_elem_of_singleton Hnot].
        split; [done|]. split; [done|]. exists (o :: before), after. split; [done|].
        intros obj' [->|Hin']%elem_of_cons Hp'; [congruence | by apply Hbefore].
    + intros (Hobj & Hnot & before & after & Heq & Hbefore).
      destruct (Hcons _ _ Heq) as [(-> & -> & ->)|(before' & -> & ->)]; [by left|].
      right. split; [done|]. split.
      * apply not_elem_of_union. split; [|done]. apply not_elem_of_singleton.
        intros E. apply (Hbefore o); [by left | done | done].
      * exists before', after. split; [done|]. intros obj' Hin'. apply Hbefore. by right.
  - rewrite IH. split.
    + intros (Hobj & Hnot & before & after & -> & Hbefore).
      split; [done|]. split; [done|]. exists (o :: before), after. split; [done|].
      intros obj' [->|Hin']%elem_of_cons Hp'; [done | by apply Hbefore].
    + intros (Hobj & Hnot & before & after & Heq & Hbefore).
      split; [done|]. split; [done|].
      destruct (Hcons _ _ Heq) as [(-> & -> & ->)|(before' & -> & ->)]; [done|].
      exists before', after. split; [done|]. intros obj' Hin'. apply Hbefore. by right.
Qed.

Lemma keptEntries_NoDup entries : forall names,
  NoDup (map GXObjectXML.Name (keptEntries names entries)).
Proof.
  induction entries as [|o entries IH]; intros names; [constructor|].
  cbn [keptEntries].
  destruct (decide (GXObjectXML.Type_ o = GXTypeProcedure)) as [Hp|Hn];
    [destruct (decide (GXObjectXML.Name o ∈ names)) as [Hin|Hnin]|]; [done| |done].
  cbn [map]. constructor; [|done].
  intros (obj & Heq & Hobj)%list_elem_of_fmap.
  apply keptEntries_elem in Hobj as (_ & Hnot & _).
  apply Hnot, elem_of_union. left. by apply elem_of_singleton.
Qed.

Lemma keptEntries_sublist entries : forall names,
  keptEntries names entries `sublist_of` entries.
Proof.
  induction entries as [|o entries IH]; intros names; [constructor|].
  cbn [keptEntries].
  destruct (decide (GXObjectXML.Type_ o = GXTypeProcedure)) as [Hp|Hn];
    [destruct (decide (GXObjectXML.Name o ∈ names)) as [Hin|Hnin]|].
  - by apply sublist_cons.
  - by apply sublist_skip.
  - by apply sublist_cons.
Qed.

End ExportObjects.

(** X4. The objects [parseGXExportFile] returns.  They are the objects of the
    Procedure entries of the export, one per name, built from the first entry
    of that name, in the order of the export; entries of any other type are
    left out.  So every object has type "Procedure" and no two objects share
    a [Path]. *)
Theorem parseGXExportFile_keeps_first_procedures (exportFile : ExportFile.t) :
  let entries := ExportFile.Objects exportFile in
  let objects := fst (XpzExport.parseGXExportFile exportFile) in
  (forall o, o ∈ objects <->
             exists obj, FirstOfItsName entries obj /\ o = procedureObject obj) /\
  NoDup (map GXObject.Path objects) /\
  map GXObject.Path objects `sublist_of` map GXObjectXML.Name entries /\
  Forall (fun o => GXObject.Type_ o = str "Procedure") objects /\
  snd (XpzExport.parseGXExportFile exportFile) = ExportFile.VersionName exportFile.
Proof.
  intros entries objects.
  assert (Hobjs : objects = map procedureObject (keptEntries ∅ entries)).
  { unfold objects, XpzExport.parseGXExportFile. cbn [fst].
    rewrite (addObject_fold _ _ _ ∅); [done|].
    intros name. rewrite lookup_empty. simpl. split; [done | by intros ?%elem_of_empty]. }
  assert (Hpath : map GXObject.Path objects
                  = map GXObjectXML.Name (keptEntries ∅ entries)).
  { rewrite Hobjs, <- list_fmap_compose. done. }
  split; [|split; [|split; [|split]]].
  - intros o. rewrite Hobjs, list_elem_of_fmap. split.
    + intros (obj & -> & Hin). exists obj. split; [|done].
      apply keptEntries_elem in Hin as (Hp & _ & Hrest). by split.
    + intros (obj & [Hp Hrest] & ->). exists obj. split; [done|].
      apply keptEntries_elem. split; [done|]. split; [by apply not_elem_of_empty | done].
  - rewrite Hpath. apply keptEntries_NoDup.
  - rewrite Hpath. apply fmap_sublist, keptEntries_sublist.
  - rewrite Hobjs. apply Forall_forall. by intros o (obj & -> & _)%list_elem_of_fmap.
  - done.
Qed.


(** ** The Parm signature of the struct-decoding version *)

Section ParmSignature.
Implicit Types (s t head args tail part : gostring) (c : ascii).








End ParmSignature.



Section IsParmParameters.
Context {Node : Type} `{XmlQuery Node}.

Lemma qualifies_spec (v : Node) : qualifies v = true <-> Qualifies v.
Proof.
  unfold qualifies, Qualifies. rewrite andb_true_iff, negb_true_iff.
  by rewrite bool_decide_eq_false.
Qed.

Lemma isParmVariable_fold (vars : list Node) : forall params,
  fold_left isParmVariable vars params
  = match filter (fun v => qualifies v = true) vars with
    | [] => params
    | vs => Some (default [] params ++ map variableParameter vs)
    end.
Proof.
  induction vars as [|v vars IH]; intros params; [done|].
  cbn [fold_left]. rewrite IH. rewrite filter_cons.
  unfold isParmVariable. fold (qualifies v).
  destruct (decide (qualifies v = true)) as [Hq|Hq].
  - rewrite Hq. unfold append. cbn [default].
    fold (variableParameter v).
    destruct (filter _ vars) as [|w ws]; simpl.
    + done.
    + by rewrite <- app_assoc.
  - apply not_true_is_false in Hq. by rewrite Hq.
Qed.

(** X6. The IsParm strategy.  Its parameters are those of the variable
    entries that qualify (IsParm property true, Name property not empty), one
    each, in document order, all with direction IN, named by the Name
    property and carrying the type and description read from the entry; the
    raw signature lists them as [in:&name], separated by a comma and a space.
    When no entry qualifies the strategy returns the zero signature. *)
Theorem IsParm_parameters (objNode : Node) (procedureName : gostring) :
  let vs := filter (fun v => qualifies v = true) (VariableNodes objNode) in
  (vs <> [] ->
   extractFromIsParmVariables objNode procedureName
   = Signature.mk
       (Some (map variableParameter vs))
       (procedureName ++ str "("
        ++ Join (map (fun v => str "in:&" ++ name (scanVariable v)) vs) (str ", ")
        ++ str ");")
       []) /\
  (vs = [] -> extractFromIsParmVariables objNode procedureName = Signature.zero).
Proof.
  intros vs. unfold vs, VariableNodes, extractFromIsParmVariables.
  destruct (FindOne objNode _) as [variablesPart|]; [|done].
  rewrite isParmVariable_fold.
  destruct (filter _ (Find variablesPart _)) as [|v vs']; [done|].
  split; [intros _|done].
  cbn [default app len length Nat.eqb map]. unfold buildRawSignature.
  cbn [default len length Nat.eqb map id]. rewrite map_map. done.
Qed.

End IsParmParameters.

Lemma IsParm_parameters_witness :
  extractFromIsParmVariables Examples.commentWithVariable (str "GetUser")
  = Signature.mk
      (Some (map variableParameter [Examples.userIdVariable]))
      (str "GetUser" ++ str "("
       ++ Join (map (fun v => str "in:&" ++ name (scanVariable v))
                    [Examples.userIdVariable]) (str ", ")
       ++ str ");")
      [].
Proof.
  assert (E : filter (fun v => qualifies v = true)
                     (VariableNodes Examples.commentWithVariable)
              = [Examples.userIdVariable]) by (vm_compute; reflexivity).
  pose proof (proj1 (IsParm_parameters Examples.commentWithVariable (str "GetUser"))) as Hx.
  cbv zeta in Hx. rewrite E in Hx. apply Hx. discriminate.
Defined.


(** ** Which variable enriches a parameter *)

Section EnrichmentSource.
Context {Node : Type} `{XmlQuery Node}.

Lemma addVariable_fold_frame (vars : list Node) : forall (m : gmap gostring varMeta) k,
  (forall v, v ∈ vars -> GetAttrDirect v (str "Name") <> k) ->
  fold_left addVariable vars m !! k = m !! k.
Proof.
  induction vars as [|v vars IH]; intros m k Hv; simpl; [done|].
  rewrite IH by (intros v' Hin; apply Hv; by right).
  unfold addVariable. case_bool_decide; [done|].
  apply lookup_insert_ne. apply Hv. left.
Qed.

Lemma addVariable_fold_last (before after : list Node) (v : Node)
    (m : gmap gostring varMeta) :
  GetAttrDirect v (str "Name") <> [] ->
  (forall v', v' ∈ after ->
              GetAttrDirect v' (str "Name") <> GetAttrDirect v (str "Name")) ->
  fold_left addVariable (before ++ v :: after) m !! GetAttrDirect v (str "Name")
  = Some (variableMeta v).
Proof.
  intros Hne Hafter. rewrite fold_left_app. cbn [fold_left].
  rewrite addVariable_fold_frame by done.
  unfold addVariable at 1. rewrite bool_decide_eq_false_2 by done.
  by rewrite lookup_insert_eq.
Qed.

Lemma enrichParam_idemp varMap p :
  enrichParam varMap (enrichParam varMap p) = enrichParam varMap p.
Proof.
  unfold enrichParam. destruct p as [n d t de]; simpl.
  destruct (varMap !! n) as [[mt md]|] eqn:E; simpl; [|by rewrite E].
  destruct t, de; simpl; rewrite E; simpl; try done;
    destruct mt, md; simpl; done.
Qed.

End EnrichmentSource.

Lemma addVariableInfo_fold_frame (vars : list GXVariable.t) :
  forall (m : gmap gostring XpzExport.varInfo) k,
  (forall v, v ∈ vars -> GXVariable.Name v <> k) ->
  fold_left XpzExport.addVariableInfo vars m !! k = m !! k.
Proof.
  induction vars as [|v vars IH]; intros m k Hv; simpl; [done|].
  rewrite IH by (intros v' Hin; apply Hv; by right).
  unfold XpzExport.addVariableInfo. apply lookup_insert_ne. apply Hv. left.
Qed.

Lemma addVariableInfo_fold_last (before after : list GXVariable.t) (v : GXVariable.t)
    (m : gmap gostring XpzExport.varInfo) :
  (forall v', v' ∈ after -> GXVariable.Name v' <> GXVariable.Name v) ->
  fold_left XpzExport.addVariableInfo (before ++ v :: after) m !! GXVariable.Name v
  = Some (variableInfo v).
Proof.
  intros Hafter. rewrite fold_left_app. cbn [fold_left].
  rewrite addVariableInfo_fold_frame by done.
  unfold XpzExport.addVariableInfo at 1. by rewrite lookup_insert_eq.
Qed.

Lemma enrichWithInfo_idemp varMap p :
  XpzExport.enrichWithInfo varMap (XpzExport.enrichWithInfo varMap p)
  = XpzExport.enrichWithInfo varMap p.
Proof.
  unfold XpzExport.enrichWithInfo. destruct p as [n d t de]; simpl.
  destruct (varMap !! n) as [[md mt]|] eqn:E; simpl; [|by rewrite E].
  destruct t, de; simpl; rewrite E; simpl; try done;
    destruct mt, md; simpl; done.
Qed.

(** X7. Enrichment is idempotent: enriching an enriched parameter list from
    the same object changes nothing, for both enrichers. *)
Theorem enrichment_idempotent :
  (forall (Node : Type) (X : XmlQuery Node) (params : list ParameterDoc.t) (objNode : Node),
     EnrichWithVariableMetadata (EnrichWithVariableMetadata params objNode) objNode
     = EnrichWithVariableMetadata params objNode) /\
  (forall (params : list ParameterDoc.t) (parts : list GXPart.t),
     XpzExport.enrichParametersWithVariableInfo
       (XpzExport.enrichParametersWithVariableInfo params parts) parts
     = XpzExport.enrichParametersWithVariableInfo params parts).
Proof.
  split.
  - intros Node X params objNode. unfold EnrichWithVariableMetadata.
    destruct (FindOne objNode _) as [vp|]; [|done].
    rewrite map_map. apply map_ext. intros p. apply enrichParam_idemp.
  - intros params parts. unfold XpzExport.enrichParametersWithVariableInfo.
    destruct (length params =? 0) eqn:E1; [by rewrite E1|].
    destruct (length (XpzExport.findVariables parts) =? 0) eqn:E2; [by rewrite E1|].
    rewrite length_map, E1. rewrite map_map. apply map_ext. intros p.
    apply enrichWithInfo_idemp.
Qed.

(** X8. Which variable a parameter is enriched from.  When several variables
    of the variables part carry the name of a parameter, the last one counts:
    an empty type and an empty description of the parameter are filled from
    the metadata of that variable.  [EnrichWithVariableMetadata] names a
    variable by its Name attribute and passes over variables whose Name
    attribute is empty; [enrichParametersWithVariableInfo] names it by the
    decoded Name. *)
Theorem enrichment_takes_the_last_variable :
  (forall (Node : Type) (X : XmlQuery Node) (params : list ParameterDoc.t) (objNode : Node)
          (before after : list Node) (v : Node) (i : nat) (p : ParameterDoc.t),
     VariableNodes objNode = before ++ v :: after ->
     GetAttrDirect v (str "Name") = ParameterDoc.Name p ->
     ParameterDoc.Name p <> [] ->
     (forall v', v' ∈ after -> GetAttrDirect v' (str "Name") <> ParameterDoc.Name p) ->
     params !! i = Some p ->
     exists q,
       EnrichWithVariableMetadata params objNode !! i = Some q /\
       (ParameterDoc.Type_ p = [] -> ParameterDoc.Type_ q = metaType (variableMeta v)) /\
       (ParameterDoc.Description p = [] ->
        ParameterDoc.Description q = metaDescription (variableMeta v))) /\
  (forall (params : list ParameterDoc.t) (parts : list GXPart.t)
          (before after : list GXVariable.t) (v : GXVariable.t) (i : nat)
          (p : ParameterDoc.t),
     XpzExport.findVariables parts = before ++ v :: after ->
     GXVariable.Name v = ParameterDoc.Name p ->
     (forall v', v' ∈ after -> GXVariable.Name v' <> ParameterDoc.Name p) ->
     params !! i = Some p ->
     exists q,
       XpzExport.enrichParametersWithVariableInfo params parts !! i = Some q /\
       (ParameterDoc.Type_ p = [] ->
        ParameterDoc.Type_ q = XpzExport.infoType (variableInfo v)) /\
       (ParameterDoc.Description p = [] ->
        ParameterDoc.Description q = XpzExport.infoDescription (variableInfo v))).
Proof.
  split.
  - intros Node X params objNode before after v i p Hvars Hname Hne Hafter Hi.
    unfold VariableNodes in Hvars. unfold EnrichWithVariableMetadata.
    destruct (FindOne objNode _) as [vp|]; [|by destruct before].
    rewrite list_lookup_fmap, Hi. simpl. eexists. split; [done|].
    unfold enrichParam. rewrite Hvars, <- Hname.
    rewrite addVariable_fold_last; [|by rewrite Hname|by rewrite Hname].
    destruct p as [n d t de]; simpl.
    split; intros ->; simpl; repeat case_bool_decide; simpl; done.
  - intros params parts before after v i p Hvars Hname Hafter Hi.
    unfold XpzExport.enrichParametersWithVariableInfo.
    destruct (length params =? 0) eqn:E1.
    { apply Nat.eqb_eq in E1. destruct params; [done | discriminate E1]. }
    rewrite Hvars. rewrite length_app. simpl.
    replace (length before + S (length after) =? 0) with false
      by (symmetry; apply Nat.eqb_neq; lia).
    rewrite list_lookup_fmap, Hi. simpl. eexists. split; [done|].
    unfold XpzExport.enrichWithInfo. rewrite <- Hname.
    rewrite addVariableInfo_fold_last by (by rewrite Hname).
    destruct p as [n d t de]; simpl.
    split; intros ->; simpl; repeat case_bool_decide; simpl; done.
Qed.

Lemma enrichment_takes_the_last_variable_witness :
  exists q,
    EnrichWithVariableMetadata [ParameterDoc.mk (str "Id") (str "IN") [] []]
                               Samples.shadowedVariable !! 0 = Some q /\
    ParameterDoc.Type_ q = str "Character" /\
    ParameterDoc.Description q = str "Key".
Proof.
  destruct (proj1 enrichment_takes_the_last_variable _ _
              [ParameterDoc.mk (str "Id") (str "IN") [] []] Samples.shadowedVariable
              [Samples.numericId] [] Samples.characterId 0
              (ParameterDoc.mk (str "Id") (str "IN") [] []))
    as (q & Hq & Ht & Hd).
  - vm_compute. reflexivity.
  - vm_compute. reflexivity.
  - vm_compute. discriminate.
  - intros v' Hv'. by apply elem_of_nil in Hv'.
  - reflexivity.
  - exists q. split; [exact Hq|]. split.
    + rewrite Ht by reflexivity. vm_compute. reflexivity.
    + rewrite Hd by reflexivity. vm_compute. reflexivity.
Defined.

(** ** Bytes *)

Lemma word_byte (x : ascii) :
  isWordChar x = true ->
  reSpace x = false /\ isSpace x = false /\ dot x = true /\
  x <> ":"%char /\ x <> ","%char /\ x <> "("%char /\ x <> ")"%char /\
  x <> ";"%char /\ x <> "&"%char /\ x <> "$"%char /\ x <> "/"%char.
Proof.
  destruct x as [[] [] [] [] [] [] [] []]; vm_compute; intros Hw;
    try discriminate Hw; repeat split; discriminate.
Qed.

Lemma space_byte (x : ascii) :
  reSpace x = true ->
  isSpace x = true /\ isWordChar x = false /\ isLowerLetter (toLowerChar x) = false /\
  x <> ":"%char /\ x <> ","%char /\ x <> "("%char /\ x <> ")"%char /\
  x <> ";"%char /\ x <> "&"%char /\ x <> "$"%char.
Proof.
  destruct x as [[] [] [] [] [] [] [] []]; vm_compute; intros Hw;
    try discriminate Hw; repeat split; discriminate.
Qed.

Lemma letter_byte (x : ascii) :
  isLowerLetter (toLowerChar x) = true -> isWordChar x = true.
Proof.
  destruct x as [[] [] [] [] [] [] [] []]; vm_compute; intros Hw;
    try discriminate Hw; reflexivity.
Qed.

Section Bytes.
Implicit Types (s d w : gostring) (x : ascii).

Lemma forallb_elem (f : ascii -> bool) s x : forallb f s = true -> x ∈ s -> f x = true.
Proof. intros Hs Hx. rewrite forallb_forall in Hs. by apply Hs, list_elem_of_In. Qed.

Lemma forallb_intro (f : ascii -> bool) s : (forall x, x ∈ s -> f x = true) -> forallb f s = true.
Proof. intros Hs. apply forallb_forall. intros x Hx. by apply Hs, list_elem_of_In. Qed.

Lemma IsDirection_word d : IsDirection d -> forallb isWordChar d = true.
Proof.
  intros Hd. apply forallb_intro. intros x Hx.
  apply letter_byte. by eapply IsDirection_letters.
Qed.

Lemma IsDirection_nonempty d : IsDirection d -> d <> [].
Proof. intros [Hd|[Hd|[Hd|[]]]] ->; discriminate Hd. Qed.

Lemma not_elem_word s x : forallb isWordChar s = true -> isWordChar x = false -> x ∉ s.
Proof. intros Hs Hx Hin. rewrite (forallb_elem _ _ _ Hs Hin) in Hx. done. Qed.

Lemma not_elem_space s x : forallb reSpace s = true -> reSpace x = false -> x ∉ s.
Proof. intros Hs Hx Hin. rewrite (forallb_elem _ _ _ Hs Hin) in Hx. done. Qed.

End Bytes.

(** ** Steps of the replacement loop *)

Section ReplaceSteps.
Implicit Types (r : re) (bef aft w m : gostring).

Lemma replaceFrom_skipn r repl w : forall n jm bef aft,
  length w = n ->
  replaceFrom r repl n jm bef (w ++ aft) = replaceFrom r repl 0 jm (reverse w ++ bef) aft.
Proof.
  induction w as [|x w IH]; intros n jm bef aft Hn.
  - by subst n.
  - destruct n as [|n]; [done|]. injection Hn as Hn. cbn [app replaceFrom].
    rewrite (IH n) by done. by rewrite reverse_cons, <- app_assoc.
Qed.

(** A match at the cursor is replaced and the loop goes on after it. *)
Lemma replaceFrom_match_step r repl jm bef m aft c :
  m <> [] ->
  matchAt r bef (m ++ aft) = Some (length bef + length m, c) ->
  replaceFrom r repl 0 jm bef (m ++ aft)
  = repl (length bef) (length bef + length m) c
    ++ replaceFrom r repl 0 true (reverse m ++ bef) aft.
Proof.
  intros Hm Hmatch. destruct m as [|x m]; [done|]. cbn [app] in *.
  rewrite (replaceFrom_match _ _ _ _ _ _ _ _ Hmatch) by (simpl; lia).
  f_equal. rewrite (replaceFrom_skipn _ _ m); [|simpl; lia].
  by rewrite reverse_cons, <- app_assoc.
Qed.

(** Text in which no match starts is copied to the end. *)
Lemma replaceFrom_no_match r repl jm bef aft :
  (forall p1 p2, aft = p1 ++ p2 -> matchAt r (reverse p1 ++ bef) p2 = None) ->
  replaceFrom r repl 0 jm bef aft = aft.
Proof.
  intros Hno. rewrite <- (app_nil_r aft) at 1. rewrite replaceFrom_skip_prefix.
  - rewrite replaceFrom_nil; [by rewrite app_nil_r|].
    apply (Hno aft []). by rewrite app_nil_r.
  - intros p1 x p2 ->. rewrite app_nil_r. by apply Hno.
Qed.

Lemma expand_plain (T s : gostring) b e c : "$"%char ∉ T -> expand T s b e c = T.
Proof.
  intros HT. unfold expand. destruct (length T) as [|n]; [done|]. cbn [expandFuel].
  change (str "$") with ["$"%char]. apply Cut_char_None in HT. by rewrite HT.
Qed.

End ReplaceSteps.

(** ** The direction pass *)

Section DirectionPass.
Implicit Types (bef aft w d ws rest s : gostring) (c : caps).

Lemma Sem_directionRegex_boundary bef w rest c c' :
  Sem directionRegex bef w rest c c' ->
  xorb (wordAt bef) (wordAt (w ++ rest)) = true.
Proof.
  unfold directionRegex. intros HS.
  inversion HS as [| |? ? ? w0 r0 ? ? ? ? H0 HS0| | | | | | |]; subst; clear HS.
  inversion H0; subst. done.
Qed.

Lemma head_letterOrSpace d ws :
  IsDirection d -> forallb reSpace ws = true -> forallb letterOrSpace (d ++ ws) = true.
Proof.
  intros Hd Hws. apply forallb_intro. intros x [Hx|Hx]%elem_of_app; unfold letterOrSpace.
  - by rewrite (IsDirection_letters _ _ Hd Hx).
  - by rewrite (forallb_elem _ _ _ Hws Hx), orb_true_r.
Qed.

(** No match starts where the text holds no colon up to a byte that is
    neither a letter, nor white space, nor a colon. *)
Lemma direction_no_match_colon_free bef s (x0 : ascii) rest :
  ":"%char ∉ s -> x0 <> ":"%char -> letterOrSpace x0 = false ->
  matchAt directionRegex bef (s ++ x0 :: rest) = None.
Proof.
  intros Hs Hx0 Hx0'. apply matchAt_none. intros w tl c Heq HS.
  apply Sem_directionRegex_inv in HS as (d & ws & -> & Hd & Hws).
  pose proof (head_letterOrSpace _ _ Hd Hws) as Hu.
  rewrite <- !app_assoc in Heq. rewrite (app_assoc d ws) in Heq.
  destruct (app_eq_app_prefix _ _ _ _ Heq) as [[k Hk]|(k & y & Hk)].
  - rewrite Hk, <- app_assoc in Heq. apply app_inv_head in Heq.
    destruct k as [|y k]; simpl in Heq.
    + by injection Heq as ->.
    + injection Heq as -> _.
      assert (Hin : y ∈ d ++ ws) by (rewrite Hk; apply elem_of_app; right; left).
      rewrite (forallb_elem _ _ _ Hu Hin) in Hx0'. done.
  - rewrite Hk, <- app_assoc in Heq. apply app_inv_head in Heq.
    simpl in Heq. injection Heq as -> _.
    apply Hs. rewrite Hk. apply elem_of_app. right. left.
Qed.

(** No match starts at a byte that is not a letter, nor at the end. *)
Lemma direction_no_match_head bef aft :
  match aft with x :: _ => isLowerLetter (toLowerChar x) = false | [] => True end ->
  matchAt directionRegex bef aft = None.
Proof.
  intros Hhead. apply matchAt_none. intros w tl c -> HS.
  apply Sem_directionRegex_inv in HS as (d & ws & -> & Hd & Hws).
  destruct d as [|x d]; [by apply IsDirection_nonempty in Hd|].
  simpl in Hhead. rewrite (IsDirection_letters _ x Hd) in Hhead; [done | left].
Qed.

Lemma Sem_directionRegex_intro bef d ws rest :
  IsDirection d -> forallb reSpace ws = true -> wordAt bef = false ->
  exists c, Sem directionRegex bef (d ++ ws ++ str ":") rest [] c.
Proof.
  intros Hd Hws Hbef. eexists. unfold directionRegex.
  eapply (Sem_Seq _ _ _ [] (d ++ _)).
  { apply Sem_WordB. rewrite Hbef.
    destruct d as [|x d]; [by apply IsDirection_nonempty in Hd|]. simpl.
    apply letter_byte. apply (IsDirection_letters _ x Hd). left. }
  eapply (Sem_Seq _ _ _ d (ws ++ _)); [apply Sem_Group; by apply Sem_direction|].
  eapply (Sem_Seq _ _ _ ws (str ":")); [by apply Sem_Star|].
  by apply Sem_Chr, bool_decide_eq_true_2.
Qed.

Lemma direction_words_unique d ws rest d' ws' rest' :
  IsDirection d -> forallb reSpace ws = true ->
  IsDirection d' -> forallb reSpace ws' = true ->
  d ++ ws ++ str ":" ++ rest = d' ++ ws' ++ str ":" ++ rest' ->
  d = d' /\ ws = ws' /\ rest = rest'.
Proof.
  intros Hd Hws Hd' Hws' Heq.
  assert (Hhead : forall (w tl : gostring), forallb reSpace w = true ->
            match w ++ str ":" ++ tl with
            | y :: _ => keywordByte y = false | [] => True end).
  { intros [|y w] tl Hw; [done|]. simpl in *.
    apply andb_true_iff in Hw as [Hy _]. unfold keywordByte. by rewrite Hy. }
  apply (span_unique keywordByte) in Heq as [<- Heq];
    [|by apply IsDirection_bytes|by apply IsDirection_bytes
     |by apply Hhead|by apply Hhead].
  apply (span_unique reSpace) in Heq as [<- Heq]; [|done..].
  by injection Heq as <-.
Qed.

(** At the start of a direction keyword that follows a byte that is not a
    word byte, the match is the keyword, the white space and the colon. *)
Lemma direction_match_at bef d ws rest :
  IsDirection d -> forallb reSpace ws = true -> wordAt bef = false ->
  exists c,
    matchAt directionRegex bef ((d ++ ws ++ str ":") ++ rest)
    = Some (length bef + length (d ++ ws ++ str ":"), c).
Proof.
  intros Hd Hws Hbef.
  destruct (Sem_directionRegex_intro bef d ws rest Hd Hws Hbef) as [c0 HS].
  destruct (matchAt_some _ _ _ _ _ HS) as [[e c] Hm].
  exists c. rewrite Hm. f_equal. f_equal.
  apply matchAt_sound in Hm as (w' & rest' & Heq & HS' & ->).
  apply Sem_directionRegex_inv in HS' as (d' & ws' & -> & Hd' & Hws').
  rewrite <- !app_assoc in Heq.
  destruct (direction_words_unique _ _ _ _ _ _ Hd Hws Hd' Hws' Heq) as (<- & <- & _).
  rewrite length_app, length_reverse. lia.
Qed.

Lemma lower_two (d : gostring) (a b : ascii) (tl : gostring) :
  ToLower d = a :: b :: tl ->
  exists x y d', d = x :: y :: d' /\ toLowerChar x = a /\ toLowerChar y = b
                 /\ ToLower d' = tl.
Proof.
  destruct d as [|x [|y d']]; try discriminate. intros [= <- <- <-].
  by exists x, y, d'.
Qed.

(** What the callback of the pass writes for a match: the keyword that
    [directionMatch] finds first in it, which is "in" for inout. *)
Lemma direction_callback d ws :
  IsDirection d -> forallb reSpace ws = true ->
  ToLower (FindString directionMatch (d ++ ws ++ str ":")) ++ str ":"
  = writtenDirection d ++ str ":".
Proof.
  intros Hd Hws. f_equal. unfold FindString, writtenDirection.
  assert (Hin : forall x y d',
            toLowerChar x = "i"%char -> toLowerChar y = "n"%char ->
            matchAt directionMatch [] (x :: y :: d' ++ ws ++ str ":")
            = Some (2, [(1, (0, 2))])).
  { intros x y d' Hx Hy. unfold matchAt, directionMatch. cbn [run wordAt xorb].
    assert (Hw : isWordChar x = true).
    { apply letter_byte. by rewrite Hx. }
    rewrite Hw. cbn [xorb]. unfold direction. cbn [run].
    change (x :: y :: d' ++ ws ++ str ":") with ([x; y] ++ d' ++ ws ++ str ":").
    rewrite (run_litsI (str "in") [x; y]); [done|].
    cbn. by rewrite Hx, Hy. }
  destruct Hd as [Hd|[Hd|[Hd|[]]]]; symmetry in Hd.
  - destruct (lower_two _ _ _ _ Hd) as (x & y & d' & -> & Hx & Hy & Hd').
    destruct d'; [|done].
    pose proof (Hin x y [] Hx Hy) as Hm. cbn [app] in Hm. cbn [app].
    rewrite (findFrom_here _ _ _ _ _ Hm). cbn.
    by rewrite Hx, Hy.
  - destruct (lower_two _ _ _ _ Hd) as (x & y & d' & -> & Hx & Hy & Hd').
    destruct d' as [|z [|? ?]]; try done. injection Hd' as Hz.
    assert (Hout : matchAt directionMatch [] ([x; y; z] ++ ws ++ str ":")
                   = Some (3, [(1, (0, 3))])).
    { unfold matchAt, directionMatch. cbn [run wordAt xorb app].
      assert (Hw : isWordChar x = true).
      { apply letter_byte. by rewrite Hx. }
      rewrite Hw. cbn [xorb]. unfold direction. cbn [run].
      assert (Hno : forall k, run (litsI (str "in")) k
                                  [] (x :: y :: z :: ws ++ str ":") [] = None).
      { intros k. change (litsI (str "in")) with (Seq (Chr (litI "i")) (Chr (litI "n"))).
        cbn [run]. unfold litI at 1. rewrite bool_decide_eq_false_2; [done|].
        rewrite Hx. discriminate. }
      rewrite Hno.
      change (x :: y :: z :: ws ++ str ":") with ([x; y; z] ++ ws ++ str ":").
      rewrite (run_litsI (str "out") [x; y; z]); [done|].
      cbn. by rewrite Hx, Hy, Hz. }
    rewrite (findFrom_here _ _ _ _ _ Hout). cbn. by rewrite Hx, Hy, Hz.
  - destruct (lower_two _ _ _ _ Hd) as (x & y & d' & -> & Hx & Hy & Hd').
    pose proof (Hin x y d' Hx Hy) as Hm. cbn [app].
    rewrite (findFrom_here _ _ _ _ _ Hm). cbn.
    by rewrite Hx, Hy.
Qed.

End DirectionPass.


Section DirectionPassText.
Implicit Types (bef aft src G : gostring) (rest : list (gostring * declaration)).

Lemma suffix_of_snoc (G : gostring) (x0 : ascii) p1 (y : ascii) p2 :
  G ++ [x0] = p1 ++ y :: p2 ->
  exists s, y :: p2 = s ++ [x0] /\ (forall z, z ∈ s -> z ∈ G).
Proof.
  intros Heq. symmetry in Heq.
  destruct (app_eq_app_prefix _ _ _ _ Heq) as [[k Hk]|(k & z & Hk)].
  - rewrite Hk, <- app_assoc in Heq. apply app_inv_head in Heq.
    exists k. split; [done|]. intros z Hz. rewrite Hk. apply elem_of_app. by right.
  - rewrite Hk, <- app_assoc in Heq. apply app_inv_head in Heq.
    apply (f_equal length) in Heq. simpl in Heq. rewrite length_app in Heq.
    simpl in Heq. lia.
Qed.

(** A stretch without colon that ends in a byte at which no match can go
    on is copied by the direction pass. *)
Lemma direction_skips repl G (x0 : ascii) jm bef aft :
  ":"%char ∉ G -> x0 <> ":"%char -> letterOrSpace x0 = false ->
  replaceFrom directionRegex repl 0 jm bef ((G ++ [x0]) ++ aft)
  = (G ++ [x0]) ++ replaceFrom directionRegex repl 0 false (reverse (G ++ [x0]) ++ bef) aft.
Proof.
  intros HG Hx0 Hx0'. rewrite replaceFrom_skip_prefix.
  - by destruct G.
  - intros p1 y p2 Heq. destruct (suffix_of_snoc _ _ _ _ _ Heq) as (s & Hs & Hin).
    change (y :: p2 ++ aft) with ((y :: p2) ++ aft). rewrite Hs, <- app_assoc.
    apply direction_no_match_colon_free; [|done|done].
    intros Hc. by apply HG, Hin.
Qed.

(** White space is copied by the direction pass. *)
Lemma direction_skips_space repl ws jm bef aft :
  forallb reSpace ws = true ->
  replaceFrom directionRegex repl 0 jm bef (ws ++ aft)
  = ws ++ replaceFrom directionRegex repl 0 (match ws with [] => jm | _ => false end)
                      (reverse ws ++ bef) aft.
Proof.
  intros Hws. apply replaceFrom_skip_prefix.
  intros p1 y p2 Heq. apply direction_no_match_head.
  assert (Hy : reSpace y = true).
  { apply (forallb_elem _ ws); [done|]. rewrite Heq. apply elem_of_app. right. left. }
  by destruct (space_byte y Hy) as (_ & _ & ? & _).
Qed.

Lemma afterColon_colon_free (p : declaration) : WellFormedDecl p -> ":"%char ∉ afterColon p.
Proof.
  intros (_ & _ & Hw2 & _ & Hn). unfold afterColon.
  intros [Hin|[Hin|Hin]%elem_of_app]%elem_of_app.
  - apply (forallb_elem _ _ _ Hw2) in Hin. done.
  - by apply list_elem_of_singleton in Hin.
  - apply (forallb_elem _ _ _ Hn) in Hin. done.
Qed.

(** One match of the direction pass: the keyword, the white space and the
    colon are replaced by the written keyword and a colon. *)
Lemma direction_replaces src bef (p : declaration) aft jm :
  WellFormedDecl p -> wordAt bef = false ->
  src = reverse bef ++ (declDirection p ++ declBeforeColon p ++ str ":") ++ aft ->
  replaceFrom directionRegex (directionRepl src)
    0 jm bef ((declDirection p ++ declBeforeColon p ++ str ":") ++ aft)
  = (writtenDirection (declDirection p) ++ str ":")
    ++ replaceFrom directionRegex (directionRepl src) 0 true
         (reverse (declDirection p ++ declBeforeColon p ++ str ":") ++ bef) aft.
Proof.
  intros (Hd & Hw1 & _) Hbef Hsrc.
  destruct (direction_match_at bef _ _ aft Hd Hw1 Hbef) as [c Hm].
  rewrite (replaceFrom_match_step _ _ _ _ _ _ c); [|by destruct (declDirection p), (declBeforeColon p)|done].
  f_equal. unfold directionRepl.
  rewrite (slice_middle src (reverse bef) (declDirection p ++ declBeforeColon p ++ str ":") aft);
    [|done|by rewrite length_reverse|by rewrite length_reverse].
  by apply direction_callback.
Qed.

End DirectionPassText.

Section DirectionPassInduction.
Implicit Types (bef aft src : gostring) (rest : list (gostring * declaration)).

Lemma wordAt_after_space (ws G : gostring) (x0 : ascii) bef :
  forallb reSpace ws = true -> isWordChar x0 = false ->
  wordAt (reverse ws ++ reverse (G ++ [x0]) ++ bef) = false.
Proof.
  intros Hws Hx0. destruct (reverse ws) as [|y l] eqn:E.
  - rewrite reverse_app. done.
  - simpl. assert (Hy : y ∈ ws).
    { apply elem_of_reverse. rewrite E. left. }
    apply (forallb_elem _ _ _ Hws) in Hy. by destruct (space_byte y Hy) as (_ & ? & _).
Qed.

Lemma direction_pass_tail rest : forall src bef (p : declaration) jm,
  WellFormedDecl p -> WellFormedMore rest ->
  src = reverse bef ++ afterColon p ++ moreArguments rest ++ str ");" ->
  replaceFrom directionRegex (directionRepl src) 0 jm bef
              (afterColon p ++ moreArguments rest ++ str ");")
  = afterColon p ++ moreDirected rest ++ str ");".
Proof.
  induction rest as [|[w3 q] rest IH]; intros src bef p jm Hp Hrest Hsrc.
  - cbn [moreArguments moreDirected flat_map app].
    change (str ");") with ([")"%char] ++ [";"%char]).
    rewrite (app_assoc (afterColon p)).
    rewrite direction_skips; [|by apply afterColon_colon_free|done|done].
    f_equal.
    change [";"%char] with (([] ++ [";"%char]) ++ []) at 1.
    rewrite direction_skips; [|by apply not_elem_of_nil|done|done].
    rewrite replaceFrom_nil; [done|]. by apply direction_no_match_head.
  - apply Forall_cons in Hrest as [[Hw3 Hq] Hrest]. cbn [fst snd] in Hw3, Hq.
    assert (Hin :
      afterColon p ++ moreArguments ((w3, q) :: rest) ++ str ");"
      = (afterColon p ++ [","%char]) ++ w3
        ++ (declDirection q ++ declBeforeColon q ++ str ":")
        ++ afterColon q ++ moreArguments rest ++ str ");").
    { cbn [moreArguments flat_map fst snd]. unfold declText, afterColon.
      by rewrite <- !app_assoc. }
    assert (Hout :
      afterColon p ++ moreDirected ((w3, q) :: rest) ++ str ");"
      = (afterColon p ++ [","%char]) ++ w3
        ++ (writtenDirection (declDirection q) ++ str ":")
        ++ afterColon q ++ moreDirected rest ++ str ");").
    { cbn [moreDirected flat_map fst snd]. unfold declDirected, afterColon.
      by rewrite <- !app_assoc. }
    rewrite Hin in Hsrc |- *. rewrite Hout.
    rewrite direction_skips; [|by apply afterColon_colon_free|done|done].
    f_equal.
    rewrite direction_skips_space by done. f_equal.
    rewrite (direction_replaces src).
    + f_equal. apply IH; [done|done|].
      rewrite Hsrc, !reverse_app, !reverse_involutive, <- !app_assoc. done.
    + done.
    + by apply wordAt_after_space.
    + rewrite Hsrc, !reverse_app, !reverse_involutive, <- !app_assoc. done.
Qed.

End DirectionPassInduction.

Section DirectionPassWhole.
Implicit Types (bef aft src P : gostring) (rest : list (gostring * declaration)).

Lemma identifier_facts P :
  IsIdentifier P ->
  (":"%char ∉ P) /\ (","%char ∉ P) /\ ("$"%char ∉ P) /\ ("("%char ∉ P) /\
  (")"%char ∉ P) /\ (forall x, head P = Some x -> isSpace x = false) /\
  forallb dot P = true.
Proof.
  intros [Hne HP].
  repeat split; try (by apply (not_elem_word _ _ HP)).
  - intros x Hx. destruct P as [|y P]; [done|]. injection Hx as ->.
    simpl in HP. apply andb_true_iff in HP as [Hy _].
    by destruct (word_byte _ Hy) as (_ & ? & _).
  - apply forallb_intro. intros x Hx. apply (forallb_elem _ _ _ HP) in Hx.
    by destruct (word_byte _ Hx) as (_ & _ & ? & _).
Qed.

(** The direction pass on the text of a call. *)
Lemma direction_pass P (first : declaration) rest :
  IsIdentifier P -> WellFormedDecl first -> WellFormedMore rest ->
  ReplaceAllStringFunc directionRegex
    (P ++ str "(" ++ argumentText first rest ++ str ");")
    (fun m => ToLower (FindString directionMatch m) ++ str ":")
  = P ++ str "(" ++ declDirected first ++ moreDirected rest ++ str ");".
Proof.
  intros HP Hfirst Hrest. unfold ReplaceAllStringFunc.
  set (src := P ++ str "(" ++ argumentText first rest ++ str ");").
  change (fun (b e : nat) (_ : caps) =>
            ToLower (FindString directionMatch (slice src b e)) ++ str ":")
    with (directionRepl src).
  assert (Hsrc : src = (P ++ ["("%char])
                       ++ (declDirection first ++ declBeforeColon first ++ str ":")
                       ++ afterColon first ++ moreArguments rest ++ str ");").
  { unfold src, argumentText, declText, afterColon. by rewrite <- !app_assoc. }
  rewrite Hsrc at 2.
  destruct (identifier_facts P HP) as (Hc & _).
  rewrite direction_skips; [|done|done|done].
  rewrite (direction_replaces src).
  - rewrite (direction_pass_tail rest src); [| done | done |].
    + unfold declDirected. by rewrite <- !app_assoc.
    + rewrite Hsrc, !reverse_app, !reverse_involutive, <- !app_assoc. done.
  - done.
  - by rewrite reverse_app.
  - rewrite Hsrc, !reverse_app, !reverse_involutive, <- !app_assoc. done.
Qed.

End DirectionPassWhole.

(** ** The colon pass *)

Section ColonPass.
Implicit Types (bef aft src P G ws : gostring) (rest : list (gostring * declaration)).

Lemma colon_no_match_head bef aft :
  head aft <> Some ":"%char -> matchAt colonSpaceRegex bef aft = None.
Proof.
  intros Hhead. unfold matchAt, colonSpaceRegex. cbn [run].
  destruct aft as [|x t]; [done|]. unfold lit at 1.
  rewrite bool_decide_eq_false_2; [done|]. intros ->. by apply Hhead.
Qed.

Lemma colon_no_match_tight bef (x : ascii) aft :
  reSpace x = false -> matchAt colonSpaceRegex bef (":"%char :: x :: aft) = None.
Proof.
  intros Hx. unfold matchAt, colonSpaceRegex. cbn [run]. unfold lit at 1.
  rewrite bool_decide_eq_true_2 by done. by rewrite Hx.
Qed.

Lemma colon_match bef (x : ascii) ws aft :
  reSpace x = true -> forallb reSpace ws = true ->
  matchAt colonSpaceRegex bef ((str ":" ++ (x :: ws) ++ str "&") ++ aft)
  = Some (length bef + length (str ":" ++ (x :: ws) ++ str "&"), []).
Proof.
  intros Hx Hws. unfold matchAt, colonSpaceRegex. cbn [run].
  change ((str ":" ++ (x :: ws) ++ str "&") ++ aft)
    with (":"%char :: x :: (ws ++ str "&") ++ aft).
  unfold lit at 1. rewrite bool_decide_eq_true_2 by done. rewrite Hx.
  rewrite <- app_assoc.
  erewrite star_greedy_run; [reflexivity | done | done |].
  change (str "&" ++ aft) with ("&"%char :: aft). cbn [run app]. unfold lit.
  rewrite bool_decide_eq_true_2 by done.
  f_equal. f_equal. list_len.
Qed.

Lemma colon_skips repl G jm bef aft :
  ":"%char ∉ G ->
  replaceFrom colonSpaceRegex repl 0 jm bef (G ++ aft)
  = G ++ replaceFrom colonSpaceRegex repl 0 (match G with [] => jm | _ => false end)
                     (reverse G ++ bef) aft.
Proof.
  intros HG. apply replaceFrom_skip_prefix.
  intros p1 y p2 Heq. apply colon_no_match_head. simpl. intros [= ->].
  apply HG. rewrite Heq. apply elem_of_app. right. left.
Qed.

Lemma colon_copies_end repl G jm bef :
  ":"%char ∉ G -> replaceFrom colonSpaceRegex repl 0 jm bef G = G.
Proof.
  intros HG. apply replaceFrom_no_match. intros p1 p2 Heq.
  apply colon_no_match_head. destruct p2 as [|y p2]; [done|]. simpl. intros [= ->].
  apply HG. rewrite Heq. apply elem_of_app. right. left.
Qed.

(** At a colon the pass writes a colon and the sigil, whether white space
    stands between them or not. *)
Lemma colon_replaces repl ws jm bef aft :
  (forall b e c, repl b e c = str ":&") ->
  forallb reSpace ws = true ->
  exists jm',
    replaceFrom colonSpaceRegex repl 0 jm bef ((str ":" ++ ws ++ str "&") ++ aft)
    = str ":&"
      ++ replaceFrom colonSpaceRegex repl 0 jm' (reverse (str ":" ++ ws ++ str "&") ++ bef) aft.
Proof.
  intros Hrepl Hws. destruct ws as [|x ws].
  - exists false.
    change ((str ":" ++ [] ++ str "&") ++ aft) with (":"%char :: "&"%char :: aft).
    rewrite replaceFrom_copy by (by apply colon_no_match_tight).
    rewrite replaceFrom_copy by (by apply colon_no_match_head).
    done.
  - exists true. simpl in Hws. apply andb_true_iff in Hws as [Hx Hws].
    rewrite (replaceFrom_match_step _ _ _ _ _ _ []); [|done|by apply colon_match].
    by rewrite Hrepl.
Qed.

Lemma writtenDirection_cases d :
  writtenDirection d = str "in" \/ writtenDirection d = str "out".
Proof. unfold writtenDirection. destruct (HasPrefix _ _); auto. Qed.

Lemma writtenDirection_colon_free d : ":"%char ∉ writtenDirection d.
Proof.
  destruct (writtenDirection_cases d) as [->| ->];
    apply Cut_char_None; vm_compute; reflexivity.
Qed.

Lemma colon_pass_tail repl rest : forall bef (p : declaration) jm,
  (forall b e c, repl b e c = str ":&") ->
  WellFormedDecl p -> WellFormedMore rest ->
  replaceFrom colonSpaceRegex repl 0 jm bef
    ((str ":" ++ declAfterColon p ++ str "&") ++ declName p ++ moreDirected rest ++ str ");")
  = str ":&" ++ declName p ++ moreWritten rest ++ str ");".
Proof.
  induction rest as [|[w3 q] rest IH]; intros bef p jm Hrepl Hp Hrest.
  - destruct Hp as (_ & _ & Hw2 & _ & Hn).
    destruct (colon_replaces repl _ jm bef (declName p ++ moreDirected [] ++ str ");")
                Hrepl Hw2) as [jm' ->].
    f_equal. apply colon_copies_end. cbn [moreDirected flat_map app].
    intros [Hin|[Hin|Hin]%elem_of_cons]%elem_of_app.
    + apply (forallb_elem _ _ _ Hn) in Hin. done.
    + done.
    + by apply list_elem_of_singleton in Hin.
  - apply Forall_cons in Hrest as [[Hw3 Hq] Hrest]. cbn [fst snd] in Hw3, Hq.
    pose proof Hp as (_ & _ & Hw2 & _ & Hn).
    destruct (colon_replaces repl _ jm bef
                (declName p ++ moreDirected ((w3, q) :: rest) ++ str ");") Hrepl Hw2)
      as [jm' ->].
    f_equal.
    assert (Hin :
      declName p ++ moreDirected ((w3, q) :: rest) ++ str ");"
      = (declName p ++ str "," ++ w3 ++ writtenDirection (declDirection q))
        ++ (str ":" ++ declAfterColon q ++ str "&")
        ++ declName q ++ moreDirected rest ++ str ");").
    { cbn [moreDirected flat_map fst snd]. unfold declDirected, afterColon.
      by rewrite <- !app_assoc. }
    assert (Hout :
      declName p ++ moreWritten ((w3, q) :: rest) ++ str ");"
      = (declName p ++ str "," ++ w3 ++ writtenDirection (declDirection q))
        ++ str ":&" ++ declName q ++ moreWritten rest ++ str ");").
    { cbn [moreWritten flat_map fst snd]. unfold writtenDecl.
      by rewrite <- !app_assoc. }
    rewrite Hin, Hout. rewrite colon_skips.
    + f_equal. by apply IH.
    + intros [Hin'|[Hin'|[Hin'|Hin']%elem_of_app]%elem_of_cons]%elem_of_app.
      * apply (forallb_elem _ _ _ Hn) in Hin'. done.
      * done.
      * apply (forallb_elem _ _ _ Hw3) in Hin'. done.
      * by apply writtenDirection_colon_free in Hin'.
Qed.

(** The colon pass on the text the direction pass leaves. *)
Lemma colon_pass P (first : declaration) rest :
  IsIdentifier P -> WellFormedDecl first -> WellFormedMore rest ->
  ReplaceAllString colonSpaceRegex
    (P ++ str "(" ++ declDirected first ++ moreDirected rest ++ str ");") (str ":&")
  = P ++ str "(" ++ writtenDecl first ++ moreWritten rest ++ str ");".
Proof.
  intros HP Hfirst Hrest. unfold ReplaceAllString.
  set (src := P ++ str "(" ++ declDirected first ++ moreDirected rest ++ str ");").
  assert (Hsrc : src = (P ++ str "(" ++ writtenDirection (declDirection first))
                       ++ (str ":" ++ declAfterColon first ++ str "&")
                       ++ declName first ++ moreDirected rest ++ str ");").
  { unfold src, declDirected, afterColon. by rewrite <- !app_assoc. }
  rewrite Hsrc at 1.
  destruct (identifier_facts P HP) as (Hc & _).
  rewrite colon_skips.
  - rewrite colon_pass_tail; [|by intros; apply expand_plain, Cut_char_None|done|done].
    unfold writtenDecl. by rewrite <- !app_assoc.
  - intros [Hin|[Hin|Hin]%elem_of_cons]%elem_of_app; [done|done|].
    by apply writtenDirection_colon_free in Hin.
Qed.

End ColonPass.

(** ** The comma pass *)

Section CommaPass.
Implicit Types (bef aft src P G ws : gostring) (rest : list (gostring * declaration)).

Lemma comma_no_match_head bef aft :
  head aft <> Some ","%char -> matchAt commaSpaceRegex bef aft = None.
Proof.
  intros Hhead. unfold matchAt, commaSpaceRegex. cbn [run].
  destruct aft as [|x t]; [done|]. unfold lit at 1.
  rewrite bool_decide_eq_false_2; [done|]. intros ->. by apply Hhead.
Qed.

Lemma comma_match bef ws aft :
  forallb reSpace ws = true ->
  match aft with x :: _ => reSpace x = false | [] => True end ->
  matchAt commaSpaceRegex bef ((str "," ++ ws) ++ aft)
  = Some (length bef + length (str "," ++ ws), []).
Proof.
  intros Hws Haft. unfold matchAt, commaSpaceRegex. cbn [run].
  change ((str "," ++ ws) ++ aft) with (","%char :: ws ++ aft).
  unfold lit at 1. rewrite bool_decide_eq_true_2 by done.
  erewrite star_greedy_run; [reflexivity | done | done |].
  f_equal. f_equal. list_len.
Qed.

Lemma comma_skips repl G jm bef aft :
  ","%char ∉ G ->
  replaceFrom commaSpaceRegex repl 0 jm bef (G ++ aft)
  = G ++ replaceFrom commaSpaceRegex repl 0 (match G with [] => jm | _ => false end)
                     (reverse G ++ bef) aft.
Proof.
  intros HG. apply replaceFrom_skip_prefix.
  intros p1 y p2 Heq. apply comma_no_match_head. simpl. intros [= ->].
  apply HG. rewrite Heq. apply elem_of_app. right. left.
Qed.

Lemma comma_copies_end repl G jm bef :
  ","%char ∉ G -> replaceFrom commaSpaceRegex repl 0 jm bef G = G.
Proof.
  intros HG. apply replaceFrom_no_match. intros p1 p2 Heq.
  apply comma_no_match_head. destruct p2 as [|y p2]; [done|]. simpl. intros [= ->].
  apply HG. rewrite Heq. apply elem_of_app. right. left.
Qed.

Lemma writtenDecl_comma_free (p : declaration) :
  WellFormedDecl p -> ","%char ∉ writtenDecl p.
Proof.
  intros (_ & _ & _ & _ & Hn). unfold writtenDecl.
  intros [Hin|[Hin|[Hin|Hin]%elem_of_cons]%elem_of_cons]%elem_of_app.
  - destruct (writtenDirection_cases (declDirection p)) as [E|E]; rewrite E in Hin;
      apply Cut_char_None in Hin; [done| vm_compute; reflexivity |done| vm_compute; reflexivity].
  - done.
  - done.
  - apply (forallb_elem _ _ _ Hn) in Hin. done.
Qed.

Lemma writtenDecl_head (p : declaration) aft :
  match writtenDecl p ++ aft with x :: _ => reSpace x = false | [] => True end.
Proof.
  unfold writtenDecl. by destruct (writtenDirection_cases (declDirection p)) as [-> | ->].
Qed.

Lemma comma_pass_tail repl rest : forall bef jm,
  (forall b e c, repl b e c = str ", ") ->
  WellFormedMore rest ->
  replaceFrom commaSpaceRegex repl 0 jm bef (moreWritten rest ++ str ");")
  = moreCanonical rest ++ str ");".
Proof.
  induction rest as [|[w3 q] rest IH]; intros bef jm Hrepl Hrest.
  - apply comma_copies_end. apply Cut_char_None. reflexivity.
  - apply Forall_cons in Hrest as [[Hw3 Hq] Hrest]. cbn [fst snd] in Hw3, Hq.
    assert (Hin : moreWritten ((w3, q) :: rest) ++ str ");"
                  = (str "," ++ w3) ++ writtenDecl q ++ moreWritten rest ++ str ");").
    { cbn [moreWritten flat_map fst snd]. by rewrite <- !app_assoc. }
    assert (Hout : moreCanonical ((w3, q) :: rest) ++ str ");"
                   = str ", " ++ writtenDecl q ++ moreCanonical rest ++ str ");").
    { cbn [moreCanonical flat_map fst snd]. by rewrite <- !app_assoc. }
    rewrite Hin, Hout.
    rewrite (replaceFrom_match_step _ _ _ _ _ _ []);
      [|done|apply comma_match; [done | apply writtenDecl_head]].
    rewrite Hrepl. f_equal.
    rewrite comma_skips by (by apply writtenDecl_comma_free).
    f_equal. by apply IH.
Qed.

(** The comma pass on the text the colon pass leaves. *)
Lemma comma_pass P (first : declaration) rest :
  IsIdentifier P -> WellFormedDecl first -> WellFormedMore rest ->
  ReplaceAllString commaSpaceRegex
    (P ++ str "(" ++ writtenDecl first ++ moreWritten rest ++ str ");") (str ", ")
  = P ++ str "(" ++ writtenDecl first ++ moreCanonical rest ++ str ");".
Proof.
  intros HP Hfirst Hrest. unfold ReplaceAllString.
  set (src := P ++ str "(" ++ writtenDecl first ++ moreWritten rest ++ str ");").
  assert (Hsrc : src = (P ++ str "(" ++ writtenDecl first) ++ moreWritten rest ++ str ");").
  { unfold src. by rewrite <- !app_assoc. }
  rewrite Hsrc at 1.
  destruct (identifier_facts P HP) as (_ & Hc & _).
  rewrite comma_skips.
  - rewrite comma_pass_tail; [|by intros; apply expand_plain, Cut_char_None|done].
    by rewrite <- !app_assoc.
  - intros [Hin|[Hin|Hin]%elem_of_cons]%elem_of_app; [done|done|].
    by apply writtenDecl_comma_free in Hin.
Qed.

End CommaPass.

(** ** The parm pass, the parameters and the whole signature *)

Section WholeSignature.
Implicit Types (bef aft src P kw ws s : gostring) (rest : list (gostring * declaration)).

Lemma parm_no_match_head bef aft :
  match aft with x :: _ => toLowerChar x <> "p"%char | [] => True end ->
  matchAt parmRegex bef aft = None.
Proof.
  intros Hhead. unfold matchAt, parmRegex.
  change (litsI (str "parm"))
    with (Seq (Chr (litI "p")) (Seq (Chr (litI "a")) (Seq (Chr (litI "r")) (Chr (litI "m"))))).
  cbn [run]. destruct aft as [|x t]; [done|]. unfold litI at 1.
  by rewrite bool_decide_eq_false_2.
Qed.

Lemma dot_elem s : forallb dot s = true -> "010"%char ∉ s.
Proof. intros Hs Hin. by apply (forallb_elem _ _ _ Hs) in Hin. Qed.

Lemma declText_bytes (p : declaration) (x : ascii) :
  WellFormedDecl p -> x ∈ declText p ->
  isWordChar x = true \/ reSpace x = true \/ x = ":"%char \/ x = "&"%char.
Proof.
  intros (Hd & Hw1 & Hw2 & _ & Hn). unfold declText.
  intros [Hin|[Hin|[Hin|[Hin|[Hin|Hin]%elem_of_app]%elem_of_app]%elem_of_app]%elem_of_app]%elem_of_app.
  - left. by apply (forallb_elem _ _ _ (IsDirection_word _ Hd)).
  - right. left. by apply (forallb_elem _ _ _ Hw1).
  - apply list_elem_of_singleton in Hin. auto.
  - right. left. by apply (forallb_elem _ _ _ Hw2).
  - apply list_elem_of_singleton in Hin. auto.
  - left. by apply (forallb_elem _ _ _ Hn).
Qed.

Lemma argumentText_bytes (first : declaration) rest (x : ascii) :
  WellFormedDecl first -> WellFormedMore rest -> x ∈ argumentText first rest ->
  isWordChar x = true \/ reSpace x = true \/ x = ":"%char \/ x = "&"%char \/ x = ","%char.
Proof.
  intros Hfirst Hrest. unfold argumentText. intros [Hin|Hin]%elem_of_app.
  - destruct (declText_bytes _ _ Hfirst Hin) as [?|[?|[?|?]]]; auto.
  - unfold moreArguments in Hin. apply list_elem_of_In, in_flat_map in Hin as ([w3 q] & Hq & Hin).
    apply list_elem_of_In in Hq, Hin.
    eapply Forall_forall in Hrest as [Hw3 Hwf]; [|exact Hq]. cbn [fst snd] in *.
    apply elem_of_app in Hin as [Hin|[Hin|Hin]%elem_of_app].
    + apply list_elem_of_singleton in Hin. auto.
    + right. left. by apply (forallb_elem _ _ _ Hw3).
    + destruct (declText_bytes _ _ Hwf Hin) as [?|[?|[?|?]]]; auto.
Qed.

Lemma argumentText_free (first : declaration) rest (x : ascii) :
  WellFormedDecl first -> WellFormedMore rest ->
  isWordChar x = false -> reSpace x = false ->
  x <> ":"%char -> x <> "&"%char -> x <> ","%char ->
  x ∉ argumentText first rest.
Proof.
  intros Hfirst Hrest H1 H2 H3 H4 H5 Hin.
  destruct (argumentText_bytes _ _ _ Hfirst Hrest Hin) as [?|[?|[?|[?|?]]]]; congruence.
Qed.

(** The parm pass: the call is replaced by the procedure name and the
    argument text in parentheses. *)
Lemma parm_pass P kw ws0 (first : declaration) rest :
  ToLower kw = str "parm" -> forallb reSpace ws0 = true ->
  IsIdentifier P -> WellFormedDecl first -> WellFormedMore rest ->
  forallb dot (argumentText first rest) = true ->
  ReplaceAllString parmRegex
    (kw ++ ws0 ++ str "(" ++ argumentText first rest ++ str ");")
    (P ++ str "(" ++ argumentText first rest ++ str ")")
  = P ++ str "(" ++ argumentText first rest ++ str ");".
Proof.
  intros Hkw Hws0 HP Hfirst Hrest Hdot. unfold ReplaceAllString.
  set (A := argumentText first rest) in *.
  assert (Hclose : ")"%char ∉ A) by (by apply argumentText_free).
  assert (Hdollar : "$"%char ∉ A) by (by apply argumentText_free).
  pose proof (matchAt_parmRegex_call [] kw ws0 A (str ";") Hkw Hws0 Hdot Hclose) as Hm.
  set (src := kw ++ ws0 ++ str "(" ++ A ++ str ");").
  assert (Hsrc : src = (kw ++ ws0 ++ str "(" ++ A ++ str ")") ++ str ";").
  { unfold src. by rewrite <- !app_assoc. }
  rewrite Hsrc at 1.
  erewrite (replaceFrom_match_step _ _ _ _ (kw ++ ws0 ++ str "(" ++ A ++ str ")"));
    [|by destruct kw|rewrite <- !app_assoc; exact Hm].
  rewrite expand_plain.
  - rewrite replaceFrom_no_match; [by rewrite <- !app_assoc|].
    intros p1 p2 Heq. apply parm_no_match_head.
    destruct p2 as [|y p2]; [done|]. destruct p1 as [|z p1].
    + change (str ";") with [";"%char] in Heq. injection Heq as Hy _. subst y.
      discriminate.
    + change (str ";") with [";"%char] in Heq. injection Heq as _ Heq. by destruct p1.
  - destruct (identifier_facts P HP) as (_ & _ & Hd & _).
    intros [Hin|[Hin|[Hin|Hin]%elem_of_app]%elem_of_cons]%elem_of_app; try done.
    by apply list_elem_of_singleton in Hin.
Qed.

End WholeSignature.

Section DeclaredParameters.
Implicit Types (s ws : gostring) (rest : list (gostring * declaration)).

Lemma declText_comma_free (p : declaration) : WellFormedDecl p -> ","%char ∉ declText p.
Proof.
  intros Hp Hin. destruct (declText_bytes _ _ Hp Hin) as [H|[H|[H|H]]]; done.
Qed.

Lemma Split_arguments rest : forall s,
  WellFormedMore rest -> ","%char ∉ s ->
  Split (s ++ moreArguments rest) (str ",")
  = s :: map (fun wp => fst wp ++ declText (snd wp)) rest.
Proof.
  induction rest as [|[w3 q] rest IH]; intros s Hrest Hs.
  - cbn. rewrite app_nil_r. by apply Split_no_sep.
  - apply Forall_cons in Hrest as [[Hw3 Hq] Hrest]. cbn [fst snd] in Hw3, Hq.
    cbn [moreArguments flat_map map fst snd]. fold (moreArguments rest).
    change (str ",") with [","%char]. rewrite <- !app_assoc. cbn [app].
    rewrite Split_app by done. f_equal. rewrite app_assoc.
    change [","%char] with (str ","). apply IH; [done|].
    intros [Hin|Hin]%elem_of_app.
    + apply (forallb_elem _ _ _ Hw3) in Hin. done.
    + by apply declText_comma_free in Hin.
Qed.

Lemma dropSpaces_spaces ws s :
  forallb isSpace ws = true -> dropSpaces (ws ++ s) = dropSpaces s.
Proof.
  induction ws as [|x ws IH]; [done|]. simpl. intros [Hx Hws]%andb_true_iff.
  rewrite Hx. by apply IH.
Qed.

Lemma declText_NoOuterSpace (p : declaration) : WellFormedDecl p -> NoOuterSpace (declText p).
Proof.
  intros (Hd & _ & _ & Hne & Hn). unfold declText. split.
  - intros x Hx. destruct (declDirection p) as [|y d] eqn:E;
      [by apply IsDirection_nonempty in Hd|].
    injection Hx as <-. pose proof (IsDirection_word _ Hd) as Hw. simpl in Hw.
    apply andb_true_iff in Hw as [Hy _]. by destruct (word_byte _ Hy) as (_ & ? & _).
  - intros x. rewrite !app_assoc, last_app.
    destruct (last (declName p)) as [y|] eqn:E; [|by apply last_None in E].
    intros [= <-]. apply last_Some_elem_of in E.
    apply (forallb_elem _ _ _ Hn) in E. by destruct (word_byte _ E) as (_ & ? & _).
Qed.

Lemma TrimSpace_lead ws s :
  forallb reSpace ws = true -> NoOuterSpace s -> TrimSpace (ws ++ s) = s.
Proof.
  intros Hws Hs. rewrite <- (TrimSpace_id s Hs) at 2. unfold TrimSpace.
  rewrite dropSpaces_spaces; [done|].
  apply forallb_intro. intros x Hx. apply (forallb_elem _ _ _ Hws) in Hx.
  by destruct (space_byte _ Hx) as (? & _).
Qed.

Lemma declText_pattern (p : declaration) :
  WellFormedDecl p -> forallb dot (declName p) = true ->
  SegmentPattern (declText p) (declDirection p) (declName p).
Proof.
  intros (Hd & Hw1 & Hw2 & Hne & Hn) Hdot.
  exists (declBeforeColon p), (declAfterColon p). done.
Qed.

Lemma identifier_dot s : forallb isWordChar s = true -> forallb dot s = true.
Proof.
  intros Hs. apply forallb_intro. intros x Hx. apply (forallb_elem _ _ _ Hs) in Hx.
  by destruct (word_byte _ Hx) as (_ & _ & ? & _).
Qed.

Lemma identifier_NoOuterSpace s : forallb isWordChar s = true -> NoOuterSpace s.
Proof.
  intros Hs. split; intros x Hx.
  - destruct s as [|y s]; [done|]. injection Hx as <-. simpl in Hs.
    apply andb_true_iff in Hs as [Hy _]. by destruct (word_byte _ Hy) as (_ & ? & _).
  - apply last_Some_elem_of in Hx. apply (forallb_elem _ _ _ Hs) in Hx.
    by destruct (word_byte _ Hx) as (_ & ? & _).
Qed.

Lemma parmPart_declared acc ws (p : declaration) :
  forallb reSpace ws = true -> WellFormedDecl p ->
  parmPart acc (ws ++ declText p) = append acc (declParameter p).
Proof.
  intros Hws Hp.
  assert (Ht : TrimSpace (ws ++ declText p) = declText p)
    by (by apply TrimSpace_lead, declText_NoOuterSpace).
  pose proof Hp as (_ & _ & _ & _ & Hn).
  rewrite (proj1 (parmPart_spec acc (ws ++ declText p))
                 (declDirection p) (declName p)).
  - unfold declParameter. by rewrite (TrimSpace_id _ (identifier_NoOuterSpace _ Hn)).
  - rewrite Ht. by apply declText_pattern, identifier_dot.
Qed.

Lemma parmPart_declared_fold rest : forall acc,
  WellFormedMore rest ->
  fold_left parmPart (map (fun wp => fst wp ++ declText (snd wp)) rest) (Some acc)
  = Some (acc ++ map declParameter (map snd rest)).
Proof.
  induction rest as [|[w3 q] rest IH]; intros acc Hrest.
  - simpl. by rewrite app_nil_r.
  - apply Forall_cons in Hrest as [[Hw3 Hq] Hrest]. cbn [fst snd] in Hw3, Hq.
    cbn [map fold_left fst snd]. rewrite parmPart_declared by done.
    unfold append. cbn [default]. rewrite IH by done. by rewrite <- app_assoc.
Qed.

Lemma canonical_Join (first : declaration) rest :
  writtenDecl first ++ moreCanonical rest
  = Join (map writtenDecl (first :: map snd rest)) (str ", ").
Proof.
  revert first; induction rest as [|[w3 q] rest IH]; intros first.
  - cbn. by rewrite app_nil_r.
  - cbn [moreCanonical flat_map map fst snd Join]. fold (moreCanonical rest).
    rewrite <- app_assoc. do 2 f_equal. apply IH.
Qed.

End DeclaredParameters.

(** X9. The raw signature of a well-formed parm call, exactly.  For a rules
    source that is one call on one line, [parm(d1:&n1, d2:&n2, ...);], with
    the keyword in any case, direction keywords in any case, optional white
    space before the parenthesis, around each colon and after each comma, and
    identifiers as names, the ParmRule strategy returns one parameter per
    declaration (direction in upper case) and the raw signature
    [<Name>(w1:&n1, w2:&n2, ...);] with one space after each comma, where the
    written direction [wi] is "in" for in, "out" for out, and "in" for inout:
    the direction pass writes the keyword that [directionMatch] finds first,
    and in [in|out|inout] that is "in". *)
Theorem canonical_raw_signature
    (procedureName kw ws0 : gostring) (first : declaration)
    (rest : list (gostring * declaration)) :
  ToLower kw = str "parm" -> forallb reSpace ws0 = true ->
  IsIdentifier procedureName ->
  WellFormedDecl first -> WellFormedMore rest ->
  forallb dot (ws0 ++ argumentText first rest) = true ->
  parseParmString (kw ++ ws0 ++ str "(" ++ argumentText first rest ++ str ");")
                  procedureName
  = Signature.mk
      (Some (map declParameter (first :: map snd rest)))
      (procedureName ++ str "("
       ++ Join (map writtenDecl (first :: map snd rest)) (str ", ") ++ str ");")
      [].
Proof.
  intros Hkw Hws0 HP Hfirst Hrest Hdot.
  rewrite forallb_app in Hdot. apply andb_true_iff in Hdot as [Hdot0 HdotA].
  set (A := argumentText first rest) in *.
  set (source := kw ++ ws0 ++ str "(" ++ A ++ str ");").
  assert (Hkw4 : exists k1 k2 k3 k4, kw = [k1; k2; k3; k4] /\ toLowerChar k1 = "p"%char).
  { destruct kw as [|k1 [|k2 [|k3 [|k4 [|? ?]]]]]; try discriminate Hkw.
    injection Hkw as H1 _. by exists k1, k2, k3, k4. }
  destruct Hkw4 as (k1 & k2 & k3 & k4 & Ekw & Hk1).
  assert (Hk1w : isWordChar k1 = true).
  { apply letter_byte. by rewrite Hk1. }
  assert (Hclose : ")"%char ∉ A) by (by apply argumentText_free).
  (* the source is one line, and not a comment line *)
  assert (Hline : "010"%char ∉ source).
  { unfold source. rewrite Ekw.
    intros [Hin|[Hin|[Hin|[Hin|Hin]%elem_of_app]%elem_of_cons]%elem_of_app]%elem_of_app.
    - assert (Hall : forallb dot [k1; k2; k3; k4] = true).
      { apply identifier_dot. rewrite <- Ekw. apply forallb_intro. intros x Hx.
        apply letter_byte.
        assert (Hl : forallb isLowerLetter (ToLower kw) = true) by (by rewrite Hkw).
        unfold ToLower in Hl. rewrite forallb_forall in Hl.
        apply Hl, in_map. by apply list_elem_of_In. }
      by apply dot_elem in Hall.
    - by apply dot_elem in Hdot0.
    - done.
    - by apply dot_elem in HdotA.
    - apply elem_of_cons in Hin as [Hin|Hin]; [done|].
      by apply list_elem_of_singleton in Hin. }
  assert (Hnos : NoOuterSpace source).
  { unfold source. rewrite Ekw. split.
    - intros x [= <-]. by destruct (word_byte _ Hk1w) as (_ & ? & _).
    - intros x. rewrite !app_assoc. change (str ");") with ([")"%char] ++ [";"%char]).
      rewrite app_assoc, last_snoc. by intros [= <-]. }
  assert (Hactive : Join (activeLines source) newline = source).
  { unfold activeLines. change newline with ["010"%char].
    rewrite (Split_no_sep _ _ Hline). cbn [filter list_filter].
    rewrite decide_True; [done|].
    rewrite (TrimSpace_id _ Hnos). unfold source. rewrite Ekw.
    change (str "//") with ["/"%char; "/"%char]. cbn [app HasPrefix].
    rewrite decide_False; [done|]. intros <-. discriminate Hk1. }
  unfold parseParmString. rewrite Hactive.
  assert (Hcall : ParmCallAt source [] A).
  { exists kw, ws0, (str ";"). split; [reflexivity | done]. }
  destruct (parmRegex_first_call _ _ (ParmCallAt_first _ _ Hcall)) as [whole ->].
  assert (Hhead : exists x tl, A = x :: tl /\ isWordChar x = true).
  { unfold A, argumentText, declText. destruct Hfirst as (Hd & _).
    pose proof (IsDirection_word _ Hd) as Hw.
    destruct (declDirection first) as [|x d]; [by apply IsDirection_nonempty in Hd|].
    simpl in Hw. apply andb_true_iff in Hw as [Hx _]. by eexists _, _. }
  assert (Hnonblank : TrimSpace A <> []).
  { intros Hb. apply TrimSpace_nil_inv in Hb. destruct Hhead as (x & tl & -> & Hx).
    simpl in Hb. apply andb_true_iff in Hb as [Hb _].
    destruct (word_byte _ Hx) as (_ & ? & _). congruence. }
  rewrite bool_decide_eq_false_2 by done.
  f_equal.
  - unfold A, argumentText.
    rewrite Split_arguments; [|done|by apply declText_comma_free].
    cbn [fold_left map].
    pose proof (parmPart_declared None [] first eq_refl Hfirst) as Hp0.
    cbn [app] in Hp0. rewrite Hp0. unfold append. cbn [default app].
    by rewrite parmPart_declared_fold.
  - unfold source, A.
    rewrite parm_pass by done.
    rewrite direction_pass by done.
    rewrite colon_pass by done.
    rewrite comma_pass by done.
    rewrite (app_assoc (writtenDecl first)), canonical_Join.
    apply TrimSpace_id. split.
    + intros x Hx. destruct (identifier_facts _ HP) as (_ & _ & _ & _ & _ & Hh & _).
      apply Hh. destruct HP as [Hne _]. by destruct procedureName.
    + intros x. rewrite !app_assoc. change (str ");") with ([")"%char] ++ [";"%char]).
      rewrite app_assoc, last_snoc. by intros [= <-].
Qed.

Lemma canonical_raw_signature_witness :
  parseParmString (str "Parm (In : &X, OUT:&Y,inout:  &Z);") (str "Process")
  = Signature.mk
      (Some [ParameterDoc.mk (str "X") (str "IN") [] [];
             ParameterDoc.mk (str "Y") (str "OUT") [] [];
             ParameterDoc.mk (str "Z") (str "INOUT") [] []])
      (str "Process(in:&X, out:&Y, in:&Z);")
      [].
Proof.
  apply (canonical_raw_signature (str "Process") (str "Parm") (str " ")
           (mkDecl (str "In") (str " ") (str " ") (str "X"))
           [(str " ", mkDecl (str "OUT") [] [] (str "Y"));
            ([], mkDecl (str "inout") [] (str "  ") (str "Z"))]).
  - reflexivity.
  - reflexivity.
  - split; [discriminate | reflexivity].
  - split; [left; reflexivity|]. split; [reflexivity|]. split; [reflexivity|].
    split; [discriminate | reflexivity].
  - constructor; [|constructor; [|constructor]].
    + split; [reflexivity|]. split; [right; left; reflexivity|].
      split; [reflexivity|]. split; [reflexivity|]. split; [discriminate | reflexivity].
    + split; [reflexivity|]. split; [right; right; left; reflexivity|].
      split; [reflexivity|]. split; [reflexivity|]. split; [discriminate | reflexivity].
  - reflexivity.
Defined.

(** ** Package names as file names *)

Section Sanitize.
Implicit Types (s new : gostring) (c x : ascii).

Lemma replaceAllFuel_char n c new : forall s,
  length s <= n ->
  replaceAllFuel n s [c] new
  = flat_map (fun x => if bool_decide (x = c) then new else [x]) s.
Proof.
  induction n as [|n IH]; intros s Hn.
  - destruct s; [done | simpl in Hn; lia].
  - cbn [replaceAllFuel]. destruct (Cut s [c]) as [[a b]|] eqn:E.
    + apply Cut_char_Some in E as [-> Ha].
      rewrite length_app in Hn. simpl in Hn.
      rewrite flat_map_app. cbn [flat_map]. rewrite bool_decide_eq_true_2 by done.
      rewrite IH by lia. f_equal.
      clear -Ha. induction a as [|y a IHa]; [done|].
      apply not_elem_of_cons in Ha as [Hne Ha]. cbn [flat_map].
      rewrite bool_decide_eq_false_2 by done. simpl. f_equal. by apply IHa.
    + apply Cut_char_None in E. clear -E. induction s as [|y s IHs]; [done|].
      apply not_elem_of_cons in E as [Hne E]. cbn [flat_map].
      rewrite bool_decide_eq_false_2 by done. simpl. f_equal. by apply IHs.
Qed.

Lemma ReplaceAll_char s c (d : ascii) :
  ReplaceAll s [c] [d] = map (fun x => if bool_decide (x = c) then d else x) s.
Proof.
  unfold ReplaceAll. rewrite replaceAllFuel_char by done.
  induction s as [|y s IH]; [done|]. cbn [flat_map map]. rewrite IH.
  by case_bool_decide.
Qed.

Lemma dash_step s c (cs : list ascii) :
  c <> "-"%char ->
  map (fun x => if bool_decide (x = c) then "-"%char else x)
      (map (fun x => if bool_decide (x ∈ cs) then "-"%char else x) s)
  = map (fun x => if bool_decide (x ∈ cs ++ [c]) then "-"%char else x) s.
Proof.
  intros Hc. rewrite map_map. apply map_ext. intros x.
  destruct (decide (x ∈ cs)) as [Hin|Hin].
  - rewrite (bool_decide_eq_true_2 (x ∈ cs)) by done.
    rewrite (bool_decide_eq_false_2 ("-"%char = c)) by done.
    rewrite bool_decide_eq_true_2; [done|]. apply elem_of_app. by left.
  - rewrite (bool_decide_eq_false_2 (x ∈ cs)) by done.
    destruct (decide (x = c)) as [->|Hne].
    + rewrite bool_decide_eq_true_2 by done.
      rewrite bool_decide_eq_true_2; [done|]. apply elem_of_app. right. by apply list_elem_of_singleton.
    + rewrite bool_decide_eq_false_2 by done.
      rewrite bool_decide_eq_false_2; [done|]. intros [H|H%list_elem_of_singleton]%elem_of_app; done.
Qed.

Lemma dash_first s c :
  map (fun x => if bool_decide (x = c) then "-"%char else x) s
  = map (fun x => if bool_decide (x ∈ [c]) then "-"%char else x) s.
Proof.
  apply map_ext. intros x. destruct (decide (x = c)) as [->|Hne].
  - rewrite !bool_decide_eq_true_2; [done| by apply list_elem_of_singleton | done].
  - rewrite !bool_decide_eq_false_2; [done| by intros H%list_elem_of_singleton | done].
Qed.

Lemma sanitize_dashed pkg :
  pkg <> [] -> Generator.sanitizePackageName pkg = TrimSpace (dashed pkg).
Proof.
  intros Hne. unfold Generator.sanitizePackageName.
  rewrite bool_decide_eq_false_2 by done. f_equal.
  unfold Generator.backslash, Generator.doubleQuote.
  change (str "/") with ["/"%char]. change (str ":") with [":"%char].
  change (str "*") with ["*"%char]. change (str "?") with ["?"%char].
  change (str "<") with ["<"%char]. change (str ">") with [">"%char].
  change (str "|") with ["|"%char]. change (str "-") with ["-"%char].
  rewrite !ReplaceAll_char, (dash_first pkg).
  do 8 (rewrite dash_step by discriminate; cbn [app]).
  reflexivity.
Qed.

End Sanitize.


Section SanitizeFacts.
Implicit Types (s pkg : gostring) (x : ascii).

Lemma elem_of_TrimSpace s x : x ∈ TrimSpace s -> x ∈ s.
Proof.
  intros Hx. destruct (TrimSpace_decomp s) as (w1 & w2 & _ & _ & Hs).
  rewrite Hs. apply elem_of_app. right. apply elem_of_app. by left.
Qed.


Lemma dashed_safe pkg x : x ∈ unsafeBytes -> x ∉ dashed pkg.
Proof.
  intros Hx Hin. unfold dashed in Hin. apply list_elem_of_fmap in Hin as (y & Hy & _).
  case_bool_decide as Hu.
  - subst x. revert Hx. vm_compute. intros Hx.
    repeat (apply elem_of_cons in Hx as [Hx|Hx]; [discriminate Hx|]).
    by apply elem_of_nil in Hx.
  - by subst y.
Qed.



End SanitizeFacts.

Lemma sanitize_safe pkg :
  (forall x, x ∈ unsafeBytes -> x ∉ Generator.sanitizePackageName pkg) /\
  NoOuterSpace (Generator.sanitizePackageName pkg).
Proof.
  destruct (decide (pkg = [])) as [->|Hne].
  - split.
    + intros x Hx Hin. revert Hx. vm_compute in Hin.
      repeat (apply elem_of_cons in Hin as [->|Hin];
              [vm_compute; intros Hx;
               repeat (apply elem_of_cons in Hx as [Hx|Hx]; [discriminate Hx|]);
               by apply elem_of_nil in Hx|]).
      by apply elem_of_nil in Hin.
    + split; intros x; vm_compute; intros [= <-]; reflexivity.
  - rewrite (sanitize_dashed _ Hne). split.
    + intros x Hx Hin. apply elem_of_TrimSpace in Hin. by apply (dashed_safe pkg x).
    + apply TrimSpace_NoOuterSpace.
Qed.

(** X10. A sanitised package name is safe as a file name: it holds none of
    the bytes slash, backslash, colon, star, question mark, double quote,
    angle brackets and bar, and it neither starts nor ends with white
    space. *)
Theorem sanitizePackageName_is_safe (pkg : gostring) :
  (forall x, x ∈ unsafeBytes -> x ∉ Generator.sanitizePackageName pkg) /\
  NoOuterSpace (Generator.sanitizePackageName pkg).
Proof. apply sanitize_safe. Qed.


(** ** Grouping and counting in the generator *)

Section Tables.
Implicit Types (obj proc : GXObject.t) (pkg t : gostring).

Lemma total_empty : total ∅ = 0.
Proof. apply map_fold_empty. Qed.

Lemma total_insert_fresh (m : gmap gostring nat) k v :
  m !! k = None -> total (<[k := v]> m) = v + total m.
Proof.
  intros Hk. unfold total. apply (map_fold_insert_L (fun _ n acc => n + acc)); [|done].
  intros. lia.
Qed.

Lemma total_bump (m : gmap gostring nat) k :
  total (<[k := S (default 0 (m !! k))]> m) = S (total m).
Proof.
  destruct (m !! k) as [v|] eqn:Hk; simpl.
  - rewrite <- (insert_delete_id m k v Hk) at 2.
    rewrite <- (insert_delete_eq m k (S v)).
    rewrite !total_insert_fresh by apply lookup_delete_eq. lia.
  - by rewrite total_insert_fresh.
Qed.

Lemma counting_fold {A} (key : A -> gostring) (l : list A) :
  forall (m : gmap gostring nat) k,
  fold_left (fun m x => <[key x := S (default 0 (m !! key x))]> m) l m !! k
  = match length (filter (fun x => key x = k) l) with
    | 0 => m !! k
    | n => Some (default 0 (m !! k) + n)
    end.
Proof.
  induction l as [|x l IH]; intros m k; [done|]. cbn [fold_left]. rewrite IH.
  destruct (decide (key x = k)) as [Hk|Hk].
  - rewrite filter_cons_True by done. cbn [length]. rewrite Hk, lookup_insert_eq. simpl.
    destruct (length _); f_equal; lia.
  - rewrite filter_cons_False by done. by rewrite lookup_insert_ne.
Qed.

Lemma counting_total {A} (key : A -> gostring) (l : list A) :
  forall (m : gmap gostring nat),
  total (fold_left (fun m x => <[key x := S (default 0 (m !! key x))]> m) l m)
  = total m + length l.
Proof.
  induction l as [|x l IH]; intros m; cbn [fold_left length]; [lia|].
  rewrite IH, total_bump. lia.
Qed.

Lemma grouping_fold (l : list GXObject.t) :
  forall (m : gmap gostring (list GXObject.t)) pkg,
  fold_left Generator.addToPackage l m !! pkg
  = match filter (fun proc => Generator.indexPackage proc = pkg) l with
    | [] => m !! pkg
    | g => Some (default [] (m !! pkg) ++ g)
    end.
Proof.
  induction l as [|x l IH]; intros m pkg; [done|]. cbn [fold_left]. rewrite IH.
  unfold Generator.addToPackage.
  destruct (decide (Generator.indexPackage x = pkg)) as [Hk|Hk].
  - rewrite filter_cons_True by done. rewrite Hk, lookup_insert_eq. simpl.
    destruct (filter _ l); [done|]. by rewrite <- app_assoc.
  - rewrite filter_cons_False by done. by rewrite lookup_insert_ne.
Qed.

Lemma indexPackage_documented proc doc :
  GXObject.Documentation proc = Some doc ->
  Generator.sanitizePackageName (DocComment.Package doc) = Generator.indexPackage proc.
Proof.
  intros Hdoc. unfold Generator.indexPackage. rewrite Hdoc.
  case_bool_decide as Hp; [|done]. by rewrite Hp.
Qed.

Lemma indexPackage_safe proc x :
  x ∈ unsafeBytes -> x ∉ Generator.indexPackage proc.
Proof.
  assert (Hroot : x ∈ unsafeBytes -> x ∉ str "root").
  { intros Hx. replace (str "root") with (Generator.sanitizePackageName []) by done.
    by apply sanitize_safe. }
  intros Hx. unfold Generator.indexPackage.
  destruct (GXObject.Documentation proc) as [doc|]; [|by apply Hroot].
  case_bool_decide; [by apply Hroot | by apply sanitize_safe].
Qed.

Lemma Documented_Some proc doc : GXObject.Documentation proc = Some doc -> Documented proc.
Proof. intros H. by exists doc. Qed.

Lemma Documented_None proc : GXObject.Documentation proc = None -> ~ Documented proc.
Proof. intros H [doc Hdoc]. congruence. Qed.

Lemma packageCounts_fold (l : list GXObject.t) :
  forall (m : gmap gostring nat) pkg,
  fold_left Generator.countPackage l m !! pkg
  = match length (filter (fun proc => Documented proc /\ Generator.indexPackage proc = pkg) l) with
    | 0 => m !! pkg
    | n => Some (default 0 (m !! pkg) + n)
    end.
Proof.
  induction l as [|x l IH]; intros m pkg; [done|]. cbn [fold_left]. rewrite IH.
  unfold Generator.countPackage.
  destruct (GXObject.Documentation x) as [doc|] eqn:Hdoc.
  - rewrite (indexPackage_documented x doc Hdoc).
    destruct (decide (Generator.indexPackage x = pkg)) as [Hk|Hk].
    + rewrite filter_cons_True by (split; [by apply (Documented_Some x doc) | done]).
      cbn [length]. rewrite Hk, lookup_insert_eq. simpl.
      destruct (length _); f_equal; lia.
    + rewrite filter_cons_False by (by intros [_ ?]). by rewrite lookup_insert_ne.
  - rewrite filter_cons_False; [done|]. intros [Hd _]. by apply (Documented_None x).
Qed.

Lemma packageCounts_total (l : list GXObject.t) :
  forall (m : gmap gostring nat),
  total (fold_left Generator.countPackage l m) = total m + length (filter Documented l).
Proof.
  induction l as [|x l IH]; intros m; cbn [fold_left]; [simpl; lia|].
  rewrite IH. unfold Generator.countPackage.
  destruct (GXObject.Documentation x) as [doc|] eqn:Hdoc.
  - rewrite filter_cons_True by (by apply (Documented_Some x doc)).
    rewrite total_bump. simpl. lia.
  - rewrite filter_cons_False; [done|]. by apply Documented_None.
Qed.

Lemma partition_fold (l : list GXObject.t) :
  forall procedures otherObjects undocumentedCount,
  fold_left
    (fun '(procedures, otherObjects, undocumentedCount) obj =>
       if bool_decide (GXObject.Type_ obj = str "Procedure") then
         (procedures ++ [obj], otherObjects,
          match GXObject.Documentation obj with
          | Some _ => undocumentedCount
          | None => S undocumentedCount
          end)
       else (procedures, otherObjects ++ [obj], undocumentedCount))
    l (procedures, otherObjects, undocumentedCount)
  = (procedures ++ filter IsProcedure l,
     otherObjects ++ filter (fun obj => ~ IsProcedure obj) l,
     undocumentedCount
     + length (filter (fun obj => ~ Documented obj) (filter IsProcedure l))).
Proof.
  induction l as [|x l IH]; intros ps os n; cbn [fold_left].
  - simpl. by rewrite !app_nil_r, Nat.add_0_r.
  - case_bool_decide as Ht.
    + rewrite IH. rewrite (filter_cons_True IsProcedure) by done.
      rewrite (filter_cons_False (fun obj => ~ IsProcedure obj)) by (by intros H; apply H).
      rewrite <- app_assoc. simpl. f_equal.
      destruct (GXObject.Documentation x) as [doc|] eqn:Hdoc.
      * rewrite filter_cons_False; [done|]. intros H. apply H. by apply (Documented_Some x doc).
      * rewrite filter_cons_True; [simpl; lia|]. by apply Documented_None.
    + rewrite IH. rewrite (filter_cons_False IsProcedure) by done.
      rewrite (filter_cons_True (fun obj => ~ IsProcedure obj)) by done.
      by rewrite <- app_assoc.
Qed.

End Tables.

(** X12. The package indexes group the procedures by package, in their
    order.  The group of a package is the list of the procedures whose index
    package it is, in the order of the input, and a package without a
    procedure has no group; so every procedure is in the group of its package
    and in no other.  The name of an index file holds no unsafe byte. *)
Theorem groupByPackage_groups (procedures : list GXObject.t) (pkg : gostring) :
  Generator.groupByPackage procedures !! pkg
  = grouped (fun proc => Generator.indexPackage proc = pkg) procedures /\
  (forall proc, proc ∈ default [] (Generator.groupByPackage procedures !! pkg)
                <-> proc ∈ procedures /\ Generator.indexPackage proc = pkg) /\
  (Generator.groupByPackage procedures !! pkg <> None ->
   forall x, x ∈ unsafeBytes -> x ∉ pkg).
Proof.
  assert (Hg : Generator.groupByPackage procedures !! pkg
               = grouped (fun proc => Generator.indexPackage proc = pkg) procedures).
  { unfold Generator.groupByPackage, grouped. rewrite grouping_fold, lookup_empty.
    by destruct (filter _ procedures). }
  assert (Hd : default [] (Generator.groupByPackage procedures !! pkg)
               = filter (fun proc => Generator.indexPackage proc = pkg) procedures).
  { rewrite Hg. unfold grouped. by destruct (filter _ procedures). }
  split; [exact Hg|]. split.
  - intros proc. rewrite Hd. by rewrite list_elem_of_filter, (comm and).
  - intros Hsome x Hx.
    destruct (filter (fun proc => Generator.indexPackage proc = pkg) procedures)
      as [|proc g] eqn:Hf.
    + rewrite Hg in Hsome. unfold grouped in Hsome. by rewrite Hf in Hsome.
    + assert (Hin : proc ∈ filter (fun proc => Generator.indexPackage proc = pkg) procedures)
        by (rewrite Hf; apply elem_of_cons; by left).
      apply list_elem_of_filter in Hin as [<- _]. by apply indexPackage_safe.
Qed.

(** X13. The package table of the README against the package indexes.  The
    count of a package is the number of documented procedures in the index
    group of that package, a package is in the table only with a count above
    zero, every package of the table has an index, and the counts add up to
    the number of documented procedures. *)
Theorem packageCounts_match_indexes (procedures : list GXObject.t) (pkg : gostring) :
  Generator.packageCounts procedures !! pkg
  = counted Documented (default [] (Generator.groupByPackage procedures !! pkg)) /\
  Generator.packageCounts procedures !! pkg <> Some 0 /\
  dom (Generator.packageCounts procedures) ⊆ dom (Generator.groupByPackage procedures) /\
  total (Generator.packageCounts procedures) = length (filter Documented procedures).
Proof.
  assert (Hgroup : forall k, default [] (Generator.groupByPackage procedures !! k)
                   = filter (fun proc => Generator.indexPackage proc = k) procedures).
  { intros k. unfold Generator.groupByPackage. rewrite grouping_fold, lookup_empty.
    by destruct (filter _ procedures). }
  assert (Hcount : forall k, Generator.packageCounts procedures !! k
                   = counted Documented (default [] (Generator.groupByPackage procedures !! k))).
  { intros k. rewrite Hgroup. unfold Generator.packageCounts, counted.
    rewrite packageCounts_fold, lookup_empty. rewrite list_filter_filter. simpl.
    by destruct (length _). }
  split; [apply Hcount|]. split; [|split].
  - rewrite Hcount. unfold counted. by destruct (length _).
  - intros k Hk. apply elem_of_dom in Hk as [n Hn]. apply elem_of_dom.
    rewrite Hcount in Hn. unfold counted in Hn.
    destruct (Generator.groupByPackage procedures !! k); [done|]. by simpl in Hn.
  - unfold Generator.packageCounts. rewrite packageCounts_total, total_empty. lia.
Qed.

(** X14. The statistics table of the README.  The count of a type is the
    number of objects listed under it (an object without a type is listed
    under Unknown), a type is in the table only with a count above zero, and
    the counts add up to the number of objects, the total the README
    prints. *)
Theorem typeCounts_counts (objects : list GXObject.t) (t : gostring) :
  Generator.typeCounts objects !! t = counted (fun obj => shownType obj = t) objects /\
  Generator.typeCounts objects !! t <> Some 0 /\
  total (Generator.typeCounts objects) = length objects.
Proof.
  assert (Hfold : Generator.typeCounts objects
                  = fold_left (fun m x => <[shownType x := S (default 0 (m !! shownType x))]> m)
                      objects ∅) by done.
  assert (Hcount : Generator.typeCounts objects !! t
                   = counted (fun obj => shownType obj = t) objects).
  { rewrite Hfold, counting_fold, lookup_empty. unfold counted. by destruct (length _). }
  split; [exact Hcount|]. split.
  - rewrite Hcount. unfold counted. by destruct (length _).
  - by rewrite Hfold, counting_total, total_empty.
Qed.

(** X15. The first loop of GenerateDocs.  The procedures are the objects of
    type Procedure and the other objects the rest, each in the order of the
    input; the count of undocumented procedures is the number of procedures
    without documentation; no object is lost or doubled. *)
Theorem partitionObjects_filters (objects : list GXObject.t) :
  Generator.partitionObjects objects
  = (filter IsProcedure objects,
     filter (fun obj => ~ IsProcedure obj) objects,
     length (filter (fun obj => ~ Documented obj) (filter IsProcedure objects))) /\
  length (Generator.partitionObjects objects).1.1
  + length (Generator.partitionObjects objects).1.2 = length objects.
Proof.
  assert (Hp : Generator.partitionObjects objects
               = (filter IsProcedure objects,
                  filter (fun obj => ~ IsProcedure obj) objects,
                  length (filter (fun obj => ~ Documented obj) (filter IsProcedure objects)))).
  { unfold Generator.partitionObjects. by rewrite partition_fold. }
  split; [exact Hp|]. rewrite Hp. simpl. clear Hp.
  induction objects as [|x l IH]; [done|].
  destruct (decide (IsProcedure x)) as [Ht|Ht].
  - rewrite (filter_cons_True IsProcedure) by done.
    rewrite (filter_cons_False (fun obj => ~ IsProcedure obj)) by (by intros H; apply H).
    simpl. lia.
  - rewrite (filter_cons_False IsProcedure) by done.
    rewrite (filter_cons_True (fun obj => ~ IsProcedure obj)) by done.
    simpl. lia.
Qed.
